(** * MusicMigration-API: playlist migration engine and match scoring

    A shallow embedding of the Go sources

    - [internal/domain]            (Track, TrackResult, MigrationResult, ...)
    - [internal/adapters/registry] (ProviderRegistry)
    - [internal/adapters/spotify]  (calculateConfidence, AddTracksToPlaylist,
                                    SearchTrack, GetPlaylistTracks)
    - [internal/adapters/youtube]  (calculateConfidence, parseVideoTitle,
                                    SearchTrack, GetPlaylistTracks,
                                    CreatePlaylist, AddTracksToPlaylist)
    - [internal/app]               (searchTracksParallel, MigratePlaylist)
    - [internal/adapters/http]     (the handlers, extractToken)

    followed by the properties proved about them.

    Conventions.
    - A Go [string] is a byte sequence: Rocq's [string] (a list of 8-bit
      [ascii]).  [len(s)] is [String.length s].
    - A Go [float64] is an IEEE-754 binary64 value: [spec_float] with
      precision 53 and maximal exponent 1024, operations rounding to
      nearest-even (module [f64]).
    - A Go [error] is [option string]: [None] is [nil], [Some msg] an error
      whose [Error()] text is [msg].  A function returning [(v, err)] returns
      a pair, as in Go (both components are always present).
    - Slice lengths and the counters bounded by them are [nat].
    - Provider adapters talk to the outside world; each of their methods is a
      state transformer over an abstract world [W]. *)

From Stdlib Require Import ZArith String Ascii SpecFloat Lia.
From Equations Require Import Equations.
From stdpp Require Import gmap strings list pretty.

Local Open Scope string_scope.

(* ================================================================== *)
(** ** float64 *)

Module f64.

Definition float64 : Type := spec_float.

Definition prec : Z := 53.
Definition emax : Z := 1024.

Definition add : float64 → float64 → float64 := SFadd prec emax.
Definition mul : float64 → float64 → float64 := SFmul prec emax.
Definition div : float64 → float64 → float64 := SFdiv prec emax.

(** [x < y], [x <= y], [x > y]; all false when an operand is NaN. *)
Definition ltb : float64 → float64 → bool := SFltb.
Definition leb : float64 → float64 → bool := SFleb.
Definition gtb (x y : float64) : bool := SFltb y x.

(** Conversion [float64(n)] of an integer: the nearest binary64 value. *)
Definition of_int (n : Z) : float64 := binary_normalize prec emax n 0 false.

(** The constant written [n/d] in decimal notation (0.35 is [dec 35 100]):
    Go converts an untyped constant to the nearest [float64]; so does the
    correctly rounded quotient of two exactly representable integers. *)
Definition dec (n d : Z) : float64 := div (of_int n) (of_int d).

Definition zero : float64 := S754_zero false.   (* 0.0 *)
Definition one : float64 := dec 1 1.            (* 1.0 *)

End f64.

Abbreviation float64 := f64.float64.

(* ================================================================== *)
(** ** The functions of Go's [strings] package that the scorers call

    Byte-level definitions.  [Contains] is Go's exactly.  [ToLower],
    [EqualFold] and [Fields] are Go's on ASCII text; bytes from 0x80 up
    (multi-byte UTF-8, where Go applies Unicode case mapping and Unicode
    white space) are left as they are. *)

Module strings.

Definition isUpper (c : ascii) : bool :=
  let n := N_of_ascii c in (65 <=? n)%N && (n <=? 90)%N.

Definition lowerByte (c : ascii) : ascii :=
  if isUpper c then ascii_of_N (N_of_ascii c + 32) else c.

Fixpoint ToLower (s : string) : string :=
  match s with
  | EmptyString => EmptyString
  | String c s' => String (lowerByte c) (ToLower s')
  end.

(** One step of [EqualFold]'s loop: equal bytes, or an upper-case letter
    and its lower-case form. *)
Definition foldEq (a b : ascii) : bool :=
  Ascii.eqb a b
  || (isUpper a && Ascii.eqb b (lowerByte a))
  || (isUpper b && Ascii.eqb a (lowerByte b)).

Fixpoint EqualFold (s t : string) : bool :=
  match s, t with
  | EmptyString, EmptyString => true
  | String a s', String b t' => foldEq a b && EqualFold s' t'
  | _, _ => false
  end.

Fixpoint HasPrefix (s prefix : string) : bool :=
  match prefix, s with
  | EmptyString, _ => true
  | String a p', String b s' => Ascii.eqb a b && HasPrefix s' p'
  | String _ _, EmptyString => false
  end.

Fixpoint Contains (s substr : string) : bool :=
  HasPrefix s substr
  || match s with
     | EmptyString => false
     | String _ s' => Contains s' substr
     end.

(** '\t', '\n', '\v', '\f', '\r', ' ' *)
Definition isSpace (c : ascii) : bool :=
  let n := N_of_ascii c in ((9 <=? n)%N && (n <=? 13)%N) || (n =? 32)%N.

(** [Fields]: the maximal runs of non-space bytes, in order.  [cur] is the
    field being read. *)
Fixpoint fieldsFrom (cur : string) (s : string) : list string :=
  match s with
  | EmptyString => if String.eqb cur "" then [] else [cur]
  | String c s' =>
      if isSpace c
      then (if String.eqb cur "" then fieldsFrom "" s'
            else cur :: fieldsFrom "" s')
      else fieldsFrom (cur +:+ String c "") s'
  end.

Definition Fields (s : string) : list string := fieldsFrom "" s.

(** *** The functions [parseVideoTitle] and [toTrack] call

    [TrimSpace] is Go's on ASCII text (the white space of [isSpace]).
    [Replace] and [SplitN] are Go's for a non-empty [old] or [sep], which
    is how the adapters call them. *)

Fixpoint trimLeft (s : string) : string :=
  match s with
  | EmptyString => EmptyString
  | String c s' => if isSpace c then trimLeft s' else s
  end.

Fixpoint trimRight (s : string) : string :=
  match s with
  | EmptyString => EmptyString
  | String c s' =>
      let t := trimRight s' in
      if isSpace c && String.eqb t "" then EmptyString else String c t
  end.

Definition TrimSpace (s : string) : string := trimRight (trimLeft s).

(** [s[n:]] for [n <= len(s)] *)
Fixpoint sliceFrom (n : nat) (s : string) : string :=
  match n, s with
  | S n', String _ s' => sliceFrom n' s'
  | _, _ => s
  end.

(** [s[:n]] for [n <= len(s)] *)
Fixpoint sliceTo (n : nat) (s : string) : string :=
  match n, s with
  | S n', String c s' => String c (sliceTo n' s')
  | _, _ => EmptyString
  end.

(** [Cut]: the text before and the text after the first occurrence of
    [sep] in [s]; [None] when [sep] does not occur. *)
Fixpoint Cut (s sep : string) : option (string * string) :=
  if HasPrefix s sep then Some (EmptyString, sliceFrom (String.length sep) s)
  else match s with
       | EmptyString => None
       | String c s' =>
           match Cut s' sep with
           | Some (before, after) => Some (String c before, after)
           | None => None
           end
       end.

(** [Replace(s, old, new, n)]: the first [n] occurrences of [old] replaced
    by [new], from the left and without overlap; all of them when [n < 0]. *)
Fixpoint replaceFrom (fuel : nat) (s old new : string) (n : Z) : string :=
  match fuel with
  | O => s
  | S fuel' =>
      if (n =? 0)%Z then s
      else match Cut s old with
           | None => s
           | Some (before, after) =>
               before +:+ new +:+ replaceFrom fuel' after old new (n - 1)
           end
  end.

Definition Replace (s old new : string) (n : Z) : string :=
  replaceFrom (String.length s) s old new n.

(** [SplitN(s, sep, n)]: [s] split at the occurrences of [sep] into at most
    [n] pieces, the last one the unsplit rest; no bound when [n < 0], no
    piece when [n = 0]. *)
Fixpoint splitFrom (fuel : nat) (s sep : string) (n : Z) : list string :=
  match fuel with
  | O => [s]
  | S fuel' =>
      if (n =? 1)%Z then [s]
      else match Cut s sep with
           | None => [s]
           | Some (before, after) => before :: splitFrom fuel' after sep (n - 1)
           end
  end.

Definition SplitN (s sep : string) (n : Z) : list string :=
  if (n =? 0)%Z then [] else splitFrom (String.length s) s sep n.

Fixpoint Join (elems : list string) (sep : string) : string :=
  match elems with
  | [] => EmptyString
  | [e] => e
  | e :: rest => e +:+ sep +:+ Join rest sep
  end.

End strings.

(* ================================================================== *)
(** ** internal/domain *)

Module domain.

Record Track := {
  Name : string;
  Artist : string;
  Album : string;
  ISRC : string;
  ExternalID : string;
}.

Inductive TrackStatus :=
| TrackStatusMatched
| TrackStatusNotFound
| TrackStatusError
| TrackStatusZero.   (* the zero value [""] of the string type *)

Record TrackResult := {
  SourceTrack : Track;
  MatchedTrack : option Track;       (* *Track, nil is None *)
  Status : TrackStatus;
  ConfidenceScore : float64;
  Error : string;
}.

Record MigrationRequest := {
  SourceProvider : string;
  SourceToken : string;
  DestProvider : string;
  DestToken : string;
  PlaylistID : string;
}.

Record MigrationResult := {
  SourcePlaylist : string;
  DestPlaylistID : string;
  TotalTracks : nat;
  MatchedTracks : nat;
  FailedTracks : nat;
  TrackResults : list TrackResult;
}.

(** Zero values, as [make] and composite literals leave them. *)
Definition zeroTrack : Track :=
  {| Name := ""; Artist := ""; Album := ""; ISRC := ""; ExternalID := "" |}.

Definition zeroTrackResult : TrackResult :=
  {| SourceTrack := zeroTrack; MatchedTrack := None; Status := TrackStatusZero;
     ConfidenceScore := f64.zero; Error := "" |}.

(** A playlist of a provider ([PlaylistName] is the field [Name]). *)
Record Playlist := {
  ID : string;
  PlaylistName : string;
  Description : string;
  OwnerName : string;
  TrackCount : Z;
  Tracks : list Track;
}.

End domain.

(* ================================================================== *)
(** ** internal/ports: the provider capability

    [GetPlaylists] is left out: it is used by [ListPlaylists] only. *)

Module ports.
Import domain.

Definition error : Type := option string.

(** A [context.Context], reduced to what the code observes of it: whether
    [ctx.Done()] is closed. *)
Definition Context : Type := bool.

Record MusicProvider (W : Type) := {
  Name : string;
  GetPlaylistTracks :
    Context → string → string → W → (list Track * error) * W;
  SearchTrack :
    Context → string → Track → W → (option Track * float64 * error) * W;
  CreatePlaylist :
    Context → string → string → string → W → (string * error) * W;
  AddTracksToPlaylist :
    Context → string → string → list string → W → error * W;
}.
Arguments Name {W}.
Arguments GetPlaylistTracks {W}.
Arguments SearchTrack {W}.
Arguments CreatePlaylist {W}.
Arguments AddTracksToPlaylist {W}.

(** The service the HTTP handlers drive, over the state [S] it acts on. *)
Record MigrationService (S : Type) := {
  ListPlaylists :
    Context → string → string → S → (list Playlist * error) * S;
  MigratePlaylist :
    Context → MigrationRequest → S → (option MigrationResult * error) * S;
}.
Arguments ListPlaylists {S}.
Arguments MigratePlaylist {S}.

End ports.

(* ================================================================== *)
(** ** net/http and encoding/json, as the adapters use them *)

Module nethttp.

Record Request := {
  Method : string;
  URL : string;
  Authorization : string;     (* the header; every request sets it *)
  ContentType : string;       (* the header, [""] when it is not set *)
  Body : string;              (* [""] for the nil body of a GET *)
}.

Record Response := {
  StatusCode : Z;
  ResponseBody : string;      (* what [io.ReadAll(resp.Body)] returns *)
}.

(** What [NewRequestWithContext], [client.Do] and [io.ReadAll] give for a
    request, one after the other: the response read to its end, or the
    error of the first of the three that fails. *)
Definition Client (W : Type) : Type :=
  ports.Context → Request → W → (Response + string) * W.

(** The outside world, and the requests made so far (kept for the
    proofs). *)
Record Http (W : Type) := {
  world : W;
  requests : list Request;
}.
Arguments world {W}.
Arguments requests {W}.

Definition send {W} (client : Client W) (ctx : ports.Context) (rq : Request)
                (h : Http W) : (Response + string) * Http W :=
  let '(r, w) := client ctx rq (world h) in
  (r, {| world := w; requests := requests h ++ [rq] |}).

End nethttp.

Module json.

(** The values the adapters marshal: maps of strings, strings, booleans.
    [Marshal] writes the keys of a map in sorted order, as [JObject] lists
    them. *)
#[local] Unset Elimination Schemes.
Inductive Value :=
| JString (s : string)
| JBool (b : bool)
| JObject (fields : list (string * Value)).
#[local] Set Elimination Schemes.

End json.

(* ================================================================== *)
(** ** internal/adapters/spotify: the structured-metadata scorer *)

Module spotify.
Import domain.

Definition nonEmpty (s : string) : bool := negb (String.eqb s "").

Definition calculateConfidence (source matched : Track) : float64 :=
  let score := f64.zero in
  (* ISRC match is the strongest signal *)
  if nonEmpty (ISRC source) && nonEmpty (ISRC matched)
     && strings.EqualFold (ISRC source) (ISRC matched)
  then f64.dec 1 1
  else
    (* Name comparison (case-insensitive) *)
    let score :=
      if strings.EqualFold (Name source) (Name matched)
      then f64.add score (f64.dec 5 10)
      else if strings.Contains (strings.ToLower (Name matched))
                               (strings.ToLower (Name source))
           then f64.add score (f64.dec 3 10)
           else score in
    (* Artist comparison *)
    let score :=
      if strings.EqualFold (Artist source) (Artist matched)
      then f64.add score (f64.dec 35 100)
      else if strings.Contains (strings.ToLower (Artist matched))
                               (strings.ToLower (Artist source))
           then f64.add score (f64.dec 2 10)
           else score in
    (* Album comparison *)
    let score :=
      if nonEmpty (Album source)
         && strings.EqualFold (Album source) (Album matched)
      then f64.add score (f64.dec 15 100)
      else score in
    if f64.gtb score (f64.dec 1 1) then f64.dec 1 1 else score.

Definition baseURL : string := "https://api.spotify.com/v1".
Definition maxBatch : nat := 100.

(** One call of [doPost]: the bearer token, the endpoint, and the ["uris"]
    array of the JSON object that is the payload. *)
Record PostRequest := {
  post_token : string;
  post_endpoint : string;
  post_uris : list string;
}.

(** The HTTP side of the adapter: the outside world, and the requests
    handed to [doPost] so far (kept for the proofs). *)
Record Http (W : Type) := {
  http_world : W;
  http_posts : list PostRequest;
}.
Arguments http_world {W}.
Arguments http_posts {W}.

Section Provider.
Context {W : Type}.

(** What the HTTP client answers to a POST: [None] for a 2xx status,
    an error otherwise. *)
Variable client : ports.Context → PostRequest → W → ports.error * W.

Definition doPost (ctx : ports.Context) (token endpoint : string)
                  (uris : list string) (h : Http W) : ports.error * Http W :=
  let rq := {| post_token := token; post_endpoint := endpoint;
               post_uris := uris |} in
  let '(err, w) := client ctx rq (http_world h) in
  (err, {| http_world := w; http_posts := http_posts h ++ [rq] |}).

(** The loop [for i := 0; i < len(trackIDs); i += maxBatch] from the
    value [i] of its counter on. *)
Equations addTracksFrom (ctx : ports.Context) (token playlistID : string)
                        (trackIDs : list string) (i : nat) (h : Http W)
  : ports.error * Http W by wf (length trackIDs - i) lt :=
  addTracksFrom ctx token playlistID trackIDs i h
    with decide (i < length trackIDs) := {
    | right _ => (None, h)
    | left _
        with doPost ctx token
               (baseURL +:+ "/playlists/" +:+ playlistID +:+ "/tracks")
               ((λ id, "spotify:track:" +:+ id) <$>
                  take ((if decide (length trackIDs < i + maxBatch)
                         then length trackIDs else i + maxBatch) - i)
                       (drop i trackIDs))
               h := {
        | (Some err, h') =>
            (Some ("spotify: failed to add tracks to playlist: " +:+ err), h')
        | (None, h') =>
            addTracksFrom ctx token playlistID trackIDs (i + maxBatch) h' } }.
Next Obligation. unfold maxBatch. lia. Qed.

Definition AddTracksToPlaylist (ctx : ports.Context) (token playlistID : string)
                               (trackIDs : list string) (h : Http W)
  : ports.error * Http W :=
  addTracksFrom ctx token playlistID trackIDs 0 h.

End Provider.

(** *** The search and the fetch of the tracks of a playlist *)

Definition maxPerPage : Z := 50.

Record artistData := { artist_Name : string }.     (* field [Name] *)
Record albumData := { album_Name : string }.       (* field [Name] *)
Record externalIDs := { ids_ISRC : string }.       (* field [ISRC] *)

Record trackData := {
  track_ID : string;
  track_Name : string;
  track_Artists : list artistData;
  track_Album : albumData;
  track_ExternalIDs : externalIDs;
}.

Record trackItem := { item_Track : trackData }.

Record tracksResponse := {
  tracks_Items : list trackItem;
  tracks_Next : string;
}.

Record searchTracks := { search_Items : list trackData }.
Record searchResponse := { search_Tracks : searchTracks }.

Definition toTrack (t : trackData) : Track :=
  let artists := artist_Name <$> track_Artists t in
  {| Name := track_Name t;
     Artist := strings.Join artists ", ";
     Album := album_Name (track_Album t);
     ISRC := ids_ISRC (track_ExternalIDs t);
     ExternalID := track_ID t |}.

Section Search.
Context {W : Type}.

Variable client : nethttp.Client W.

(** [url.QueryEscape], and [json.Unmarshal] into a [searchResponse] and
    into a [tracksResponse]: the value decoded and the error. *)
Variable QueryEscape : string → string.
Variable Unmarshal_searchResponse : string → searchResponse * ports.error.
Variable Unmarshal_tracksResponse : string → tracksResponse * ports.error.

Definition doGet (ctx : ports.Context) (token endpoint : string)
                 (h : nethttp.Http W)
  : (string * ports.error) * nethttp.Http W :=
  let req := {| nethttp.Method := "GET"; nethttp.URL := endpoint;
                nethttp.Authorization := "Bearer " +:+ token;
                nethttp.ContentType := ""; nethttp.Body := "" |} in
  let '(r, h') := nethttp.send client ctx req h in
  match r with
  | inr err => (("", Some err), h')
  | inl resp =>
      if (nethttp.StatusCode resp =? 200)%Z
      then ((nethttp.ResponseBody resp, None), h')
      else (("", Some ("spotify API returned status "
                       +:+ pretty (nethttp.StatusCode resp) +:+ ": "
                       +:+ nethttp.ResponseBody resp)), h')
  end.

Definition searchByISRC (ctx : ports.Context) (token : string) (track : Track)
                        (h : nethttp.Http W)
  : (option Track * float64 * ports.error) * nethttp.Http W :=
  let query := "isrc:" +:+ ISRC track in
  let endpoint :=
    baseURL +:+ "/search?type=track&limit=1&q=" +:+ QueryEscape query in
  let '((body, err), h') := doGet ctx token endpoint h in
  match err with
  | Some e => ((None, f64.zero, Some e), h')
  | None =>
      let '(resp, err) := Unmarshal_searchResponse body in
      match err with
      | Some e => ((None, f64.zero, Some e), h')
      | None =>
          match search_Items (search_Tracks resp) with
          | [] => ((None, f64.zero, None), h')
          | first :: _ =>
              let matched := toTrack first in
              ((Some matched, f64.dec 1 1, None), h') (* ISRC match is exact *)
          end
      end
  end.

(** The fallback of [SearchTrack]: the search by name and artist. *)
Definition searchByName (ctx : ports.Context) (token : string) (track : Track)
                        (h : nethttp.Http W)
  : (option Track * float64 * ports.error) * nethttp.Http W :=
  let query := "track:" +:+ Name track +:+ " artist:" +:+ Artist track in
  let endpoint :=
    baseURL +:+ "/search?type=track&limit=5&q=" +:+ QueryEscape query in
  let '((body, err), h') := doGet ctx token endpoint h in
  match err with
  | Some e => ((None, f64.zero, Some ("spotify: search failed: " +:+ e)), h')
  | None =>
      let '(resp, err) := Unmarshal_searchResponse body in
      match err with
      | Some e =>
          ((None, f64.zero,
            Some ("spotify: failed to parse search response: " +:+ e)), h')
      | None =>
          match search_Items (search_Tracks resp) with
          | [] => ((None, f64.zero, None), h')
          | best :: _ =>
              let matched := toTrack best in
              let score := calculateConfidence track matched in
              ((Some matched, score, None), h')
          end
      end
  end.

Definition SearchTrack (ctx : ports.Context) (token : string) (track : Track)
                       (h : nethttp.Http W)
  : (option Track * float64 * ports.error) * nethttp.Http W :=
  (* Try ISRC-based search first for higher accuracy *)
  if nonEmpty (ISRC track)
  then
    let '((result, score, err), h') := searchByISRC ctx token track h in
    match err, result with
    | None, Some _ => ((result, score, None), h')
    | _, _ => searchByName ctx token track h'
    end
  else searchByName ctx token track h.

(** The loop [for _, item := range resp.Items] of [GetPlaylistTracks]. *)
Fixpoint appendTracks (tracks : list Track) (items : list trackItem)
  : list Track :=
  match items with
  | [] => tracks
  | item :: rest =>
      if String.eqb (track_ID (item_Track item)) ""
      then appendTracks tracks rest   (* skip local or unavailable tracks *)
      else appendTracks (tracks ++ [toTrack (item_Track item)]) rest
  end.

(** The loop [for endpoint != ""] of [GetPlaylistTracks]; the pages it
    follows are the server's, so it is given fuel: [None] when [fuel]
    requests have not brought the last page. *)
Fixpoint getPlaylistTracksFrom (fuel : nat) (ctx : ports.Context)
    (token endpoint : string) (tracks : list Track) (h : nethttp.Http W)
  : option ((list Track * ports.error) * nethttp.Http W) :=
  if String.eqb endpoint "" then Some ((tracks, None), h)
  else
    match fuel with
    | O => None
    | S fuel' =>
        let '((body, err), h') := doGet ctx token endpoint h in
        match err with
        | Some e =>
            Some (([], Some ("spotify: failed to get playlist tracks: " +:+ e)),
                  h')
        | None =>
            let '(resp, err) := Unmarshal_tracksResponse body in
            match err with
            | Some e =>
                Some (([], Some ("spotify: failed to parse tracks response: "
                                 +:+ e)), h')
            | None =>
                getPlaylistTracksFrom fuel' ctx token (tracks_Next resp)
                  (appendTracks tracks (tracks_Items resp)) h'
            end
        end
    end.

Definition GetPlaylistTracks (fuel : nat) (ctx : ports.Context)
    (token playlistID : string) (h : nethttp.Http W)
  : option ((list Track * ports.error) * nethttp.Http W) :=
  let endpoint :=
    baseURL +:+ "/playlists/" +:+ playlistID +:+ "/tracks?limit="
      +:+ pretty maxPerPage in
  getPlaylistTracksFrom fuel ctx token endpoint [] h.

End Search.

End spotify.

(* ================================================================== *)
(** ** internal/adapters/youtube: the title-only scorer *)

Module youtube.
Import domain.

(** The loop [for _, word := range sourceWords] counting the words longer
    than two bytes that occur in the title. *)
Fixpoint countMatches (matchedTitle : string) (sourceWords : list string)
                      (matchCount : nat) : nat :=
  match sourceWords with
  | [] => matchCount
  | word :: rest =>
      countMatches matchedTitle rest
        (if (2 <? String.length word)%nat && strings.Contains matchedTitle word
         then S matchCount else matchCount)
  end.

Definition calculateConfidence (source matched : Track) : float64 :=
  let score := f64.zero in
  let sourceName := strings.ToLower (Name source) in
  let matchedTitle := strings.ToLower (Name matched) in
  (* Check if the track name appears in the YouTube title *)
  let score :=
    if strings.Contains matchedTitle sourceName
    then f64.add score (f64.dec 5 10)
    else
      (* Check individual words overlap *)
      let sourceWords := strings.Fields sourceName in
      let matchCount := countMatches matchedTitle sourceWords 0 in
      if (0 <? length sourceWords)%nat
      then f64.add score
             (f64.div (f64.mul (f64.dec 5 10) (f64.of_int (Z.of_nat matchCount)))
                      (f64.of_int (Z.of_nat (length sourceWords))))
      else score in
  (* Check if the artist appears in the title or channel *)
  let sourceArtist := strings.ToLower (Artist source) in
  let matchedArtist := strings.ToLower (Artist matched) in
  let score :=
    if strings.Contains matchedArtist sourceArtist
       || strings.Contains matchedTitle sourceArtist
    then f64.add score (f64.dec 4 10)
    else score in
  (* Bonus for exact title match *)
  let score :=
    if String.eqb sourceName matchedTitle
    then f64.add score (f64.dec 1 10)
    else score in
  if f64.gtb score (f64.dec 1 1) then f64.dec 1 1 else score.

(** *** The adapter's calls of the Data API *)

Definition baseURL : string := "https://www.googleapis.com/youtube/v3".
Definition maxResults : Z := 50.

Record resourceID := { resource_VideoID : string }.          (* [VideoID] *)

Record playlistItemSnippet := {
  item_Title : string;
  item_VideoOwnerChannelTitle : string;
  item_ResourceID : resourceID;
}.

Record playlistItemResource := { item_Snippet : playlistItemSnippet }.

Record playlistItemsResponse := {
  items_Items : list playlistItemResource;
  items_NextPageToken : string;
}.

Record searchResultID := { result_VideoID : string }.         (* [VideoID] *)

Record searchSnippet := {
  result_Title : string;
  result_ChannelTitle : string;
}.

Record searchResult := {
  result_ID : searchResultID;
  result_Snippet : searchSnippet;
}.

Record searchListResponse := { search_Items : list searchResult }.

(** [parseVideoTitle] attempts to split a YouTube video title into track
    name and artist. *)
Definition suffixes : list string :=
  ["(Official Video)"; "(Official Music Video)"; "(Official Audio)";
   "(Lyric Video)"; "(Lyrics)"; "(Audio)"; "[Official Video]";
   "[Official Music Video]"; "[Official Audio]"; "(HD)"; "(HQ)"].

(** The loop [for _, suffix := range suffixes]. *)
Definition cleanTitle (title : string) : string :=
  foldl (λ cleaned suffix,
           strings.TrimSpace (strings.Replace cleaned suffix "" 1))
        title suffixes.

Definition parseVideoTitle (title : string) : string * string :=
  let cleaned := cleanTitle title in
  (* Split on " - " separator *)
  let parts := strings.SplitN cleaned " - " 2 in
  match parts with
  | [part0; part1] => (strings.TrimSpace part1, strings.TrimSpace part0)
  | _ => (cleaned, "")
  end.

(** The loop [for _, item := range resp.Items] of [GetPlaylistTracks]. *)
Fixpoint appendTracks (tracks : list Track) (items : list playlistItemResource)
  : list Track :=
  match items with
  | [] => tracks
  | item :: rest =>
      let snippet := item_Snippet item in
      if String.eqb (resource_VideoID (item_ResourceID snippet)) ""
      then appendTracks tracks rest
      else
        let '(name, artist) := parseVideoTitle (item_Title snippet) in
        let name := if String.eqb name "" then item_Title snippet else name in
        let artist := if String.eqb artist ""
                      then item_VideoOwnerChannelTitle snippet else artist in
        appendTracks
          (tracks ++ [{| Name := name; Artist := artist; Album := "";
                         ISRC := "";
                         ExternalID := resource_VideoID (item_ResourceID snippet) |}])
          rest
  end.

Section Provider.
Context {W : Type}.

Variable client : nethttp.Client W.

(** [url.QueryEscape], [json.Marshal], and [json.Unmarshal] into the three
    response types: the value decoded and the error. *)
Variable QueryEscape : string → string.
Variable Marshal : json.Value → string.
Variable Unmarshal_searchListResponse :
  string → searchListResponse * ports.error.
Variable Unmarshal_playlistItemsResponse :
  string → playlistItemsResponse * ports.error.
Variable Unmarshal_ID : string → string * ports.error.

Definition doGet (ctx : ports.Context) (token endpoint : string)
                 (h : nethttp.Http W)
  : (string * ports.error) * nethttp.Http W :=
  let req := {| nethttp.Method := "GET"; nethttp.URL := endpoint;
                nethttp.Authorization := "Bearer " +:+ token;
                nethttp.ContentType := ""; nethttp.Body := "" |} in
  let '(r, h') := nethttp.send client ctx req h in
  match r with
  | inr err => (("", Some err), h')
  | inl resp =>
      if (nethttp.StatusCode resp =? 200)%Z
      then ((nethttp.ResponseBody resp, None), h')
      else (("", Some ("youtube API returned status "
                       +:+ pretty (nethttp.StatusCode resp) +:+ ": "
                       +:+ nethttp.ResponseBody resp)), h')
  end.

Definition doPost (ctx : ports.Context) (token endpoint payload : string)
                  (h : nethttp.Http W)
  : (string * ports.error) * nethttp.Http W :=
  let req := {| nethttp.Method := "POST"; nethttp.URL := endpoint;
                nethttp.Authorization := "Bearer " +:+ token;
                nethttp.ContentType := "application/json";
                nethttp.Body := payload |} in
  let '(r, h') := nethttp.send client ctx req h in
  match r with
  | inr err => (("", Some err), h')
  | inl resp =>
      if (nethttp.StatusCode resp <? 200)%Z || (300 <=? nethttp.StatusCode resp)%Z
      then (("", Some ("youtube API returned status "
                       +:+ pretty (nethttp.StatusCode resp) +:+ ": "
                       +:+ nethttp.ResponseBody resp)), h')
      else ((nethttp.ResponseBody resp, None), h')
  end.

(** The loop [for] of [GetPlaylistTracks], from the page [pageToken] on;
    the pages it follows are the server's, so it is given fuel: [None] when
    [fuel] requests have not brought the last page. *)
Fixpoint getPlaylistTracksFrom (fuel : nat) (ctx : ports.Context)
    (token playlistID pageToken : string) (tracks : list Track)
    (h : nethttp.Http W)
  : option ((list Track * ports.error) * nethttp.Http W) :=
  match fuel with
  | O => None
  | S fuel' =>
      let endpoint :=
        baseURL +:+ "/playlistItems?part=snippet&playlistId=" +:+ playlistID
          +:+ "&maxResults=" +:+ pretty maxResults in
      let endpoint :=
        if negb (String.eqb pageToken "")
        then endpoint +:+ "&pageToken=" +:+ pageToken else endpoint in
      let '((body, err), h') := doGet ctx token endpoint h in
      match err with
      | Some e =>
          Some (([], Some ("youtube: failed to get playlist items: " +:+ e)), h')
      | None =>
          let '(resp, err) := Unmarshal_playlistItemsResponse body in
          match err with
          | Some e =>
              Some (([], Some ("youtube: failed to parse playlist items response: "
                               +:+ e)), h')
          | None =>
              let tracks := appendTracks tracks (items_Items resp) in
              if String.eqb (items_NextPageToken resp) ""
              then Some ((tracks, None), h')
              else getPlaylistTracksFrom fuel' ctx token playlistID
                     (items_NextPageToken resp) tracks h'
          end
      end
  end.

Definition GetPlaylistTracks (fuel : nat) (ctx : ports.Context)
    (token playlistID : string) (h : nethttp.Http W)
  : option ((list Track * ports.error) * nethttp.Http W) :=
  getPlaylistTracksFrom fuel ctx token playlistID "" [] h.

Definition SearchTrack (ctx : ports.Context) (token : string) (track : Track)
                       (h : nethttp.Http W)
  : (option Track * float64 * ports.error) * nethttp.Http W :=
  let query := Name track +:+ " " +:+ Artist track in
  let endpoint :=
    baseURL
      +:+ "/search?part=snippet&type=video&videoCategoryId=10&maxResults=5&q="
      +:+ QueryEscape query in
  let '((body, err), h') := doGet ctx token endpoint h in
  match err with
  | Some e => ((None, f64.zero, Some ("youtube: search failed: " +:+ e)), h')
  | None =>
      let '(resp, err) := Unmarshal_searchListResponse body in
      match err with
      | Some e =>
          ((None, f64.zero,
            Some ("youtube: failed to parse search response: " +:+ e)), h')
      | None =>
          match search_Items resp with
          | [] => ((None, f64.zero, None), h')
          | best :: _ =>
              (* Pick the best result based on title similarity *)
              let matched :=
                {| Name := result_Title (result_Snippet best);
                   Artist := result_ChannelTitle (result_Snippet best);
                   Album := ""; ISRC := "";
                   ExternalID := result_VideoID (result_ID best) |} in
              let score := calculateConfidence track matched in
              ((Some matched, score, None), h')
          end
      end
  end.

Definition CreatePlaylist (ctx : ports.Context)
    (token name description : string) (h : nethttp.Http W)
  : (string * ports.error) * nethttp.Http W :=
  let payload :=
    json.JObject
      [("snippet", json.JObject [("description", json.JString description);
                                 ("title", json.JString name)]);
       ("status", json.JObject [("privacyStatus", json.JString "private")])] in
  let payloadBytes := Marshal payload in
  let endpoint := baseURL +:+ "/playlists?part=snippet,status" in
  let '((body, err), h') := doPost ctx token endpoint payloadBytes h in
  match err with
  | Some e => (("", Some ("youtube: failed to create playlist: " +:+ e)), h')
  | None =>
      let '(id, err) := Unmarshal_ID body in
      match err with
      | Some e =>
          (("", Some ("youtube: failed to parse create playlist response: "
                      +:+ e)), h')
      | None => ((id, None), h')
      end
  end.

(** YouTube requires adding one video at a time via playlistItems.insert *)
Fixpoint AddTracksToPlaylist (ctx : ports.Context) (token playlistID : string)
    (trackIDs : list string) (h : nethttp.Http W)
  : ports.error * nethttp.Http W :=
  match trackIDs with
  | [] => (None, h)
  | videoID :: rest =>
      let payload :=
        json.JObject
          [("snippet",
            json.JObject
              [("playlistId", json.JString playlistID);
               ("resourceId",
                json.JObject [("kind", json.JString "youtube#video");
                              ("videoId", json.JString videoID)])])] in
      let payloadBytes := Marshal payload in
      let endpoint := baseURL +:+ "/playlistItems?part=snippet" in
      let '((_, err), h') := doPost ctx token endpoint payloadBytes h in
      match err with
      | Some e =>
          (Some ("youtube: failed to add video " +:+ videoID
                 +:+ " to playlist: " +:+ e), h')
      | None => AddTracksToPlaylist ctx token playlistID rest h'
      end
  end.

End Provider.

End youtube.

(* ================================================================== *)
(** ** internal/adapters: the provider registry

    The [sync.RWMutex] makes every method atomic; a registry is the map it
    guards. *)

Module adapters.

Section Registry.
Context {W : Type}.

Record ProviderRegistry := {
  providers : gmap string (ports.MusicProvider W);
}.

Definition NewProviderRegistry : ProviderRegistry :=
  {| providers := ∅ |}.

Definition Register (r : ProviderRegistry) (provider : ports.MusicProvider W)
  : ProviderRegistry :=
  {| providers := <[ports.Name provider := provider]> (providers r) |}.

Definition Get (r : ProviderRegistry) (name : string)
  : option (ports.MusicProvider W) * ports.error :=
  match providers r !! name with
  | None => (None, Some ("unknown provider: " +:+ name))
  | Some provider => (Some provider, None)
  end.

(** The names of the registered providers; Go returns them in the
    unspecified iteration order of the map. *)
Definition Available (r : ProviderRegistry) : gset string :=
  dom (providers r).

End Registry.
Arguments ProviderRegistry : clear implicits.

End adapters.

(* ================================================================== *)
(** ** internal/app: the migration service *)

Module app.
Import domain.

(** A provider method invoked by the service, with the name of the
    provider it was invoked on. *)
Inductive Call :=
| CallGetPlaylistTracks (provider token playlistID : string)
| CallSearchTrack (provider token : string) (track : Track)
| CallCreatePlaylist (provider token name description : string)
| CallAddTracksToPlaylist (provider token playlistID : string)
                          (trackIDs : list string).

(** The outside world, and the provider calls made so far (kept for the
    proofs). *)
Record State (W : Type) := {
  world : W;
  calls : list Call;
}.
Arguments world {W}.
Arguments calls {W}.

Record Service (W : Type) := {
  registry : adapters.ProviderRegistry W;
  workers : Z;
}.
Arguments registry {W}.
Arguments workers {W}.

Definition NewService {W} (registry : adapters.ProviderRegistry W) (workers : Z)
  : Service W :=
  {| registry := registry;
     workers := if (workers <? 1)%Z then 1%Z else workers |}.

Section Calls.
Context {W : Type}.

Definition callGetPlaylistTracks (p : ports.MusicProvider W)
    (ctx : ports.Context) (token playlistID : string) (st : State W) :=
  let '(ret, w) := ports.GetPlaylistTracks p ctx token playlistID (world st) in
  (ret, {| world := w;
           calls := calls st ++
             [CallGetPlaylistTracks (ports.Name p) token playlistID] |}).

Definition callSearchTrack (p : ports.MusicProvider W)
    (ctx : ports.Context) (token : string) (track : Track) (st : State W) :=
  let '(ret, w) := ports.SearchTrack p ctx token track (world st) in
  (ret, {| world := w;
           calls := calls st ++ [CallSearchTrack (ports.Name p) token track] |}).

Definition callCreatePlaylist (p : ports.MusicProvider W)
    (ctx : ports.Context) (token name description : string) (st : State W) :=
  let '(ret, w) := ports.CreatePlaylist p ctx token name description (world st) in
  (ret, {| world := w;
           calls := calls st ++
             [CallCreatePlaylist (ports.Name p) token name description] |}).

Definition callAddTracksToPlaylist (p : ports.MusicProvider W)
    (ctx : ports.Context) (token playlistID : string)
    (trackIDs : list string) (st : State W) :=
  let '(ret, w) :=
    ports.AddTracksToPlaylist p ctx token playlistID trackIDs (world st) in
  (ret, {| world := w;
           calls := calls st ++
             [CallAddTracksToPlaylist (ports.Name p) token playlistID trackIDs] |}).

End Calls.

(** *** searchTracksParallel: the worker pool

    The goroutines of one call, each advancing by atomic steps:
    - the caller ([LMain]): the send loop over [tracks], [close(trackCh)]
      with the launch of the closing goroutine, the collecting loop over
      [resultCh], and the return;
    - worker [k] ([LWorker k]): receive from [trackCh], the [select] on
      [ctx.Done()], the call of [SearchTrack], send on [resultCh];
    - the closing goroutine ([LCloser]): [wg.Wait()] then [close(resultCh)];
    - cancellation of [ctx] by its owner ([LCancel]).
    A schedule is the list of the goroutines in the order they are given
    a step.  Workers are present from the start: one not yet launched is
    one that has not been given a step.

    [SearchTrack] is handed [ctx] itself, so it sees a cancellation that
    comes after the worker's [select]: the call is a step of its own, and
    is made on the context as it stands at that step.  A cancellation that
    arrives while a search is in flight and that the search notices is a
    [LCancel] between the [select] and the call. *)

Definition item : Type := nat * Track.             (* {index, track} *)
Definition indexedResult : Type := nat * TrackResult.
Definition SearchReturn : Type := option Track * float64 * ports.error.

Inductive Worker :=
| WRecv                          (* at [for item := range trackCh] *)
| WSelect (it : item)            (* holds an item, at the [select] *)
| WSearch (it : item)            (* past the [select], at [dest.SearchTrack] *)
| WSend (ir : indexedResult)     (* at [resultCh <- ...] *)
| WExit.                         (* loop left, [wg.Done()] ran *)

Inductive Main :=
| MSend (i : nat)                (* in the send loop, at index [i] *)
| MCollect                       (* at [for ir := range resultCh] *)
| MReturn.                       (* [return results] *)

Inductive Label :=
| LMain
| LWorker (k : nat)
| LCloser
| LCancel.

Record Config (W : Type) := {
  st : State W;
  ctxDone : bool;
  mainPC : Main;
  trackCh : list item;
  trackClosed : bool;
  pool : list Worker;
  resultCh : list indexedResult;
  resultClosed : bool;
  results : list TrackResult;
  panicked : bool;
  (* kept for the proofs: what [SearchTrack] returned for which index, and
     the indices the collector has written *)
  searches : list (nat * SearchReturn);
  collected : list nat;
}.
Arguments st {W}.
Arguments ctxDone {W}.
Arguments mainPC {W}.
Arguments trackCh {W}.
Arguments trackClosed {W}.
Arguments pool {W}.
Arguments resultCh {W}.
Arguments resultClosed {W}.
Arguments results {W}.
Arguments panicked {W}.
Arguments searches {W}.
Arguments collected {W}.

Section Pipeline.
Context {W : Type}.
Variable dest : ports.MusicProvider W.
Variable token : string.
Variable tracks : list Track.
Variable nworkers : nat.

Local Abbreviation Config := (Config W).

Definition set_st (x : State W) (c : Config) : Config :=
  {| st := x; ctxDone := ctxDone c; mainPC := mainPC c; trackCh := trackCh c;
     trackClosed := trackClosed c; pool := pool c; resultCh := resultCh c;
     resultClosed := resultClosed c; results := results c;
     panicked := panicked c; searches := searches c;
     collected := collected c |}.
Definition set_ctxDone (x : bool) (c : Config) : Config :=
  {| st := st c; ctxDone := x; mainPC := mainPC c; trackCh := trackCh c;
     trackClosed := trackClosed c; pool := pool c; resultCh := resultCh c;
     resultClosed := resultClosed c; results := results c;
     panicked := panicked c; searches := searches c;
     collected := collected c |}.
Definition set_mainPC (x : Main) (c : Config) : Config :=
  {| st := st c; ctxDone := ctxDone c; mainPC := x; trackCh := trackCh c;
     trackClosed := trackClosed c; pool := pool c; resultCh := resultCh c;
     resultClosed := resultClosed c; results := results c;
     panicked := panicked c; searches := searches c;
     collected := collected c |}.
Definition set_trackCh (x : list item) (c : Config) : Config :=
  {| st := st c; ctxDone := ctxDone c; mainPC := mainPC c; trackCh := x;
     trackClosed := trackClosed c; pool := pool c; resultCh := resultCh c;
     resultClosed := resultClosed c; results := results c;
     panicked := panicked c; searches := searches c;
     collected := collected c |}.
Definition set_trackClosed (x : bool) (c : Config) : Config :=
  {| st := st c; ctxDone := ctxDone c; mainPC := mainPC c; trackCh := trackCh c;
     trackClosed := x; pool := pool c; resultCh := resultCh c;
     resultClosed := resultClosed c; results := results c;
     panicked := panicked c; searches := searches c;
     collected := collected c |}.
Definition set_pool (x : list Worker) (c : Config) : Config :=
  {| st := st c; ctxDone := ctxDone c; mainPC := mainPC c; trackCh := trackCh c;
     trackClosed := trackClosed c; pool := x; resultCh := resultCh c;
     resultClosed := resultClosed c; results := results c;
     panicked := panicked c; searches := searches c;
     collected := collected c |}.
Definition set_resultCh (x : list indexedResult) (c : Config) : Config :=
  {| st := st c; ctxDone := ctxDone c; mainPC := mainPC c; trackCh := trackCh c;
     trackClosed := trackClosed c; pool := pool c; resultCh := x;
     resultClosed := resultClosed c; results := results c;
     panicked := panicked c; searches := searches c;
     collected := collected c |}.
Definition set_resultClosed (x : bool) (c : Config) : Config :=
  {| st := st c; ctxDone := ctxDone c; mainPC := mainPC c; trackCh := trackCh c;
     trackClosed := trackClosed c; pool := pool c; resultCh := resultCh c;
     resultClosed := x; results := results c;
     panicked := panicked c; searches := searches c;
     collected := collected c |}.
Definition set_results (x : list TrackResult) (c : Config) : Config :=
  {| st := st c; ctxDone := ctxDone c; mainPC := mainPC c; trackCh := trackCh c;
     trackClosed := trackClosed c; pool := pool c; resultCh := resultCh c;
     resultClosed := resultClosed c; results := x;
     panicked := panicked c; searches := searches c;
     collected := collected c |}.
Definition set_panicked (x : bool) (c : Config) : Config :=
  {| st := st c; ctxDone := ctxDone c; mainPC := mainPC c; trackCh := trackCh c;
     trackClosed := trackClosed c; pool := pool c; resultCh := resultCh c;
     resultClosed := resultClosed c; results := results c;
     panicked := x; searches := searches c;
     collected := collected c |}.
Definition set_searches (x : list (nat * SearchReturn)) (c : Config) : Config :=
  {| st := st c; ctxDone := ctxDone c; mainPC := mainPC c; trackCh := trackCh c;
     trackClosed := trackClosed c; pool := pool c; resultCh := resultCh c;
     resultClosed := resultClosed c; results := results c;
     panicked := panicked c; searches := x;
     collected := collected c |}.
Definition set_collected (x : list nat) (c : Config) : Config :=
  {| st := st c; ctxDone := ctxDone c; mainPC := mainPC c; trackCh := trackCh c;
     trackClosed := trackClosed c; pool := pool c; resultCh := resultCh c;
     resultClosed := resultClosed c; results := results c;
     panicked := panicked c; searches := searches c;
     collected := x |}.

(** Both channels are made with capacity [len(tracks)]. *)
Definition capacity : nat := length tracks.

(** The result a worker records when it finds [ctx] cancelled. *)
Definition cancelledResult (track : Track) : TrackResult :=
  {| SourceTrack := track; MatchedTrack := None; Status := TrackStatusError;
     ConfidenceScore := f64.zero; Error := "context cancelled" |}.

(** The result a worker builds from what [SearchTrack] returned. *)
Definition searchResult (track : Track) (ret : SearchReturn) : TrackResult :=
  let '(matched, score, err) := ret in
  match err, matched with
  | Some e, _ =>
      {| SourceTrack := track; MatchedTrack := None;
         Status := TrackStatusError; ConfidenceScore := f64.zero; Error := e |}
  | None, None =>
      {| SourceTrack := track; MatchedTrack := None;
         Status := TrackStatusNotFound; ConfidenceScore := f64.zero;
         Error := "" |}
  | None, Some m =>
      {| SourceTrack := track; MatchedTrack := Some m;
         Status := TrackStatusMatched; ConfidenceScore := score; Error := "" |}
  end.

Definition init (ctx : ports.Context) (s : State W) : Config :=
  {| st := s; ctxDone := ctx; mainPC := MSend 0; trackCh := [];
     trackClosed := false; pool := replicate nworkers WRecv;
     resultCh := []; resultClosed := false;
     results := replicate (length tracks) zeroTrackResult;
     panicked := false; searches := []; collected := [] |}.

Definition stepMain (c : Config) : option Config :=
  match mainPC c with
  | MSend i =>
      match tracks !! i with
      | Some track =>
          (* trackCh <- {index: i, track: track} *)
          if trackClosed c then Some (set_panicked true c)
          else if decide (length (trackCh c) < capacity)
          then Some (set_mainPC (MSend (S i))
                       (set_trackCh (trackCh c ++ [(i, track)]) c))
          else None
      | None =>
          (* close(trackCh); go func() { wg.Wait(); close(resultCh) }() *)
          if trackClosed c then Some (set_panicked true c)
          else Some (set_mainPC MCollect (set_trackClosed true c))
      end
  | MCollect =>
      match resultCh c with
      | (index, result) :: rest =>
          (* results[ir.index] = ir.result *)
          if decide (index < length (results c))
          then Some (set_collected (index :: collected c)
                       (set_results (<[index := result]> (results c))
                          (set_resultCh rest c)))
          else Some (set_panicked true c)
      | [] => if resultClosed c then Some (set_mainPC MReturn c) else None
      end
  | MReturn => None
  end.

Definition stepWorker (k : nat) (c : Config) : option Config :=
  match pool c !! k with
  | Some WRecv =>
      match trackCh c with
      | it :: rest =>
          Some (set_pool (<[k := WSelect it]> (pool c)) (set_trackCh rest c))
      | [] =>
          if trackClosed c then Some (set_pool (<[k := WExit]> (pool c)) c)
          else None
      end
  | Some (WSelect (index, track)) =>
      if ctxDone c
      then Some (set_pool
                   (<[k := WSend (index, cancelledResult track)]> (pool c)) c)
      else Some (set_pool (<[k := WSearch (index, track)]> (pool c)) c)
  | Some (WSearch (index, track)) =>
      let '(ret, s) := callSearchTrack dest (ctxDone c) token track (st c) in
      Some (set_pool (<[k := WSend (index, searchResult track ret)]> (pool c))
              (set_searches (searches c ++ [(index, ret)]) (set_st s c)))
  | Some (WSend ir) =>
      if resultClosed c then Some (set_panicked true c)
      else if decide (length (resultCh c) < capacity)
      then Some (set_pool (<[k := WRecv]> (pool c))
                   (set_resultCh (resultCh c ++ [ir]) c))
      else None
  | Some WExit | None => None
  end.

Definition exited (w : Worker) : bool :=
  match w with WExit => true | _ => false end.

Definition stepCloser (c : Config) : option Config :=
  match mainPC c with
  | MSend _ => None                   (* not launched yet *)
  | _ =>
      if forallb exited (pool c)      (* wg.Wait() returns *)
      then if resultClosed c then None
           else Some (set_resultClosed true c)
      else None
  end.

Definition stepCancel (c : Config) : option Config :=
  if ctxDone c then None else Some (set_ctxDone true c).

(** The step of the goroutine [l], when it can take one. *)
Definition step (l : Label) (c : Config) : option Config :=
  if panicked c then None
  else match l with
       | LMain => stepMain c
       | LWorker k => stepWorker k c
       | LCloser => stepCloser c
       | LCancel => stepCancel c
       end.

(** Following a schedule; a goroutine that cannot move when named is
    passed over. *)
Fixpoint exec (sched : list Label) (c : Config) : Config :=
  match sched with
  | [] => c
  | l :: sched' => exec sched' (default c (step l c))
  end.

(** When the schedule is used up the goroutines run on, the first that
    can move moving first.  (Cancellation is the caller's, and only
    happens where the schedule says.) *)
Definition goroutines : list Label :=
  LMain :: LCloser :: (LWorker <$> seq 0 nworkers).

Fixpoint firstStep (ls : list Label) (c : Config) : option Config :=
  match ls with
  | [] => None
  | l :: ls' =>
      match step l c with
      | Some c' => Some c'
      | None => firstStep ls' c
      end
  end.

Fixpoint drain (fuel : nat) (c : Config) : Config :=
  match fuel with
  | 0 => c
  | S fuel' =>
      match firstStep goroutines c with
      | Some c' => drain fuel' c'
      | None => c
      end
  end.

(** An upper bound on the steps left. *)
Definition workerWeight (w : Worker) : nat :=
  match w with
  | WRecv => 1 | WSelect _ => 5 | WSearch _ => 4 | WSend _ => 3 | WExit => 0
  end.

Definition mainWeight (m : Main) : nat :=
  match m with
  | MSend i => 6 * (length tracks - i) + 2
  | MCollect => 1
  | MReturn => 0
  end.

Definition stepsLeft (c : Config) : nat :=
  mainWeight (mainPC c)
  + 5 * length (trackCh c)
  + sum_list (workerWeight <$> pool c)
  + length (resultCh c)
  + (if resultClosed c then 0 else 1)
  + (if ctxDone c then 0 else 1)
  + (if panicked c then 0 else 1).

(** The goroutines of one call at rest: the schedule followed, then
    every goroutine run for as long as one can move. *)
Definition finalConfig (sched : list Label) (ctx : ports.Context)
                       (s : State W) : Config :=
  let c := exec sched (init ctx s) in
  drain (stepsLeft c) c.

(** [searchTracksParallel] under a schedule: the slice returned, with
    the state the searches left and the state of [ctx] at the return.
    [None] stands for a call that does not return. *)
Definition searchTracksParallel (sched : list Label) (ctx : ports.Context)
                                (s : State W)
  : option (list TrackResult * State W * ports.Context) :=
  let c := finalConfig sched ctx s in
  match mainPC c with
  | MReturn => if panicked c then None else Some (results c, st c, ctxDone c)
  | _ => None
  end.

End Pipeline.

(** *** MigratePlaylist *)

Section Migrate.
Context {W : Type}.

(** The loop over [results] of step 3: the matched identifiers and the
    two counters. *)
Fixpoint tally (results : list TrackResult) (matchedIDs : list string)
               (matched failed : nat) : list string * nat * nat :=
  match results with
  | [] => (matchedIDs, matched, failed)
  | r :: rest =>
      match Status r, MatchedTrack r with
      | TrackStatusMatched, Some m =>
          tally rest (matchedIDs ++ [ExternalID m]) (S matched) failed
      | _, _ => tally rest matchedIDs matched (S failed)
      end
  end.

Definition Outcome : Type := option MigrationResult * ports.error.

(** [None] stands for a call that does not return (a nil provider, a
    search phase that does not return). *)
Definition MigratePlaylist (s : Service W) (sched : list Label)
    (ctx : ports.Context) (req : MigrationRequest) (st0 : State W)
  : option (Outcome * State W) :=
  let '(source, err) := adapters.Get (registry s) (SourceProvider req) in
  match err with
  | Some e => Some ((None, Some ("source provider error: " +:+ e)), st0)
  | None =>
  let '(dest, err) := adapters.Get (registry s) (DestProvider req) in
  match err with
  | Some e => Some ((None, Some ("destination provider error: " +:+ e)), st0)
  | None =>
  match source, dest with
  | Some source, Some dest =>
    (* Step 1: Fetch tracks from source playlist *)
    let '((tracks, err), st1) :=
      callGetPlaylistTracks source ctx (SourceToken req) (PlaylistID req) st0 in
    match err with
    | Some e => Some ((None, Some ("failed to fetch source tracks: " +:+ e)), st1)
    | None =>
    if decide (length tracks = 0)
    then Some ((None, Some "source playlist is empty"), st1)
    else
    (* Step 2: Search for each track on destination using worker pool *)
    match searchTracksParallel dest (DestToken req) tracks
            (Z.to_nat (workers s)) sched ctx st1 with
    | None => None
    | Some (results, st2, ctx) =>
    (* Step 3: Collect matched track IDs for batch insertion *)
    let '(matchedIDs, matched, failed) := tally results [] 0 0 in
    (* Step 4: Create destination playlist *)
    let playlistName := "Migrated from " +:+ SourceProvider req in
    let '((destPlaylistID, err), st3) :=
      callCreatePlaylist dest ctx (DestToken req) playlistName
        ("Migrated " +:+ pretty matched +:+ "/" +:+ pretty (length tracks)
           +:+ " tracks") st2 in
    match err with
    | Some e =>
        Some ((None, Some ("failed to create destination playlist: " +:+ e)), st3)
    | None =>
    (* Step 5: Add matched tracks to the destination playlist *)
    let '(err, st4) :=
      if decide (0 < length matchedIDs)
      then callAddTracksToPlaylist dest ctx (DestToken req) destPlaylistID
             matchedIDs st3
      else (None, st3) in
    match err with
    | Some e =>
        Some ((None,
               Some ("failed to add tracks to destination playlist: " +:+ e)),
              st4)
    | None =>
        Some ((Some {| SourcePlaylist := PlaylistID req;
                       DestPlaylistID := destPlaylistID;
                       TotalTracks := length tracks;
                       MatchedTracks := matched;
                       FailedTracks := failed;
                       TrackResults := results |}, None), st4)
    end end end end
  | _, _ => None
  end end end.

End Migrate.

End app.

(* ================================================================== *)
(** ** internal/adapters/http: the handlers

    Of a [gin.Context] a handler reads the query parameter, the
    Authorization header and the bound request body, and writes one JSON
    reply: these are the arguments and the value of the functions below. *)

Module handler.

Record ErrorResponse := {
  Error : string;
  Message : string;
}.

(** [c.JSON(code, obj)], by the type of [obj]. *)
Inductive Reply :=
| JSONStatus (code : Z) (status : string)           (* gin.H{"status": ...} *)
| JSONError (code : Z) (obj : ErrorResponse)
| JSONPlaylists (code : Z) (obj : list domain.Playlist)
| JSONResult (code : Z) (obj : option domain.MigrationResult).

(** [extractToken] retrieves the Bearer token from the Authorization
    header. *)
Definition extractToken (auth : string) : string :=
  if (7 <? String.length auth)%nat
     && String.eqb (strings.sliceTo 7 auth) "Bearer "
  then strings.sliceFrom 7 auth
  else auth.

Section Handler.
Context {S : Type}.
Variable service : ports.MigrationService S.

Definition Health : Reply := JSONStatus 200 "ok".

(** [provider] is [c.Query("provider")], [auth] is
    [c.GetHeader("Authorization")]. *)
Definition ListPlaylists (ctx : ports.Context) (provider auth : string) (s : S)
  : Reply * S :=
  if String.eqb provider ""
  then (JSONError 400
          {| Error := "bad_request";
             Message := "query parameter 'provider' is required" |}, s)
  else
    let token := extractToken auth in
    if String.eqb token ""
    then (JSONError 401
            {| Error := "unauthorized";
               Message := "Authorization header with Bearer token is required" |},
          s)
    else
      let '((playlists, err), s') :=
        ports.ListPlaylists service ctx provider token s in
      match err with
      | Some e =>
          (JSONError 500 {| Error := "internal_error"; Message := e |}, s')
      | None => (JSONPlaylists 200 playlists, s')
      end.

(** [bound] is what [c.ShouldBindJSON(&req)] gives: the request and the
    error. *)
Definition MigratePlaylist (ctx : ports.Context)
    (bound : domain.MigrationRequest * ports.error) (s : S) : Reply * S :=
  let '(req, err) := bound in
  match err with
  | Some e =>
      (JSONError 400
         {| Error := "bad_request";
            Message := "invalid request body: " +:+ e |}, s)
  | None =>
      let '((result, err), s') := ports.MigratePlaylist service ctx req s in
      match err with
      | Some e =>
          (JSONError 500 {| Error := "migration_failed"; Message := e |}, s')
      | None => (JSONResult 200 result, s')
      end
  end.

End Handler.

End handler.

(* ================================================================== *)
(** * Vocabulary of the specification *)

Local Open Scope nat_scope.
Local Open Scope list_scope.

Import domain app.

(** ** Scores *)

(** Neither NaN nor negative. *)
Definition nonneg (x : float64) : Prop :=
  match x with
  | S754_zero _ => True
  | S754_infinity s | S754_finite s _ _ => s = false
  | S754_nan => False
  end.

(** Finite and greater than zero. *)
Definition posFinite (x : float64) : Prop :=
  match x with S754_finite false _ _ => True | _ => False end.

(** [0.0 <= x <= 1.0] *)
Definition inUnitInterval (x : float64) : Prop :=
  f64.leb f64.zero x = true ∧ f64.leb x (f64.dec 1 1) = true.

(** ** The title-only scorer in the words of the specification *)

(** The tokens of the source name that are longer than two bytes and occur
    in the candidate title. *)
Definition matchedTokens (title : string) (tokens : list string) : list string :=
  filter (λ w, 2 < String.length w ∧ strings.Contains title w = true) tokens.

(** (matched tokens / total tokens) x 0.5, the operations in the order of
    the code. *)
Definition overlapFraction (matched total : nat) : float64 :=
  f64.div (f64.mul (f64.dec 5 10) (f64.of_int (Z.of_nat matched)))
          (f64.of_int (Z.of_nat total)).

(** [if b { score += x }] *)
Definition addIf (b : bool) (x score : float64) : float64 :=
  if b then f64.add score x else score.

(** [if score > 1.0 { score = 1.0 }] *)
Definition clampOne (score : float64) : float64 :=
  if f64.gtb score (f64.dec 1 1) then f64.dec 1 1 else score.

(** The score as claim C7 words it: word overlap for the name, whatever the
    candidate title; +0.4 for the artist; +0.1 for equal names.  [keptOnly]
    chooses what "total tokens" counts: the tokens longer than two bytes, or
    all of them. *)
Definition claimedScore (keptOnly : bool) (source matched : Track) : float64 :=
  let sourceName := strings.ToLower (Name source) in
  let title := strings.ToLower (Name matched) in
  let tokens := strings.Fields sourceName in
  let kept := filter (λ w, 2 < String.length w) tokens in
  let total := if keptOnly then length kept else length tokens in
  let artist := strings.ToLower (Artist source) in
  clampOne
    (addIf (String.eqb sourceName title) (f64.dec 1 10)
       (addIf (strings.Contains (strings.ToLower (Artist matched)) artist
               || strings.Contains title artist) (f64.dec 4 10)
          (addIf (0 <? total)
             (overlapFraction (length (matchedTokens title tokens)) total)
             f64.zero))).

(** The score with the whole-name test first, as C7 is amended. *)
Definition titleOnlyScore (source matched : Track) : float64 :=
  let sourceName := strings.ToLower (Name source) in
  let title := strings.ToLower (Name matched) in
  let tokens := strings.Fields sourceName in
  let artist := strings.ToLower (Artist source) in
  clampOne
    (addIf (String.eqb sourceName title) (f64.dec 1 10)
       (addIf (strings.Contains (strings.ToLower (Artist matched)) artist
               || strings.Contains title artist) (f64.dec 4 10)
          (if strings.Contains title sourceName
           then f64.add f64.zero (f64.dec 5 10)
           else addIf (0 <? length tokens)
                  (overlapFraction (length (matchedTokens title tokens))
                                   (length tokens))
                  f64.zero))).

(** ** Chunks and the requests that carry them *)

(** The consecutive chunks of at most [n] elements of [l]; [fuel] bounds
    their number. *)
Fixpoint chunksFuel {A : Type} (fuel n : nat) (l : list A) : list (list A) :=
  match fuel, l with
  | 0, _ | _, [] => []
  | S fuel', _ => take n l :: chunksFuel fuel' n (drop n l)
  end.

Definition chunks {A : Type} (n : nat) (l : list A) : list (list A) :=
  chunksFuel (length l) n l.

Definition tracksEndpoint (playlistID : string) : string :=
  spotify.baseURL +:+ "/playlists/" +:+ playlistID +:+ "/tracks".

Definition trackURIs (chunk : list string) : list string :=
  (λ id, "spotify:track:" +:+ id) <$> chunk.

Definition chunkRequest (token playlistID : string) (chunk : list string)
  : spotify.PostRequest :=
  {| spotify.post_token := token;
     spotify.post_endpoint := tracksEndpoint playlistID;
     spotify.post_uris := trackURIs chunk |}.

(** One request per chunk, in order, up to the first that fails. *)
Fixpoint postChunks {W : Type}
    (client : ports.Context → spotify.PostRequest → W → ports.error * W)
    (ctx : ports.Context) (token playlistID : string)
    (cs : list (list string)) (h : spotify.Http W) : ports.error * spotify.Http W :=
  match cs with
  | [] => (None, h)
  | c :: cs' =>
      match spotify.doPost client ctx token (tracksEndpoint playlistID)
              (trackURIs c) h with
      | (Some err, h') =>
          (Some ("spotify: failed to add tracks to playlist: " +:+ err), h')
      | (None, h') => postChunks client ctx token playlistID cs' h'
      end
  end.

(** ** Registry states *)

(** The registry after [Register] was called with each of [ps], in order. *)
Definition registryOf {W : Type} (ps : list (ports.MusicProvider W))
  : adapters.ProviderRegistry W :=
  foldl adapters.Register adapters.NewProviderRegistry ps.

(** ** The invariant of the worker pool *)

(** The number of times [i] occurs in [l]. *)
Definition occ (i : nat) (l : list nat) : nat :=
  length (filter (λ j, j = i) l).

(** The index a worker holds before, and after, its search. *)
Definition selecting (w : Worker) : list nat :=
  match w with WSelect (i, _) | WSearch (i, _) => [i] | _ => [] end.

Definition sending (w : Worker) : list nat :=
  match w with WSend (i, _) => [i] | _ => [] end.

(** How many tracks the caller has sent. *)
Definition sent (tracks : list Track) (m : Main) : nat :=
  match m with MSend i => i | _ => length tracks end.

(** A result for index [i] is the one built from what the search for [i]
    returned, or the cancellation result when [i] was never searched. *)
Definition resultFor (tracks : list Track) (log : list (nat * SearchReturn))
                     (i : nat) (r : TrackResult) : Prop :=
  ∃ track, tracks !! i = Some track
    ∧ ((r = cancelledResult track ∧ ∀ ret, (i, ret) ∉ log)
       ∨ ∃ ret, (i, ret) ∈ log ∧ r = searchResult track ret).

Definition workerOK (tracks : list Track) (log : list (nat * SearchReturn))
                    (w : Worker) : Prop :=
  match w with
  | WSelect (i, track) | WSearch (i, track) => tracks !! i = Some track
  | WSend (i, r) => resultFor tracks log i r
  | _ => True
  end.

Record Inv {W : Type} (tracks : list Track) (nworkers : nat) (c : Config W)
  : Prop := {
  inv_panicked : panicked c = false;
  inv_pool : length (pool c) = nworkers;
  inv_results : length (results c) = length tracks;
  inv_main :
    match mainPC c with
    | MSend i => i ≤ length tracks ∧ trackClosed c = false
    | _ => trackClosed c = true
    end;
  (* every index sent is in exactly one place *)
  inv_census : ∀ i,
    occ i (trackCh c).*1 + occ i (pool c ≫= selecting)
    + occ i (pool c ≫= sending) + occ i (resultCh c).*1 + occ i (collected c)
    = if decide (i < sent tracks (mainPC c)) then 1 else 0;
  inv_count :
    length (trackCh c) + length (pool c ≫= selecting)
    + length (pool c ≫= sending) + length (resultCh c) + length (collected c)
    = sent tracks (mainPC c);
  inv_trackCh : Forall (λ it, tracks !! it.1 = Some it.2) (trackCh c);
  inv_workers : Forall (workerOK tracks (searches c)) (pool c);
  inv_resultCh :
    Forall (λ ir, resultFor tracks (searches c) ir.1 ir.2) (resultCh c);
  inv_collected : ∀ i, i ∈ collected c →
    ∃ r, results c !! i = Some r ∧ resultFor tracks (searches c) i r;
  (* a search is logged once, for an index that is past the select *)
  inv_searched : ∀ i ret, (i, ret) ∈ searches c →
    1 ≤ occ i (pool c ≫= sending) + occ i (resultCh c).*1 + occ i (collected c);
  inv_searches : ∀ i r1 r2,
    (i, r1) ∈ searches c → (i, r2) ∈ searches c → r1 = r2;
  (* a worker leaves its loop only when trackCh is closed and drained *)
  inv_exited : ∀ k, pool c !! k = Some WExit →
    trackClosed c = true ∧ trackCh c = [];
  inv_resultClosed : resultClosed c = true →
    Forall (λ w, w = WExit) (pool c) ∧ trackClosed c = true;
  inv_return : mainPC c = MReturn →
    resultClosed c = true ∧ resultCh c = [];
}.

(** Closes a goal [stepsLeft c' < stepsLeft c] once the step is known. *)
Ltac measure_done :=
  intros; simplify_eq/=;
  repeat match goal with
         | H : mainPC _ = _ |- _ => rewrite H
         | H : ctxDone _ = _ |- _ => rewrite H
         | H : resultClosed _ = _ |- _ => rewrite H
         | H : panicked _ = _ |- _ => rewrite H
         | H : trackCh _ = _ |- _ => rewrite H
         | H : resultCh _ = _ |- _ => rewrite H
         end;
  simpl in *; rewrite ?length_app; simpl; lia.

(** A call of a destination-side method. *)
Definition isDestinationCall (c : Call) : bool :=
  match c with
  | CallGetPlaylistTracks _ _ _ => false
  | CallSearchTrack _ _ _ | CallCreatePlaylist _ _ _ _
  | CallAddTracksToPlaylist _ _ _ _ => true
  end.

(** ** Fixtures: the providers of the service tests *)

Definition demoTrack (name artist id : string) : Track :=
  {| Name := name; Artist := artist; Album := ""; ISRC := ""; ExternalID := id |}.

Definition demoTracks : list Track :=
  [demoTrack "Track A" "Artist A" ""; demoTrack "Track B" "Artist B" "";
   demoTrack "Track C" "Artist C" ""].

(** A provider in the manner of the tests' [mockProvider]; its world is its
    [searchCallCount].  "Track A" is found, "Track C" fails with an error,
    anything else is not found. *)
Definition mockProvider (name : string) (tracks : list Track)
    (createErr addErr : ports.error) : ports.MusicProvider nat :=
  {| ports.Name := name;
     ports.GetPlaylistTracks := λ _ _ _ w, ((tracks, None), w);
     ports.SearchTrack := λ _ _ track w,
       (if String.eqb (Name track) "Track A"
        then (Some (demoTrack "Track A" "Artist A" "vid-a"), f64.dec 85 100, None)
        else if String.eqb (Name track) "Track C"
        then (None, f64.zero, Some "search quota exceeded")
        else (None, f64.zero, None), S w);
     ports.CreatePlaylist := λ _ _ _ _ w, (("new-playlist-456", createErr), w);
     ports.AddTracksToPlaylist := λ _ _ _ _ w, (addErr, w) |}.

Definition demoRegistry (tracks : list Track) : adapters.ProviderRegistry nat :=
  adapters.Register
    (adapters.Register adapters.NewProviderRegistry
       (mockProvider "source" tracks None None))
    (mockProvider "dest" [] None None).

Definition demoRequest : MigrationRequest :=
  {| SourceProvider := "source"; SourceToken := "t1"; DestProvider := "dest";
     DestToken := "t2"; PlaylistID := "pl-1" |}.

Definition demoState : State nat := {| world := 0; calls := [] |}.

(** The state after the source tracks were fetched. *)
Definition demoFetched : State nat :=
  {| world := 0; calls := [CallGetPlaylistTracks "source" "t1" "pl-1"] |}.

(** Worker 1 takes the first track and is overtaken by worker 0. *)
Definition demoSchedule : list Label :=
  [LMain; LWorker 1; LMain; LWorker 0; LWorker 0; LWorker 0; LMain; LWorker 1].

(** ** The searches of one call, one after the other *)

(** The loop [for _, i := range order] doing the search of track [i] as a
    worker does it, on a context that is not cancelled: the value returned
    for each index, and the state left. *)
Fixpoint searchSeq {W : Type} (dest : ports.MusicProvider W) (token : string)
    (tracks : list Track) (order : list nat) (s : State W)
  : list (nat * SearchReturn) * State W :=
  match order with
  | [] => ([], s)
  | i :: order' =>
      match tracks !! i with
      | Some track =>
          let '(ret, s') := callSearchTrack dest false token track s in
          let '(log, s'') := searchSeq dest token tracks order' s' in
          ((i, ret) :: log, s'')
      | None => searchSeq dest token tracks order' s
      end
  end.

(** The same loop on the context [ctx].  On a cancelled context it is the
    searches of the workers that were past their [select] when the
    cancellation came. *)
Fixpoint searchSeqOn {W : Type} (dest : ports.MusicProvider W)
    (ctx : ports.Context) (token : string) (tracks : list Track)
    (order : list nat) (s : State W)
  : list (nat * SearchReturn) * State W :=
  match order with
  | [] => ([], s)
  | i :: order' =>
      match tracks !! i with
      | Some track =>
          let '(ret, s') := callSearchTrack dest ctx token track s in
          let '(log, s'') := searchSeqOn dest ctx token tracks order' s' in
          ((i, ret) :: log, s'')
      | None => searchSeqOn dest ctx token tracks order' s
      end
  end.

(** The index a worker holds at its call of [SearchTrack]. *)
Definition searching (w : Worker) : list nat :=
  match w with WSearch (i, _) => [i] | _ => [] end.

(** The [SearchTrack] calls for the tracks at [order]. *)
Definition searchCalls (provider token : string) (tracks : list Track)
    (order : list nat) : list Call :=
  omap (λ i, CallSearchTrack provider token <$> tracks !! i) order.

(** The result at index [i], given the values the searches returned: a
    track that was not searched is one whose worker found the context
    cancelled. *)
Definition resultOf (log : list (nat * SearchReturn)) (i : nat) (track : Track)
  : TrackResult :=
  match (list_to_map log : gmap nat SearchReturn) !! i with
  | Some ret => searchResult track ret
  | None => cancelledResult track
  end.

(** The indices whose result is made - searched, or found cancelled at the
    [select]: with a worker about to send, in [resultCh], or collected. *)
Definition past {W : Type} (c : Config W) (i : nat) : nat :=
  occ i (pool c ≫= sending) + occ i (resultCh c).*1 + occ i (collected c).

(** The searches made so far are those of a sequential run from [s0]:
    first the searches [before] the cancellation, then those [after] it,
    which are at most one for each worker that was at its call when the
    cancellation came.  Each index is searched at most once, and - while
    the context is not cancelled - every index past the call has been
    searched. *)
Record Acc {W : Type} (dest : ports.MusicProvider W) (token : string)
    (tracks : list Track) (nworkers : nat) (s0 : State W) (c : Config W)
  : Prop := {
  acc_seq : ∃ before after,
    (searches c).*1 = before ++ after
    ∧ (let '(log1, s1) := searchSeq dest token tracks before s0 in
       let '(log2, s2) := searchSeqOn dest true token tracks after s1 in
       searches c = log1 ++ log2 ∧ st c = s2)
    ∧ (ctxDone c = false → after = [])
    ∧ length after + length (pool c ≫= searching) ≤ nworkers;
  acc_nodup : NoDup (searches c).*1;
  acc_live : ctxDone c = false → ∀ i, 1 ≤ past c i → i ∈ (searches c).*1;
}.

(** The identifier step 3 of [MigratePlaylist] keeps of a result. *)
Definition matchedID (r : TrackResult) : option string :=
  match Status r, MatchedTrack r with
  | TrackStatusMatched, Some m => Some (ExternalID m)
  | _, _ => None
  end.


(** ** ASCII text

    On a string of bytes below 0x80 the functions of module [strings] are
    Go's: there is no multi-byte character for Go to map or to trim. *)

Fixpoint isASCII (s : string) : bool :=
  match s with
  | EmptyString => true
  | String c s' => (N_of_ascii c <? 128)%N && isASCII s'
  end.

Definition asciiTrack (t : Track) : bool :=
  isASCII (Name t) && isASCII (Artist t) && isASCII (Album t)
  && isASCII (ISRC t).

(** ** Tracks up to letter case *)

(** The track with its four text fields in lower case, and no identifier. *)
Definition foldTrack (t : Track) : Track :=
  {| Name := strings.ToLower (Name t); Artist := strings.ToLower (Artist t);
     Album := strings.ToLower (Album t); ISRC := strings.ToLower (ISRC t);
     ExternalID := "" |}.

(** ** White space at the ends of a string *)

Definition startsWithSpace (s : string) : bool :=
  match s with
  | EmptyString => false
  | String c _ => strings.isSpace c
  end.

Fixpoint endsWithSpace (s : string) : bool :=
  match s with
  | EmptyString => false
  | String c EmptyString => strings.isSpace c
  | String _ s' => endsWithSpace s'
  end.

(** The video a YouTube playlist item stands for. *)
Definition videoID (item : youtube.playlistItemResource) : string :=
  youtube.resource_VideoID (youtube.item_ResourceID (youtube.item_Snippet item)).

(** ** The requests of the adapters *)

(** A GET and a POST as [doGet] and [doPost] make them. *)
Definition getRequest (token url : string) : nethttp.Request :=
  {| nethttp.Method := "GET"; nethttp.URL := url;
     nethttp.Authorization := "Bearer " +:+ token;
     nethttp.ContentType := ""; nethttp.Body := "" |}.

Definition postRequest (token url payload : string) : nethttp.Request :=
  {| nethttp.Method := "POST"; nethttp.URL := url;
     nethttp.Authorization := "Bearer " +:+ token;
     nethttp.ContentType := "application/json"; nethttp.Body := payload |}.

(** The page of a YouTube playlist that [pageToken] names; the first page
    has no token. *)
Definition youtubePageURL (playlistID pageToken : string) : string :=
  youtube.baseURL +:+ "/playlistItems?part=snippet&playlistId=" +:+ playlistID
    +:+ "&maxResults=50"
    +:+ (if String.eqb pageToken "" then "" else "&pageToken=" +:+ pageToken).

(** The first page of a Spotify playlist. *)
Definition spotifyPageURL (playlistID : string) : string :=
  spotify.baseURL +:+ "/playlists/" +:+ playlistID +:+ "/tracks?limit=50".

(** The body of the request that adds one video to a playlist. *)
Definition addVideoPayload (playlistID videoID : string) : json.Value :=
  json.JObject
    [("snippet",
      json.JObject
        [("playlistId", json.JString playlistID);
         ("resourceId",
          json.JObject [("kind", json.JString "youtube#video");
                        ("videoId", json.JString videoID)])])].

(** All the elements of a list but the last. *)
Definition allButLast {A : Type} (l : list A) : list A :=
  take (length l - 1) l.

(** The page that the server [client] serves at [url] and that
    [Unmarshal] decodes: the response to the GET of [url] has the status
    200 and its body decodes to [page]. *)
Definition servedBy {W P : Type} (client : nethttp.Client W)
    (Unmarshal : string → P * ports.error) (ctx : ports.Context)
    (token url : string) (page : P) : Prop :=
  ∃ w resp w',
    client ctx (getRequest token url) w = (inl resp, w')
    ∧ nethttp.StatusCode resp = 200%Z
    ∧ Unmarshal (nethttp.ResponseBody resp) = (page, None).

(** The two searches of the Spotify adapter and the search of the YouTube
    adapter. *)
Definition spotifyISRCSearch (QueryEscape : string → string)
    (token : string) (track : Track) : nethttp.Request :=
  getRequest token
    (spotify.baseURL +:+ "/search?type=track&limit=1&q="
       +:+ QueryEscape ("isrc:" +:+ ISRC track)).

Definition spotifyNameSearch (QueryEscape : string → string)
    (token : string) (track : Track) : nethttp.Request :=
  getRequest token
    (spotify.baseURL +:+ "/search?type=track&limit=5&q="
       +:+ QueryEscape ("track:" +:+ Name track +:+ " artist:"
                        +:+ Artist track)).

Definition youtubeSearch (QueryEscape : string → string)
    (token : string) (track : Track) : nethttp.Request :=
  getRequest token
    (youtube.baseURL
       +:+ "/search?part=snippet&type=video&videoCategoryId=10&maxResults=5&q="
       +:+ QueryEscape (Name track +:+ " " +:+ Artist track)).

(** The request that adds one video to a playlist. *)
Definition addVideoRequest (Marshal : json.Value → string)
    (token playlistID videoID : string) : nethttp.Request :=
  postRequest token (youtube.baseURL +:+ "/playlistItems?part=snippet")
    (Marshal (addVideoPayload playlistID videoID)).

(** What [doPost] makes of the answer to a request: the error it returns,
    [None] for an answer with a status from 200 to 299. *)
Definition postFailure (r : nethttp.Response + string) : option string :=
  match r with
  | inr e => Some e
  | inl resp =>
      if (200 <=? nethttp.StatusCode resp)%Z && (nethttp.StatusCode resp <? 300)%Z
      then None
      else Some ("youtube API returned status "
                 +:+ pretty (nethttp.StatusCode resp) +:+ ": "
                 +:+ nethttp.ResponseBody resp)
  end.

(** The answers to the requests [rqs], made one after the other from the
    world [w], and the world they leave. *)
Fixpoint answers {W : Type} (client : nethttp.Client W) (ctx : ports.Context)
    (rqs : list nethttp.Request) (w : W)
  : list (nethttp.Response + string) * W :=
  match rqs with
  | [] => ([], w)
  | rq :: rest =>
      let '(r, w') := client ctx rq w in
      let '(rs, w'') := answers client ctx rest w' in
      (r :: rs, w'')
  end.

(** What the Spotify adapter makes of the answer to a GET: no usable
    answer (the request failed, or its status is not 200), a body that
    does not decode, or the page decoded. *)
Inductive Fetched (P : Type) :=
| FetchFailed (cause : string)
| Undecodable (cause : string)
| Decoded (page : P).
Arguments FetchFailed {P}.
Arguments Undecodable {P}.
Arguments Decoded {P}.

Definition spotifyFetched {P : Type} (Unmarshal : string → P * ports.error)
    (r : nethttp.Response + string) : Fetched P :=
  match r with
  | inr e => FetchFailed e
  | inl resp =>
      if (nethttp.StatusCode resp =? 200)%Z
      then match Unmarshal (nethttp.ResponseBody resp) with
           | (_, Some e) => Undecodable e
           | (page, None) => Decoded page
           end
      else FetchFailed ("spotify API returned status "
                        +:+ pretty (nethttp.StatusCode resp) +:+ ": "
                        +:+ nethttp.ResponseBody resp)
  end.

(** The outcome of Spotify's search by name, given what was fetched. *)
Definition nameSearchOutcome (track : Track)
    (fetched : Fetched spotify.searchResponse)
  : option Track * float64 * ports.error :=
  match fetched with
  | FetchFailed cause =>
      (None, f64.zero, Some ("spotify: search failed: " +:+ cause))
  | Undecodable cause =>
      (None, f64.zero,
       Some ("spotify: failed to parse search response: " +:+ cause))
  | Decoded page =>
      match spotify.search_Items (spotify.search_Tracks page) with
      | [] => (None, f64.zero, None)
      | best :: _ =>
          (Some (spotify.toTrack best),
           spotify.calculateConfidence track (spotify.toTrack best), None)
      end
  end.

(** The first track of a page fetched by ISRC, when there is one. *)
Definition isrcHit (fetched : Fetched spotify.searchResponse)
  : option spotify.trackData :=
  match fetched with
  | Decoded page => head (spotify.search_Items (spotify.search_Tracks page))
  | _ => None
  end.

(** A server for the examples: it answers every request with the status
    200 and, as the body, the URL requested. *)
Definition echoClient : nethttp.Client unit :=
  λ _ rq w,
    (inl {| nethttp.StatusCode := 200; nethttp.ResponseBody := nethttp.URL rq |},
     w).

Definition demoHttp : nethttp.Http unit :=
  {| nethttp.world := tt; nethttp.requests := [] |}.

(** Two pages of a Spotify playlist, the first with an item without ID. *)
Definition demoSpotifyItem (id name : string) : spotify.trackItem :=
  {| spotify.item_Track :=
       {| spotify.track_ID := id; spotify.track_Name := name;
          spotify.track_Artists := [{| spotify.artist_Name := "Queen" |}];
          spotify.track_Album := {| spotify.album_Name := "Jazz" |};
          spotify.track_ExternalIDs := {| spotify.ids_ISRC := "" |} |} |}.

Definition demoSpotifyPages (body : string)
  : spotify.tracksResponse * ports.error :=
  if String.eqb body (spotifyPageURL "pl")
  then ({| spotify.tracks_Items :=
             [demoSpotifyItem "id1" "Bicycle Race"; demoSpotifyItem "" "Local"];
           spotify.tracks_Next := "https://api.spotify.com/v1/page2" |}, None)
  else ({| spotify.tracks_Items := [demoSpotifyItem "id2" "Jealousy"];
           spotify.tracks_Next := "" |}, None).

(** Two pages of a YouTube playlist. *)
Definition demoYouTubeItem (id title : string) : youtube.playlistItemResource :=
  {| youtube.item_Snippet :=
       {| youtube.item_Title := title;
          youtube.item_VideoOwnerChannelTitle := "QueenVEVO";
          youtube.item_ResourceID := {| youtube.resource_VideoID := id |} |} |}.

Definition demoYouTubePages (body : string)
  : youtube.playlistItemsResponse * ports.error :=
  if String.eqb body (youtubePageURL "pl" "")
  then ({| youtube.items_Items :=
             [demoYouTubeItem "v1" "Queen - Bicycle Race (Official Video)";
              demoYouTubeItem "" "Deleted video"];
           youtube.items_NextPageToken := "p2" |}, None)
  else ({| youtube.items_Items := [demoYouTubeItem "v2" "Jealousy"];
           youtube.items_NextPageToken := "" |}, None).

(** The request that creates a playlist: private, with the given title and
    description. *)
Definition createPlaylistRequest (Marshal : json.Value → string)
    (token name description : string) : nethttp.Request :=
  postRequest token (youtube.baseURL +:+ "/playlists?part=snippet,status")
    (Marshal
       (json.JObject
          [("snippet", json.JObject [("description", json.JString description);
                                     ("title", json.JString name)]);
           ("status",
            json.JObject [("privacyStatus", json.JString "private")])])).

(* ================================================================== *)
(** * Properties *)

Section Float64.
Local Open Scope Z_scope.

Lemma digits2_log2 p : Zpos (digits2_pos p) = Z.log2 (Zpos p) + 1.
Proof.
  induction p as [p IH|p IH|]; simpl digits2_pos; rewrite ?Pos2Z.inj_succ, ?IH; try reflexivity.
  - change (Z.pos p~1) with (2 * Z.pos p + 1). rewrite Z.log2_succ_double by lia. lia.
  - change (Z.pos p~0) with (2 * Z.pos p). rewrite Z.log2_double by lia. lia.
Qed.

Lemma shr_1_shiftr r : 0 <= shr_m r → shr_m (shr_1 r) = Z.shiftr (shr_m r) 1.
Proof.
  rewrite <- Z.div2_spec.
  destruct r as [[|[p|p|]|p] b s]; simpl; intros H; try reflexivity; lia.
Qed.

Lemma iter_shr_1_shiftr p r :
  0 <= shr_m r → shr_m (SpecFloat.iter_pos shr_1 p r) = Z.shiftr (shr_m r) (Zpos p).
Proof.
  revert r. induction p as [p IH|p IH|]; intros r Hr; simpl SpecFloat.iter_pos.
  - assert (H1 : 0 <= shr_m (shr_1 r))
      by (rewrite shr_1_shiftr by done; apply Z.shiftr_nonneg; done).
    assert (H2 : 0 <= shr_m (SpecFloat.iter_pos shr_1 p (shr_1 r)))
      by (rewrite IH by done; apply Z.shiftr_nonneg; done).
    rewrite IH, IH, shr_1_shiftr by done.
    rewrite !Z.shiftr_shiftr by lia. f_equal. lia.
  - assert (H2 : 0 <= shr_m (SpecFloat.iter_pos shr_1 p r))
      by (rewrite IH by done; apply Z.shiftr_nonneg; done).
    rewrite IH, IH by done.
    rewrite !Z.shiftr_shiftr by lia. f_equal. lia.
  - by apply shr_1_shiftr.
Qed.

Lemma shr_record_of_loc_m m l : shr_m (shr_record_of_loc m l) = m.
Proof. by destruct l as [|[]]. Qed.

(** [shr_fexp] shifts the mantissa right by [k >= 0] bits, adding [k] to
    the exponent. *)
Lemma shr_fexp_spec m e l :
  0 <= m →
  let k := Z.max 0 (fexp f64.prec f64.emax (Zdigits2 m + e) - e) in
  shr_m (shr_fexp f64.prec f64.emax m e l).1 = Z.shiftr m k
  ∧ (shr_fexp f64.prec f64.emax m e l).2 = e + k.
Proof.
  intros Hm k. unfold shr_fexp, shr. subst k.
  destruct (fexp f64.prec f64.emax (Zdigits2 m + e) - e) as [|p|p] eqn:E; simpl.
  - rewrite shr_record_of_loc_m, Z.shiftr_0_r. lia.
  - rewrite iter_shr_1_shiftr, shr_record_of_loc_m by (by rewrite shr_record_of_loc_m).
    split; [reflexivity | lia].
  - rewrite shr_record_of_loc_m. split; [reflexivity | lia].
Qed.

Lemma round_nearest_even_bounds m l :
  m <= round_nearest_even m l <= m + 1.
Proof. destruct l as [|[]]; simpl; try destruct (Z.even m); lia. Qed.

(** Rounding a non-negative mantissa never produces NaN. *)
Lemma binary_round_aux_nonneg m e l :
  0 <= m → nonneg (binary_round_aux f64.prec f64.emax false m e l).
Proof.
  intros Hm. unfold binary_round_aux.
  destruct (shr_fexp_spec m e l Hm) as [H1 _].
  destruct (shr_fexp f64.prec f64.emax m e l) as [r1 e1]. simpl in H1.
  set (m2 := round_nearest_even (shr_m r1) (loc_of_shr_record r1)).
  assert (Hm2 : 0 <= m2).
  { pose proof (round_nearest_even_bounds (shr_m r1) (loc_of_shr_record r1)).
    pose proof (Z.shiftr_nonneg m (Z.max 0 (fexp f64.prec f64.emax (Zdigits2 m + e) - e))).
    unfold m2. lia. }
  destruct (shr_fexp_spec m2 e1 loc_Exact Hm2) as [H3 _].
  destruct (shr_fexp f64.prec f64.emax m2 e1 loc_Exact) as [r3 e3]. simpl in H3.
  pose proof (Z.shiftr_nonneg m2 (Z.max 0 (fexp f64.prec f64.emax (Zdigits2 m2 + e1) - e1))).
  destruct (shr_m r3) as [|q|q]; simpl; [done| |lia].
  by destruct (_ <=? _).
Qed.

Lemma shiftr_pos_bound m k :
  0 < m → 0 <= k <= Z.log2 m → 0 < Z.shiftr m k <= m.
Proof.
  intros Hm Hk. split.
  - destruct (Z.eq_dec (Z.shiftr m k) 0) as [E|E].
    + apply Z.shiftr_eq_0_iff in E. lia.
    + pose proof (Z.shiftr_nonneg m k). lia.
  - rewrite Z.shiftr_div_pow2 by lia.
    apply Z.div_le_upper_bound; [lia|].
    assert (1 <= 2 ^ k) by (apply Z.pow_le_mono_r with (b := 0); lia). nia.
Qed.

(** Rounding a mantissa below 2^64 at an exponent in [-1074, 900] gives a
    finite positive number. *)
Lemma binary_round_aux_posFinite m e l :
  0 < m < 2 ^ 64 → -1074 <= e <= 900 →
  posFinite (binary_round_aux f64.prec f64.emax false m e l).
Proof.
  intros Hm He. unfold binary_round_aux.
  destruct (shr_fexp_spec m e l) as [H1 H1e]; [lia|].
  destruct (shr_fexp f64.prec f64.emax m e l) as [r1 e1]. simpl in H1, H1e.
  set (k1 := Z.max 0 (fexp f64.prec f64.emax (Zdigits2 m + e) - e)) in *.
  assert (Hlog : 0 <= Z.log2 m < 64).
  { split; [apply Z.log2_nonneg|]. apply Z.log2_lt_pow2; lia. }
  assert (Hk1 : 0 <= k1 <= Z.log2 m ∧ k1 <= 11).
  { subst k1. unfold fexp, emin, f64.prec, f64.emax.
    destruct m as [|p|p]; try lia. simpl Zdigits2. rewrite digits2_log2. lia. }
  pose proof (shiftr_pos_bound m k1 ltac:(lia) ltac:(lia)) as Hs1.
  set (m2 := round_nearest_even (shr_m r1) (loc_of_shr_record r1)).
  pose proof (round_nearest_even_bounds (shr_m r1) (loc_of_shr_record r1)) as Hr.
  fold m2 in Hr. rewrite H1 in Hr.
  assert (Hm2 : 0 < m2 <= 2 ^ 64) by lia.
  destruct (shr_fexp_spec m2 e1 loc_Exact) as [H3 H3e]; [lia|].
  destruct (shr_fexp f64.prec f64.emax m2 e1 loc_Exact) as [r3 e3]. simpl in H3, H3e.
  set (k2 := Z.max 0 (fexp f64.prec f64.emax (Zdigits2 m2 + e1) - e1)) in *.
  assert (Hlog2 : 0 <= Z.log2 m2 <= 64).
  { split; [apply Z.log2_nonneg|].
    change 64 with (Z.log2 (2 ^ 64)). apply Z.log2_le_mono. lia. }
  assert (Hk2 : 0 <= k2 <= Z.log2 m2 ∧ k2 <= 12).
  { subst k2. unfold fexp, emin, f64.prec, f64.emax.
    destruct m2 as [|p|p]; try lia. simpl Zdigits2. rewrite digits2_log2. lia. }
  pose proof (shiftr_pos_bound m2 k2 ltac:(lia) ltac:(lia)) as Hs2.
  rewrite <- H3 in Hs2.
  destruct (shr_m r3) as [|q|q]; try lia.
  unfold f64.emax, f64.prec.
  destruct (Z.leb_spec e3 (1024 - 53)); [done | lia].
Qed.

Lemma binary_normalize_nonneg m e :
  0 <= m → nonneg (binary_normalize f64.prec f64.emax m e false).
Proof.
  intros Hm. unfold binary_normalize.
  destruct m as [|p|p]; [done | | lia].
  unfold binary_round. destruct (shl_align _ _ _) as [mz ez].
  by apply binary_round_aux_nonneg.
Qed.

Lemma of_int_nonneg n : 0 <= n → nonneg (f64.of_int n).
Proof. apply binary_normalize_nonneg. Qed.

Lemma iter_xO_pow p d : Zpos (Pos.iter xO p d) = Zpos p * 2 ^ Zpos d.
Proof.
  pose proof (shift_pos_correct d p) as H. unfold shift_pos in H.
  rewrite H, Zpower_pos_nat, Zpower_nat_Z, positive_nat_Z. lia.
Qed.

(** [float64(n)] of a positive Go [int] is finite and positive. *)
Lemma of_int_posFinite n : 0 < n < 2 ^ 63 → posFinite (f64.of_int n).
Proof.
  intros Hn. unfold f64.of_int, binary_normalize.
  destruct n as [|p|p]; try lia.
  unfold binary_round, shl_align.
  assert (Hlog : 0 <= Z.log2 (Zpos p) < 63).
  { split; [apply Z.log2_nonneg|]. apply Z.log2_lt_pow2; lia. }
  assert (Hfexp : fexp f64.prec f64.emax (Zpos (digits2_pos p) + 0)
                  = Z.log2 (Zpos p) - 52).
  { rewrite digits2_log2. unfold fexp, emin, f64.prec, f64.emax. lia. }
  rewrite Hfexp.
  destruct (Z.log2 (Zpos p) - 52 - 0) as [|d|d] eqn:E.
  - apply binary_round_aux_posFinite; lia.
  - apply binary_round_aux_posFinite; lia.
  - apply binary_round_aux_posFinite; [|lia].
    rewrite iter_xO_pow. split; [lia|].
    assert (Zpos p < 2 ^ (Z.log2 (Zpos p) + 1))
      by (apply Z.log2_spec; lia).
    assert (Hd : Zpos d = 52 - Z.log2 (Zpos p)) by lia.
    assert (2 ^ (Z.log2 (Zpos p) + 1) * 2 ^ Zpos d = 2 ^ 53).
    { rewrite <- Z.pow_add_r by lia. f_equal. lia. }
    assert (0 < 2 ^ Zpos d) by (apply Z.pow_pos_nonneg; lia).
    assert (2 ^ 53 < 2 ^ 64) by (apply Z.pow_lt_mono_r; lia).
    nia.
Qed.

Lemma add_nonneg x y : nonneg x → nonneg y → nonneg (f64.add x y).
Proof.
  destruct x as [sx|sx| |sx mx ex], y as [sy|sy| |sy my ey]; simpl;
    try done; intros; subst; try done.
  - by destruct sx, sy.
  - apply binary_normalize_nonneg. simpl. lia.
Qed.

Lemma mul_posFinite_nonneg x y : posFinite x → nonneg y → nonneg (f64.mul x y).
Proof.
  destruct x as [sx|sx| |[] mx ex], y as [sy|sy| |sy my ey]; simpl;
    try done; intros; subst; try done.
  by apply binary_round_aux_nonneg.
Qed.

Lemma div_nonneg_posFinite x y : nonneg x → posFinite y → nonneg (f64.div x y).
Proof.
  destruct x as [sx|sx| |sx mx ex], y as [sy|sy| |[] my ey]; simpl;
    try done; intros; subst; try done.
  unfold SFdiv_core_binary.
  set (m' := match _ with Z0 => _ | Zpos _ => _ | Zneg _ => _ end).
  assert (Hm' : 0 <= m').
  { subst m'. destruct (_ - _) as [|q|q]; try lia.
    apply Z.shiftl_nonneg. lia. }
  pose proof (Z.div_pos m' (Zpos my) Hm' ltac:(lia)) as Hq.
  unfold Z.div in Hq. destruct (Z.div_eucl m' (Zpos my)) as [q r].
  by apply binary_round_aux_nonneg.
Qed.

(** The clamp [if score > 1.0 { score = 1.0 }] of a score that is neither
    NaN nor negative lies in [0, 1]. *)
Lemma clamp_finite p e0 x :
  nonneg x →
  let o := S754_finite false p e0 in
  let r := if SFltb o x then o else x in
  SFleb (S754_zero false) r = true ∧ SFleb r o = true.
Proof.
  intros Hx o r. subst o r. unfold SFltb, SFleb.
  destruct x as [sx|sx| |sx mx ex]; simpl in Hx; subst; try done.
  { cbn [SFcompare]. by rewrite Z.compare_refl, Pos.compare_cont_refl. }
  cbn [SFcompare].
  assert (HZ : (ex ?= e0) = CompOpp (e0 ?= ex)) by apply Z.compare_antisym.
  assert (HP : Pos.compare_cont Eq mx p = CompOpp (Pos.compare_cont Eq p mx))
    by (by rewrite Pos.compare_cont_antisym).
  destruct (e0 ?= ex) eqn:E1; cbn [CompOpp] in HZ.
  - destruct (Pos.compare_cont Eq p mx) eqn:E2; cbn [CompOpp] in HP;
      cbn [SFcompare]; rewrite ?HZ, ?HP, ?Z.compare_refl, ?E1, ?E2; try done.
    by rewrite Pos.compare_cont_refl.
  - cbn [SFcompare]. rewrite Z.compare_refl, Pos.compare_cont_refl. done.
  - cbn [SFcompare]. rewrite HZ. done.
Qed.

Lemma clamp_range x :
  nonneg x →
  let r := if f64.gtb x (f64.dec 1 1) then f64.dec 1 1 else x in
  f64.leb f64.zero r = true ∧ f64.leb r (f64.dec 1 1) = true.
Proof.
  assert (E : f64.dec 1 1 = S754_finite false 4503599627370496 (-52))
    by (vm_compute; reflexivity).
  rewrite E. apply clamp_finite.
Qed.

End Float64.

(** ** Strings *)
Section Strings.

Lemma HasPrefix_empty s : strings.HasPrefix s "" = true.
Proof. by destruct s. Qed.

Lemma Contains_empty s : strings.Contains s "" = true.
Proof. destruct s; simpl; by rewrite ?HasPrefix_empty. Qed.

Lemma EqualFold_empty_l t : strings.EqualFold "" t = String.eqb t "".
Proof. by destruct t. Qed.

Lemma ToLower_length s : String.length (strings.ToLower s) = String.length s.
Proof. induction s; simpl; congruence. Qed.

Lemma fieldsFrom_length cur s :
  (length (strings.fieldsFrom cur s)
   ≤ String.length s + (if String.eqb cur "" then 0 else 1))%nat.
Proof.
  revert cur. induction s as [|c s IH]; intros cur; simpl.
  - destruct (String.eqb cur ""); simpl; lia.
  - destruct (strings.isSpace c).
    + pose proof (IH "") as H. simpl in H.
      destruct (String.eqb cur ""); simpl; lia.
    + pose proof (IH (cur +:+ String c "")) as H.
      destruct (String.eqb (cur +:+ String c "") ""), (String.eqb cur ""); lia.
Qed.

Lemma Fields_length s : (length (strings.Fields s) ≤ String.length s)%nat.
Proof. pose proof (fieldsFrom_length "" s) as H. simpl in H. unfold strings.Fields. lia. Qed.

End Strings.

(** ** Scores *)

Section Scorers.

Lemma dec_nonneg n d : (0 ≤ n)%Z → (0 < d < 2 ^ 63)%Z → nonneg (f64.dec n d).
Proof.
  intros Hn Hd. apply div_nonneg_posFinite;
    [by apply of_int_nonneg | by apply of_int_posFinite].
Qed.

Lemma zero_nonneg : nonneg f64.zero. Proof. done. Qed.
Lemma dec_posFinite_5_10 : posFinite (f64.dec 5 10). Proof. by vm_compute. Qed.

Lemma one_inUnitInterval : inUnitInterval (f64.dec 1 1).
Proof. by vm_compute. Qed.

(** A sum of non-negative constants, each added under a condition, is
    non-negative. *)
Ltac score_nonneg :=
  repeat match goal with
         | |- nonneg f64.zero => exact zero_nonneg
         | |- nonneg (f64.dec _ _) => apply dec_nonneg; [done | done]
         | |- nonneg (f64.add _ _) => apply add_nonneg
         | |- nonneg (if ?b then _ else _) => destruct b
         end.

Lemma spotify_in_unit source matched :
  inUnitInterval (spotify.calculateConfidence source matched).
Proof.
  unfold spotify.calculateConfidence.
  destruct (_ && _ && _); [apply one_inUnitInterval|].
  apply clamp_range. score_nonneg.
Qed.

Lemma youtube_in_unit source matched :
  (Z.of_nat (String.length (Name source)) < 2 ^ 63)%Z →
  inUnitInterval (youtube.calculateConfidence source matched).
Proof.
  intros Hlen. unfold youtube.calculateConfidence.
  apply clamp_range.
  set (words := strings.Fields (strings.ToLower (Name source))).
  assert (Hwords : (length words ≤ String.length (Name source))%nat).
  { subst words. rewrite <- (ToLower_length (Name source)). apply Fields_length. }
  set (overlap := f64.div _ _).
  assert (Hover : (0 < length words)%nat → nonneg overlap).
  { intros Hpos. subst overlap.
    apply div_nonneg_posFinite; [|apply of_int_posFinite; lia].
    apply mul_posFinite_nonneg; [apply dec_posFinite_5_10|].
    apply of_int_nonneg. lia. }
  destruct (Nat.ltb_spec 0 (length words)) as [Hpos|_];
    [specialize (Hover Hpos)|]; clearbody overlap; score_nonneg; exact Hover.
Qed.

End Scorers.

(** *** The title-only scorer as the specification words it *)

Section TitleOnly.

Lemma countMatches_filter title words n :
  youtube.countMatches title words n
  = (n + length (matchedTokens title words))%nat.
Proof.
  revert n. induction words as [|w ws IH]; intros n; simpl; [lia|].
  rewrite IH. unfold matchedTokens. rewrite filter_cons.
  destruct (Nat.ltb_spec 2 (String.length w)), (strings.Contains title w) eqn:E;
    simpl; case_decide; simpl; try lia; naive_solver.
Qed.

End TitleOnly.

(** ** C3 *)


(** The title-only scorer has no ISRC test of its own: given a candidate
    that carries an ISRC - which [SearchTrack] never builds - it scores the
    titles alone. *)
Lemma youtube_scorer_has_no_isrc_test :
  let source := {| Name := "Bohemian Rhapsody"; Artist := "Queen"; Album := "";
                   ISRC := "GBUM71029604"; ExternalID := "" |} in
  let candidate := {| Name := "Some Other Video"; Artist := "Somebody"; Album := "";
                      ISRC := "gbum71029604"; ExternalID := "vid-9" |} in
  youtube.calculateConfidence source candidate = f64.zero.
Proof. vm_compute. reflexivity. Qed.



(** ** C4 *)

(** C4: both scorers return a score in the closed interval [0.0, 1.0], for
    every source and candidate track.  (The length of a Go string fits an
    [int]; this is what keeps [float64(len(sourceWords))] finite.) *)
Theorem calculateConfidence_in_unit_interval (source matched : Track) :
  (Z.of_nat (String.length (Name source)) < 2 ^ 63)%Z →
  inUnitInterval (spotify.calculateConfidence source matched)
  ∧ inUnitInterval (youtube.calculateConfidence source matched).
Proof.
  intros Hlen. split; [apply spotify_in_unit | by apply youtube_in_unit].
Qed.

Lemma calculateConfidence_in_unit_interval_witness :
  let source := {| Name := "Hey Jude remastered"; Artist := "The Beatles";
                   Album := "1"; ISRC := ""; ExternalID := "" |} in
  let matched := {| Name := "The Beatles - Hey Jude"; Artist := "The Beatles";
                    Album := "1"; ISRC := ""; ExternalID := "x" |} in
  inUnitInterval (spotify.calculateConfidence source matched)
  ∧ inUnitInterval (youtube.calculateConfidence source matched).
Proof.
  intros source matched.
  apply (calculateConfidence_in_unit_interval source matched).
  vm_compute. reflexivity.
Defined.

(** ** C7 *)

(** C7, the claim as stated fails: for the source name "Up" and a candidate
    title that contains it, the code awards the name 0.5 (total 0.9 with the
    artist), where the word-overlap rule of the claim awards it nothing
    (total 0.4) - whichever tokens "total tokens" counts. *)
Lemma youtube_whole_name_before_word_overlap :
  let source := {| Name := "Up"; Artist := "Cardi B"; Album := "";
                   ISRC := ""; ExternalID := "" |} in
  let candidate := {| Name := "Cardi B - Up [Official Music Video]";
                      Artist := "Cardi B"; Album := ""; ISRC := "";
                      ExternalID := "vid-1" |} in
  youtube.calculateConfidence source candidate = f64.dec 9 10
  ∧ claimedScore false source candidate = f64.dec 4 10
  ∧ claimedScore true source candidate = f64.dec 4 10
  ∧ f64.dec 9 10 ≠ f64.dec 4 10.
Proof. vm_compute. repeat split; discriminate. Qed.

(** C7 (amended): the title-only scorer first tests whether the lowercased
    source name occurs in the lowercased candidate title and then awards the
    name a flat 0.5; only otherwise does it split the lowercased source name
    on white space and award 0.5 x (tokens longer than 2 bytes that occur in
    the title) / (all tokens), nothing when there is no token.  It adds 0.4
    when the lowercased source artist occurs in the lowercased candidate
    title or channel, 0.1 when the lowercased names are equal, and caps the
    sum at 1.0. *)
Theorem youtube_score_breakdown (source matched : Track) :
  youtube.calculateConfidence source matched = titleOnlyScore source matched.
Proof.
  unfold youtube.calculateConfidence, titleOnlyScore, clampOne, addIf,
    overlapFraction.
  rewrite countMatches_filter. simpl Nat.add. reflexivity.
Qed.

(** ** C8 *)

(** C8: for a source track with empty name and artist the structured-metadata
    scorer returns at least 0.5, whatever the candidate: the name contributes
    0.5 when the candidate name is empty and 0.3 otherwise, the artist 0.35
    when the candidate artist is empty and 0.2 otherwise. *)
Theorem spotify_empty_source_at_least_half (source matched : Track) :
  Name source = "" → Artist source = "" →
  f64.leb (f64.dec 5 10) (spotify.calculateConfidence source matched) = true
  ∧ (spotify.nonEmpty (ISRC source) && spotify.nonEmpty (ISRC matched)
       && strings.EqualFold (ISRC source) (ISRC matched) = false →
     spotify.calculateConfidence source matched
     = clampOne
         (addIf (spotify.nonEmpty (Album source)
                 && strings.EqualFold (Album source) (Album matched))
            (f64.dec 15 100)
            (f64.add
               (f64.add f64.zero
                  (if String.eqb (Name matched) "" then f64.dec 5 10
                   else f64.dec 3 10))
               (if String.eqb (Artist matched) "" then f64.dec 35 100
                else f64.dec 2 10)))).
Proof.
  intros Hn Ha. unfold spotify.calculateConfidence, clampOne, addIf.
  rewrite Hn, Ha, !EqualFold_empty_l. simpl strings.ToLower.
  rewrite !Contains_empty.
  destruct (_ && _ && _); [split; [by vm_compute | done]|].
  split; [|by destruct (String.eqb (Name matched) ""),
                (String.eqb (Artist matched) "")].
  destruct (String.eqb (Name matched) ""), (String.eqb (Artist matched) ""),
    (_ && _); by vm_compute.
Qed.

Lemma spotify_empty_source_at_least_half_witness :
  f64.leb (f64.dec 5 10)
    (spotify.calculateConfidence
       {| Name := ""; Artist := ""; Album := "x"; ISRC := ""; ExternalID := "" |}
       {| Name := "Yesterday"; Artist := "The Beatles"; Album := "Help!";
          ISRC := "GBAYE0601477"; ExternalID := "sp-7" |}) = true.
Proof.
  apply (spotify_empty_source_at_least_half
    {| Name := ""; Artist := ""; Album := "x"; ISRC := ""; ExternalID := "" |}
    {| Name := "Yesterday"; Artist := "The Beatles"; Album := "Help!";
       ISRC := "GBAYE0601477"; ExternalID := "sp-7" |});
    reflexivity.
Defined.

Section Chunks.
Context {A : Type}.
Implicit Types (l : list A).

Lemma chunksFuel_concat fuel n l :
  0 < n → length l ≤ fuel → concat (chunksFuel fuel n l) = l.
Proof.
  intros Hn. revert l. induction fuel as [|fuel IH]; intros l Hl.
  - destruct l; simpl in *; [done | lia].
  - destruct l as [|x l]; [done|].
    cbn [chunksFuel concat]. rewrite IH, take_drop; [done|].
    rewrite length_drop. simpl in *. lia.
Qed.

Lemma chunksFuel_bounds fuel n l :
  0 < n → Forall (λ c, 0 < length c ≤ n) (chunksFuel fuel n l).
Proof.
  intros Hn. revert l. induction fuel as [|fuel IH]; intros l.
  - destruct l; constructor.
  - destruct l as [|x l]; [constructor|].
    cbn [chunksFuel]. constructor; [|apply IH].
    rewrite length_take. simpl. lia.
Qed.

(** More fuel than elements changes nothing. *)
Lemma chunksFuel_irrel fuel1 fuel2 n l :
  0 < n → length l ≤ fuel1 → length l ≤ fuel2 →
  chunksFuel fuel1 n l = chunksFuel fuel2 n l.
Proof.
  intros Hn. revert fuel2 l.
  induction fuel1 as [|fuel1 IH]; intros fuel2 l H1 H2.
  - destruct l; simpl in *; [by destruct fuel2 | lia].
  - destruct l as [|x l]; [by destruct fuel2|].
    destruct fuel2 as [|fuel2]; simpl in H2; [lia|].
    cbn [chunksFuel]. f_equal.
    apply IH; rewrite length_drop; simpl in *; lia.
Qed.

Lemma chunksFuel_enough fuel n l :
  0 < n → length l ≤ fuel → chunksFuel fuel n l = chunks n l.
Proof. intros. by apply chunksFuel_irrel. Qed.
End Chunks.

Section Spotify.
Context {W : Type}.
Variable client : ports.Context → spotify.PostRequest → W → ports.error * W.
Local Abbreviation postChunks := (postChunks client).

Lemma take_end_chunk (l : list string) i :
  i < length l →
  take ((if decide (length l < i + spotify.maxBatch)
         then length l else i + spotify.maxBatch) - i) (drop i l)
  = take spotify.maxBatch (drop i l).
Proof.
  intros Hi. case_decide.
  - rewrite !take_ge; [done| |]; rewrite length_drop; lia.
  - f_equal. lia.
Qed.

Lemma addTracksFrom_postChunks ctx token playlistID trackIDs fuel i h :
  length trackIDs - i ≤ fuel →
  spotify.addTracksFrom client ctx token playlistID trackIDs i h
  = postChunks ctx token playlistID
      (chunksFuel fuel spotify.maxBatch (drop i trackIDs)) h.
Proof.
  revert i h. induction fuel as [|fuel IH]; intros i h Hf.
  - simp addTracksFrom. destruct (decide (i < length trackIDs)); [lia|].
    simpl. by destruct (drop i trackIDs).
  - simp addTracksFrom. destruct (decide (i < length trackIDs)) as [Hi|Hi]; simpl.
    + rewrite take_end_chunk by done.
      destruct (drop i trackIDs) as [|x l'] eqn:E.
      { apply (f_equal length) in E. rewrite length_drop in E. simpl in E. lia. }
      rewrite <- E. cbn [postChunks].
      unfold tracksEndpoint, trackURIs.
      destruct (spotify.doPost _ _ _ _ _ _) as [[e|] h']; simpl; [done|].
      rewrite drop_drop. apply IH. unfold spotify.maxBatch. lia.
    + rewrite drop_ge by lia. done.
Qed.

Lemma postChunks_posts ctx token playlistID cs h :
  let '(err, h') := postChunks ctx token playlistID cs h in
  ∃ k, k ≤ length cs
    ∧ spotify.http_posts h'
      = spotify.http_posts h ++ (chunkRequest token playlistID <$> take k cs)
    ∧ (err = None → k = length cs).
Proof.
  revert h. induction cs as [|c cs IH]; intros h; simpl.
  - exists 0. by rewrite app_nil_r.
  - unfold spotify.doPost at 1.
    destruct (client _ _ _) as [[e|] w]; simpl.
    + exists 1. split; [lia|]. split; [|done]. by destruct cs.
    + specialize (IH {| spotify.http_world := w;
                        spotify.http_posts := spotify.http_posts h ++
                          [chunkRequest token playlistID c] |}).
      unfold chunkRequest at 1 in IH.
      destruct (postChunks _ _ _ _ _) as [err h'].
      destruct IH as (k & Hk & Hp & He). exists (S k).
      split; [lia|]. split; [|naive_solver].
      rewrite Hp. simpl. by rewrite <- app_assoc.
Qed.
End Spotify.

(** ** C10 *)

(** C10: for every list of track IDs, AddTracksToPlaylist cuts the list into
    consecutive chunks of 1 to 100 IDs whose concatenation is the list, and
    posts one request per chunk, in order, each carrying the chunk's IDs as
    URIs, in place and order: the requests posted are those of the first k
    chunks, and of all the chunks when the call returns no error (a request
    that fails ends the call with that error). *)
Theorem AddTracksToPlaylist_chunks {W : Type}
    (client : ports.Context → spotify.PostRequest → W → ports.error * W)
    (ctx : ports.Context) (token playlistID : string) (trackIDs : list string)
    (h : spotify.Http W) :
  let cs := chunks spotify.maxBatch trackIDs in
  let run := spotify.AddTracksToPlaylist client ctx token playlistID trackIDs h in
  concat cs = trackIDs
  ∧ Forall (λ c, 0 < length c ≤ 100) cs
  ∧ run = postChunks client ctx token playlistID cs h
  ∧ ∃ k, k ≤ length cs
      ∧ spotify.http_posts run.2
        = spotify.http_posts h ++ (chunkRequest token playlistID <$> take k cs)
      ∧ (run.1 = None → k = length cs).
Proof.
  intros cs run.
  assert (Hrun : run = postChunks client ctx token playlistID cs h).
  { subst run cs. unfold spotify.AddTracksToPlaylist.
    rewrite (addTracksFrom_postChunks _ _ _ _ _ (length trackIDs)) by lia.
    by rewrite drop_0. }
  split; [apply chunksFuel_concat; unfold spotify.maxBatch; lia|].
  split; [apply (chunksFuel_bounds _ spotify.maxBatch); unfold spotify.maxBatch; lia|].
  split; [done|].
  rewrite Hrun.
  pose proof (postChunks_posts client ctx token playlistID cs h) as H.
  by destruct (postChunks _ _ _ _ _ _).
Qed.

Section Registry.
Context {W : Type}.
Implicit Types (ps : list (ports.MusicProvider W)) (name : string).

Lemma registryOf_lookup_Some ps name p :
  adapters.providers (registryOf ps) !! name = Some p →
  p ∈ ps ∧ ports.Name p = name.
Proof.
  unfold registryOf. induction ps as [|q ps IH] using rev_ind; simpl.
  - by rewrite lookup_empty.
  - rewrite foldl_app. simpl.
    destruct (decide (ports.Name q = name)) as [<-|Hne].
    + rewrite lookup_insert_eq. intros [= <-]. split; [|done].
      apply elem_of_app. right. by apply list_elem_of_singleton.
    + rewrite lookup_insert_ne by done. intros H.
      destruct (IH H). split; [|done]. apply elem_of_app. by left.
Qed.

Lemma registryOf_lookup_is_Some ps name :
  (∃ p, p ∈ ps ∧ ports.Name p = name) →
  is_Some (adapters.providers (registryOf ps) !! name).
Proof.
  unfold registryOf. induction ps as [|q ps IH] using rev_ind; simpl.
  - intros (p & Hp & _). by apply elem_of_nil in Hp.
  - intros (p & Hp & Hn). rewrite foldl_app. simpl.
    destruct (decide (ports.Name q = name)) as [<-|Hne].
    + rewrite lookup_insert_eq. eauto.
    + rewrite lookup_insert_ne by done. apply IH.
      apply elem_of_app in Hp as [Hp|Hp]; [eauto|].
      apply list_elem_of_singleton in Hp. congruence.
Qed.
End Registry.

(** ** C9 *)

(** C9: whatever providers were registered, Get(name) returns a provider
    exactly when one was registered whose Name() is the string name itself,
    and the provider it returns has that name; otherwise it returns the error
    "unknown provider: " followed by name.  No normalization: with a
    provider named "spotify" registered, Get("Spotify") is that error. *)
Theorem registry_get_is_exact_lookup {W : Type}
    (ps : list (ports.MusicProvider W)) (name : string) :
  let r := registryOf ps in
  ((∃ p, adapters.Get r name = (Some p, None))
     ↔ ∃ p, p ∈ ps ∧ ports.Name p = name)
  ∧ (∀ p, adapters.Get r name = (Some p, None) → p ∈ ps ∧ ports.Name p = name)
  ∧ ((¬ ∃ p, p ∈ ps ∧ ports.Name p = name) →
     adapters.Get r name = (None, Some ("unknown provider: " +:+ name)))
  ∧ (∀ p : ports.MusicProvider W, ports.Name p = "spotify" →
     adapters.Get (registryOf [p]) "Spotify"
     = (None, Some "unknown provider: Spotify")).
Proof.
  intros r. subst r. unfold adapters.Get.
  split; [|split; [|split]].
  - split.
    + intros [p Hp]. exists p.
      destruct (adapters.providers (registryOf ps) !! name) as [q|] eqn:E; [|done].
      injection Hp as <-. by apply registryOf_lookup_Some.
    + intros H. destruct (registryOf_lookup_is_Some ps name H) as [q ->]. eauto.
  - intros p Hp.
    destruct (adapters.providers (registryOf ps) !! name) as [q|] eqn:E; [|done].
    injection Hp as <-. by apply registryOf_lookup_Some.
  - intros H.
    destruct (adapters.providers (registryOf ps) !! name) as [q|] eqn:E; [|done].
    destruct H. exists q. by apply registryOf_lookup_Some.
  - intros p Hp. unfold registryOf. simpl.
    rewrite lookup_insert_ne, lookup_empty; [done|]. rewrite Hp. discriminate.
Qed.

(** ** Counting occurrences *)
Section Occ.

Lemma occ_nil i : occ i [] = 0.
Proof. done. Qed.

Lemma occ_cons i j l :
  occ i (j :: l) = (if decide (j = i) then 1 else 0) + occ i l.
Proof. unfold occ. rewrite filter_cons. by case_decide. Qed.

Lemma occ_app i l1 l2 : occ i (l1 ++ l2) = occ i l1 + occ i l2.
Proof. unfold occ. by rewrite filter_app, length_app. Qed.

Lemma occ_elem_of i l : i ∈ l ↔ 1 ≤ occ i l.
Proof.
  induction l as [|j l IH]; [rewrite occ_nil; split; [by intros ?%elem_of_nil|lia]|].
  rewrite occ_cons, elem_of_cons, IH. case_decide; [|intuition lia].
  subst. intuition lia.
Qed.

End Occ.

Create Rewrite HintDb occ.
#[local] Hint Rewrite occ_nil occ_cons occ_app : occ.

(** ** What the workers hold *)
Section Held.

Lemma bind_insert_occ (f : Worker → list nat) pool k w w' i :
  pool !! k = Some w →
  occ i (<[k := w']> pool ≫= f) + occ i (f w) = occ i (pool ≫= f) + occ i (f w').
Proof.
  revert k. induction pool as [|x pool IH]; intros [|k] Hk; simplify_eq/=.
  - rewrite !occ_app. lia.
  - rewrite !occ_app. specialize (IH _ Hk). lia.
Qed.

Lemma bind_insert_length (f : Worker → list nat) pool k w w' :
  pool !! k = Some w →
  length (<[k := w']> pool ≫= f) + length (f w)
  = length (pool ≫= f) + length (f w').
Proof.
  revert k. induction pool as [|x pool IH]; intros [|k] Hk; simplify_eq/=.
  - rewrite !length_app. lia.
  - rewrite !length_app. specialize (IH _ Hk). lia.
Qed.

Lemma bind_lookup_occ (f : Worker → list nat) pool k w i :
  pool !! k = Some w → occ i (f w) ≤ occ i (pool ≫= f).
Proof.
  revert k. induction pool as [|x pool IH]; intros [|k] Hk; simplify_eq/=;
    rewrite occ_app; [lia|]. specialize (IH _ Hk). lia.
Qed.

Lemma bind_lookup_length (f : Worker → list nat) pool k w :
  pool !! k = Some w → length (f w) ≤ length (pool ≫= f).
Proof.
  revert k. induction pool as [|x pool IH]; intros [|k] Hk; simplify_eq/=;
    rewrite length_app; [lia|]. specialize (IH _ Hk). lia.
Qed.

Lemma bind_exited (f : Worker → list nat) pool :
  f WExit = [] → Forall (λ w, w = WExit) pool → pool ≫= f = [].
Proof.
  intros Hf H. induction H as [|w ws Hw _ IH]; [done|].
  subst w. cbn. by rewrite Hf, IH.
Qed.

Lemma bind_replicate_recv (f : Worker → list nat) n :
  f WRecv = [] → replicate n WRecv ≫= f = [].
Proof. intros Hf. induction n as [|n IH]; [done|]. cbn. by rewrite Hf, IH. Qed.

Lemma sum_insert_weight pool k w w' :
  pool !! k = Some w →
  sum_list (workerWeight <$> <[k := w']> pool) + workerWeight w
  = sum_list (workerWeight <$> pool) + workerWeight w'.
Proof.
  revert k. induction pool as [|x pool IH]; intros [|k] Hk; simplify_eq/=.
  - lia.
  - specialize (IH _ Hk). lia.
Qed.

End Held.

(** ** The invariant of the worker pool *)
Section Invariant.
Context {W : Type}.
Variable dest : ports.MusicProvider W.
Variable token : string.
Variable tracks : list Track.
Variable nworkers : nat.

Local Abbreviation Config := (Config W).
Local Abbreviation step := (step dest token tracks).
Local Abbreviation init := (init tracks nworkers).
Local Abbreviation sent := (sent tracks).
Local Abbreviation resultFor := (resultFor tracks).
Local Abbreviation workerOK := (workerOK tracks).
Local Abbreviation Inv := (Inv tracks nworkers).
Implicit Types (c : Config) (s : State W).

Lemma resultFor_SourceTrack log i r track :
  resultFor log i r → tracks !! i = Some track → SourceTrack r = track.
Proof.
  intros (t & Ht & [[-> _]|(ret & _ & ->)]) Hi; simplify_eq; [done|].
  by destruct ret as [[[m|] sc] [e|]].
Qed.

Lemma resultFor_snoc log i r j ret :
  i ≠ j → resultFor log i r → resultFor (log ++ [(j, ret)]) i r.
Proof.
  intros Hij (t & Ht & [[-> Hn]|(ret' & Hin & ->)]); exists t; split; try done.
  - left. split; [done|]. intros ret' [?|?%list_elem_of_singleton]%elem_of_app;
      [by eapply Hn | congruence].
  - right. exists ret'. split; [|done]. apply elem_of_app. by left.
Qed.

Lemma init_Inv ctx s : Inv (init ctx s).
Proof.
  split; simpl.
  - done.
  - by rewrite length_replicate.
  - by rewrite length_replicate.
  - split; [lia|done].
  - intros i. rewrite !bind_replicate_recv by done. rewrite !occ_nil.
    lia.
  - by rewrite !bind_replicate_recv.
  - done.
  - by apply Forall_replicate.
  - done.
  - by intros i ?%elem_of_nil.
  - by intros i ret ?%elem_of_nil.
  - by intros i r1 r2 ?%elem_of_nil.
  - by intros k [? ?]%lookup_replicate.
  - done.
  - done.
Qed.

Lemma stepMain_Inv c c' : Inv c → stepMain tracks c = Some c' → Inv c'.
Proof.
  intros [] Hs. unfold stepMain in Hs.
  destruct (mainPC c) as [i0| |] eqn:Em; [| |done].
  - (* the send loop *)
    destruct inv_main0 as [Hi0 Hopen]. rewrite Hopen in Hs. simpl in *.
    destruct (tracks !! i0) as [track|] eqn:Et.
    + (* trackCh <- item *)
      pose proof (lookup_lt_Some _ _ _ Et) as Hlt.
      case_decide; simplify_eq.
      split; simpl; rewrite ?Em; simpl.
      * done.
      * done.
      * done.
      * split; [lia|done].
      * intros i. specialize (inv_census0 i).
        rewrite fmap_app, occ_app. simpl. rewrite occ_cons, occ_nil.
        repeat case_decide; lia.
      * rewrite length_app. simpl. lia.
      * apply Forall_app. split; [done|]. by apply Forall_singleton.
      * done.
      * done.
      * done.
      * done.
      * done.
      * intros k Hk. destruct (inv_exited0 k Hk). congruence.
      * intros Hc. destruct (inv_resultClosed0 Hc). congruence.
      * done.
    + (* close(trackCh) *)
      apply lookup_ge_None in Et. simplify_eq.
      split; simpl; rewrite ?Em; simpl.
      * done.
      * done.
      * done.
      * done.
      * intros i. specialize (inv_census0 i). repeat case_decide; lia.
      * lia.
      * done.
      * done.
      * done.
      * done.
      * done.
      * done.
      * intros k Hk. destruct (inv_exited0 k Hk). congruence.
      * intros Hc. by destruct (inv_resultClosed0 Hc).
      * done.
  - (* the collecting loop *)
    simpl in *.
    destruct (resultCh c) as [|[index result] rest] eqn:Er.
    + (* return *)
      destruct (resultClosed c) eqn:Ec; simplify_eq.
      split; simpl; rewrite ?Em, ?Er; simpl.
      * done.
      * done.
      * done.
      * done.
      * done.
      * done.
      * done.
      * done.
      * done.
      * done.
      * done.
      * done.
      * done.
      * intros _. by apply inv_resultClosed0.
      * done.
    + (* results[ir.index] = ir.result *)
      apply Forall_cons in inv_resultCh0 as [Hres Hrest]. simpl in Hres.
      assert (Hidx : index < length (results c)).
      { destruct Hres as (t & Ht & _). apply lookup_lt_Some in Ht. lia. }
      case_decide; [|done]. simplify_eq.
      split; simpl; rewrite ?Em; simpl.
      * done.
      * done.
      * by rewrite length_insert.
      * done.
      * intros i. specialize (inv_census0 i).
        rewrite fmap_cons, occ_cons in inv_census0. rewrite occ_cons.
        cbn [fst] in inv_census0. lia.
      * simpl in *. lia.
      * done.
      * done.
      * done.
      * intros i [->|Hi]%elem_of_cons.
        -- exists result. split; [|done]. by apply list_lookup_insert_eq.
        -- destruct (decide (i = index)) as [->|Hne].
           ++ exists result. split; [|done]. by apply list_lookup_insert_eq.
           ++ rewrite list_lookup_insert_ne by done. by apply inv_collected0.
      * intros i ret Hin. specialize (inv_searched0 i ret Hin).
        rewrite fmap_cons, occ_cons in inv_searched0. rewrite occ_cons.
        cbn [fst] in inv_searched0. lia.
      * done.
      * done.
      * done.
      * done.
Qed.

Lemma elem_of_fst_occ {B} (l : list (nat * B)) i x : (i, x) ∈ l → 1 ≤ occ i l.*1.
Proof. intros H. apply occ_elem_of. apply list_elem_of_fmap. by exists (i, x). Qed.

Lemma elem_of_sending_occ pool i r :
  WSend (i, r) ∈ pool → 1 ≤ occ i (pool ≫= sending).
Proof.
  intros [k Hk]%list_elem_of_lookup.
  pose proof (bind_lookup_occ sending _ _ _ i Hk) as H. simpl in H.
  rewrite occ_cons, occ_nil in H. case_decide; [lia|done].
Qed.

Lemma workerOK_snoc log w j ret pool :
  w ∈ pool → occ j (pool ≫= sending) = 0 →
  workerOK log w → workerOK (log ++ [(j, ret)]) w.
Proof.
  intros Hw Hocc. destruct w as [|[i t]|[i t]|[i r]|]; simpl; try done.
  apply resultFor_snoc. intros ->.
  apply elem_of_sending_occ in Hw. lia.
Qed.

Lemma stepWorker_Inv k c c' :
  Inv c → stepWorker dest token tracks k c = Some c' → Inv c'.
Proof.
  intros [] Hs. unfold stepWorker in Hs.
  destruct (pool c !! k) as [w|] eqn:Ek; [|done].
  pose proof (Forall_lookup_1 _ _ _ _ inv_workers0 Ek) as Hw.
  assert (Hopen : resultClosed c = false).
  { destruct (resultClosed c) eqn:Ec; [|done].
    destruct (inv_resultClosed0 eq_refl) as [Hall _].
    pose proof (Forall_lookup_1 _ _ _ _ Hall Ek) as ->. done. }
  destruct w as [|[i0 track]|[i0 track]|[i0 r]|]; [| | | |done].
  - (* for item := range trackCh *)
    destruct (trackCh c) as [|[i0 track] rest] eqn:Et.
    + (* the channel is closed and drained: the loop ends *)
      destruct (trackClosed c) eqn:Ec; simplify_eq.
      pose proof (bind_insert_length selecting _ _ _ WExit Ek) as Hl1.
      pose proof (bind_insert_length sending _ _ _ WExit Ek) as Hl2.
      split; simpl; rewrite ?Et; simpl.
      * done.
      * by rewrite length_insert.
      * done.
      * rewrite Ec. destruct (mainPC c); naive_solver.
      * intros i. specialize (inv_census0 i).
        pose proof (bind_insert_occ selecting _ _ _ WExit i Ek).
        pose proof (bind_insert_occ sending _ _ _ WExit i Ek).
        simpl in *. lia.
      * simpl in *. lia.
      * done.
      * by apply Forall_insert.
      * done.
      * done.
      * intros i ret Hin. specialize (inv_searched0 i ret Hin).
        pose proof (bind_insert_occ sending _ _ _ WExit i Ek).
        simpl in *. lia.
      * done.
      * done.
      * congruence.
      * done.
    + (* an item is received *)
      apply Forall_cons in inv_trackCh0 as [Hit Hrest]. cbn [fst snd] in Hit.
      simplify_eq.
      split; simpl.
      * done.
      * by rewrite length_insert.
      * done.
      * done.
      * intros i. specialize (inv_census0 i).
        rewrite fmap_cons, occ_cons in inv_census0. cbn [fst] in inv_census0.
        pose proof (bind_insert_occ selecting _ _ _ (WSelect (i0, track)) i Ek) as H1.
        pose proof (bind_insert_occ sending _ _ _ (WSelect (i0, track)) i Ek) as H2.
        simpl in H1, H2. rewrite occ_cons, occ_nil in H1. lia.
      * pose proof (bind_insert_length selecting _ _ _ (WSelect (i0, track)) Ek) as H1.
        pose proof (bind_insert_length sending _ _ _ (WSelect (i0, track)) Ek) as H2.
        simpl in *. lia.
      * done.
      * by apply Forall_insert.
      * done.
      * done.
      * intros i ret Hin. specialize (inv_searched0 i ret Hin).
        pose proof (bind_insert_occ sending _ _ _ (WSelect (i0, track)) i Ek) as H2.
        simpl in H2. autorewrite with occ in *. lia.
      * done.
      * intros k' Hk'. destruct (decide (k' = k)) as [->|Hne].
        -- rewrite list_lookup_insert_eq in Hk'; [done|].
           by apply lookup_lt_Some in Ek.
        -- rewrite list_lookup_insert_ne in Hk' by done.
           by destruct (inv_exited0 k' Hk').
      * congruence.
      * done.
  - (* the select, holding item (i0, track) *)
    simpl in Hw.
    assert (Hsel : ∀ i, i = i0 →
              occ i (pool c ≫= sending) + occ i (resultCh c).*1
              + occ i (collected c) = 0).
    { intros i ->. specialize (inv_census0 i0).
      pose proof (bind_lookup_occ selecting _ _ _ i0 Ek) as H. simpl in H.
      rewrite occ_cons, occ_nil in H. repeat case_decide; try done; lia. }
    assert (Hfresh : ∀ ret, (i0, ret) ∉ searches c).
    { intros ret Hin. specialize (inv_searched0 _ _ Hin).
      specialize (Hsel i0 eq_refl). lia. }
    destruct (ctxDone c) eqn:Ectx.
    + (* case <-ctx.Done() *)
      simplify_eq.
      split; simpl.
      * done.
      * by rewrite length_insert.
      * done.
      * done.
      * intros i. specialize (inv_census0 i).
        pose proof (bind_insert_occ selecting _ _ _
                      (WSend (i0, cancelledResult track)) i Ek) as H1.
        pose proof (bind_insert_occ sending _ _ _
                      (WSend (i0, cancelledResult track)) i Ek) as H2.
        simpl in H1, H2. autorewrite with occ in *. lia.
      * pose proof (bind_insert_length selecting _ _ _
                      (WSend (i0, cancelledResult track)) Ek) as H1.
        pose proof (bind_insert_length sending _ _ _
                      (WSend (i0, cancelledResult track)) Ek) as H2.
        simpl in *. lia.
      * done.
      * apply Forall_insert; [done|]. simpl. exists track. split; [done|].
        left. done.
      * done.
      * done.
      * intros i ret Hin. specialize (inv_searched0 i ret Hin).
        pose proof (bind_insert_occ sending _ _ _
                      (WSend (i0, cancelledResult track)) i Ek) as H2.
        simpl in H2. autorewrite with occ in *. lia.
      * done.
      * intros k' Hk'. destruct (decide (k' = k)) as [->|Hne].
        -- rewrite list_lookup_insert_eq in Hk'; [done|].
           by apply lookup_lt_Some in Ek.
        -- rewrite list_lookup_insert_ne in Hk' by done.
           by destruct (inv_exited0 k' Hk').
      * congruence.
      * done.
    + (* default: on to the search *)
      simplify_eq.
      split; simpl.
      * done.
      * by rewrite length_insert.
      * done.
      * done.
      * intros i. specialize (inv_census0 i).
        pose proof (bind_insert_occ selecting _ _ _
                      (WSearch (i0, track)) i Ek) as H1.
        pose proof (bind_insert_occ sending _ _ _
                      (WSearch (i0, track)) i Ek) as H2.
        simpl in H1, H2. autorewrite with occ in *. lia.
      * pose proof (bind_insert_length selecting _ _ _
                      (WSearch (i0, track)) Ek) as H1.
        pose proof (bind_insert_length sending _ _ _
                      (WSearch (i0, track)) Ek) as H2.
        simpl in *. lia.
      * done.
      * by apply Forall_insert.
      * done.
      * done.
      * intros i ret Hin. specialize (inv_searched0 i ret Hin).
        pose proof (bind_insert_occ sending _ _ _
                      (WSearch (i0, track)) i Ek) as H2.
        simpl in H2. autorewrite with occ in *. lia.
      * done.
      * intros k' Hk'. destruct (decide (k' = k)) as [->|Hne].
        -- rewrite list_lookup_insert_eq in Hk'; [done|].
           by apply lookup_lt_Some in Ek.
        -- rewrite list_lookup_insert_ne in Hk' by done.
           by destruct (inv_exited0 k' Hk').
      * congruence.
      * done.
  - (* dest.SearchTrack(ctx, token, item.track), holding item (i0, track) *)
    simpl in Hw.
    assert (Hsel : ∀ i, i = i0 →
              occ i (pool c ≫= sending) + occ i (resultCh c).*1
              + occ i (collected c) = 0).
    { intros i ->. specialize (inv_census0 i0).
      pose proof (bind_lookup_occ selecting _ _ _ i0 Ek) as H. simpl in H.
      rewrite occ_cons, occ_nil in H. repeat case_decide; try done; lia. }
    assert (Hfresh : ∀ ret, (i0, ret) ∉ searches c).
    { intros ret Hin. specialize (inv_searched0 _ _ Hin).
      specialize (Hsel i0 eq_refl). lia. }
    + destruct (callSearchTrack dest (ctxDone c) token track (st c))
        as [ret s] eqn:Ecall.
      simplify_eq.
      pose proof (Hsel i0 eq_refl) as Hsel0.
      split; simpl.
      * done.
      * by rewrite length_insert.
      * done.
      * done.
      * intros i. specialize (inv_census0 i).
        pose proof (bind_insert_occ selecting _ _ _
                      (WSend (i0, searchResult track ret)) i Ek) as H1.
        pose proof (bind_insert_occ sending _ _ _
                      (WSend (i0, searchResult track ret)) i Ek) as H2.
        simpl in H1, H2. autorewrite with occ in *. lia.
      * pose proof (bind_insert_length selecting _ _ _
                      (WSend (i0, searchResult track ret)) Ek) as H1.
        pose proof (bind_insert_length sending _ _ _
                      (WSend (i0, searchResult track ret)) Ek) as H2.
        simpl in *. lia.
      * done.
      * apply Forall_insert.
        -- apply Forall_forall. intros w Hin.
           pose proof (proj1 (Forall_forall _ _) inv_workers0 w Hin).
           apply workerOK_snoc with (pool := pool c); [done|lia|done].
        -- simpl. exists track. split; [done|]. right. exists ret.
           split; [|done]. apply elem_of_app. right. by apply list_elem_of_singleton.
      * apply Forall_forall. intros [i r] Hin.
        pose proof (proj1 (Forall_forall _ _) inv_resultCh0 _ Hin) as H.
        simpl in *. apply resultFor_snoc; [|done]. intros ->.
        apply elem_of_fst_occ in Hin. lia.
      * intros i Hin. destruct (inv_collected0 i Hin) as (r & Hr & Hres).
        exists r. split; [done|]. apply resultFor_snoc; [|done]. intros ->.
        apply occ_elem_of in Hin. lia.
      * intros i ret' Hin.
        pose proof (bind_insert_occ sending _ _ _
                      (WSend (i0, searchResult track ret)) i Ek) as H2.
        simpl in H2. rewrite occ_cons, occ_nil in H2.
        apply elem_of_app in Hin as [Hin|Hin%list_elem_of_singleton].
        -- specialize (inv_searched0 i ret' Hin). lia.
        -- simplify_eq. case_decide; [lia|done].
      * intros i r1 r2
          [H1|H1%list_elem_of_singleton]%elem_of_app
          [H2|H2%list_elem_of_singleton]%elem_of_app; simplify_eq.
        -- by eapply inv_searches0.
        -- by destruct (Hfresh r1).
        -- by destruct (Hfresh r2).
        -- done.
      * intros k' Hk'. destruct (decide (k' = k)) as [->|Hne].
        -- rewrite list_lookup_insert_eq in Hk'; [done|].
           by apply lookup_lt_Some in Ek.
        -- rewrite list_lookup_insert_ne in Hk' by done.
           by destruct (inv_exited0 k' Hk').
      * congruence.
      * done.
  - (* resultCh <- indexedResult *)
    rewrite Hopen in Hs. case_decide; [|done]. simplify_eq.
    simpl in Hw.
    split; simpl.
    * done.
    * by rewrite length_insert.
    * done.
    * done.
    * intros i. specialize (inv_census0 i).
      pose proof (bind_insert_occ selecting _ _ _ WRecv i Ek) as H1.
      pose proof (bind_insert_occ sending _ _ _ WRecv i Ek) as H2.
      simpl in H1, H2. rewrite fmap_app, occ_app, fmap_cons, fmap_nil.
      cbn [fst]. autorewrite with occ in *. lia.
    * pose proof (bind_insert_length selecting _ _ _ WRecv Ek) as H1.
      pose proof (bind_insert_length sending _ _ _ WRecv Ek) as H2.
      rewrite length_app. simpl in *. lia.
    * done.
    * by apply Forall_insert.
    * apply Forall_app. split; [done|]. by apply Forall_singleton.
    * done.
    * intros i ret Hin. specialize (inv_searched0 i ret Hin).
      pose proof (bind_insert_occ sending _ _ _ WRecv i Ek) as H2.
      simpl in H2. rewrite fmap_app, fmap_cons, fmap_nil.
      cbn [fst]. autorewrite with occ in *. lia.
    * done.
    * intros k' Hk'. destruct (decide (k' = k)) as [->|Hne].
      -- rewrite list_lookup_insert_eq in Hk'; [done|].
         by apply lookup_lt_Some in Ek.
      -- rewrite list_lookup_insert_ne in Hk' by done.
         by destruct (inv_exited0 k' Hk').
    * congruence.
    * intros Hm. destruct (inv_return0 Hm). congruence.
Qed.

Lemma forallb_exited pool :
  forallb exited pool = true ↔ Forall (λ w, w = WExit) pool.
Proof.
  rewrite forallb_forall, Forall_forall. setoid_rewrite <- list_elem_of_In.
  split; intros H w Hw; specialize (H w Hw); by destruct w.
Qed.

Lemma forallb_exited_false pool :
  forallb exited pool = false → ∃ k w, pool !! k = Some w ∧ w ≠ WExit.
Proof.
  induction pool as [|w ws IH]; simpl; [done|].
  destruct w; simpl; try (by intros _; eexists 0, _).
  intros (k & w & Hk & Hw)%IH. by exists (S k), w.
Qed.

Lemma stepCloser_Inv c c' : Inv c → stepCloser c = Some c' → Inv c'.
Proof.
  intros [] Hs. unfold stepCloser in Hs.
  destruct (mainPC c) as [i0| |] eqn:Em; [done| |];
    destruct (forallb exited (pool c)) eqn:Ef; try done;
    destruct (resultClosed c) eqn:Ec; try done; simplify_eq;
    apply forallb_exited in Ef.
  - split; simpl; rewrite ?Em; try done.
  - by destruct (inv_return0 eq_refl).
Qed.

Lemma stepCancel_Inv c c' : Inv c → stepCancel c = Some c' → Inv c'.
Proof.
  intros [] Hs. unfold stepCancel in Hs.
  destruct (ctxDone c); simplify_eq. by split.
Qed.

Lemma step_Inv l c c' : Inv c → step l c = Some c' → Inv c'.
Proof.
  intros HI Hs. unfold app.step in Hs.
  destruct (panicked c); [done|].
  destruct l; eauto using stepMain_Inv, stepWorker_Inv, stepCloser_Inv,
    stepCancel_Inv.
Qed.

Lemma exec_Inv sched c : Inv c → Inv (exec dest token tracks sched c).
Proof.
  revert c. induction sched as [|l sched IH]; intros c HI; [done|].
  simpl. apply IH. destruct (step l c) eqn:E; [by eapply step_Inv|done].
Qed.

(** *** Every step uses up the bound *)

Lemma step_stepsLeft l c c' :
  step l c = Some c' → stepsLeft tracks c' < stepsLeft tracks c.
Proof.
  unfold app.step. destruct (panicked c) eqn:Ep; [done|].
  unfold stepsLeft. rewrite Ep.
  destruct l as [|k| |]; simpl.
  - unfold stepMain. destruct (mainPC c) as [i0| |] eqn:Em; [| |done].
    + destruct (tracks !! i0) as [track|] eqn:Et.
      * apply lookup_lt_Some in Et.
        destruct (trackClosed c); [measure_done|].
        case_decide; measure_done.
      * destruct (trackClosed c); measure_done.
    + destruct (resultCh c) as [|[index result] rest] eqn:Er.
      * destruct (resultClosed c) eqn:Ec; measure_done.
      * case_decide; measure_done.
  - unfold stepWorker. destruct (pool c !! k) as [w|] eqn:Ek; [|done].
    destruct w as [|[i0 track]|[i0 track]|[i0 r]|]; [| | | |done].
    + destruct (trackCh c) as [|it rest] eqn:Et.
      * pose proof (sum_insert_weight _ _ _ WExit Ek).
        destruct (trackClosed c); measure_done.
      * pose proof (sum_insert_weight _ _ _ (WSelect it) Ek). measure_done.
    + destruct (ctxDone c) eqn:Ectx.
      * pose proof (sum_insert_weight _ _ _
                      (WSend (i0, cancelledResult track)) Ek).
        measure_done.
      * pose proof (sum_insert_weight _ _ _ (WSearch (i0, track)) Ek).
        measure_done.
    + destruct (callSearchTrack _ _ _ _ _) as [ret s].
      pose proof (sum_insert_weight _ _ _
                    (WSend (i0, searchResult track ret)) Ek).
      measure_done.
    + pose proof (sum_insert_weight _ _ _ WRecv Ek).
      destruct (resultClosed c) eqn:Ec; [measure_done|].
      case_decide; measure_done.
  - unfold stepCloser. destruct (mainPC c) eqn:Em; [done| |];
      destruct (forallb exited (pool c)); try done;
      destruct (resultClosed c) eqn:Ec; measure_done.
  - unfold stepCancel. destruct (ctxDone c) eqn:Ectx; measure_done.
Qed.

(** *** A call that has not returned can take a step *)

Lemma firstStep_Some ls c c' :
  firstStep dest token tracks ls c = Some c' → ∃ l, step l c = Some c'.
Proof.
  induction ls as [|l ls IH]; simpl; [done|].
  destruct (step l c) eqn:E; [|done]. intros. simplify_eq. eauto.
Qed.

Lemma firstStep_enabled ls l c :
  l ∈ ls → is_Some (step l c) → is_Some (firstStep dest token tracks ls c).
Proof.
  induction ls as [|l' ls IH]; simpl; [by intros ?%elem_of_nil|].
  intros [->|Hin]%elem_of_cons Hl.
  - destruct Hl as [c' ->]. eauto.
  - destruct (step l' c); eauto.
Qed.

Lemma Inv_progress c :
  Inv c → mainPC c ≠ MReturn →
  is_Some (firstStep dest token tracks (goroutines nworkers) c).
Proof.
  intros [] Hm.
  assert (HM : LMain ∈ goroutines nworkers)
    by (unfold goroutines; rewrite !elem_of_cons; auto).
  assert (HC : LCloser ∈ goroutines nworkers)
    by (unfold goroutines; rewrite !elem_of_cons; auto).
  assert (HW : ∀ k, k < nworkers → LWorker k ∈ goroutines nworkers).
  { intros k Hk. unfold goroutines. rewrite !elem_of_cons. do 2 right.
    apply list_elem_of_fmap. exists k. split; [done|].
    apply elem_of_seq. lia. }
  destruct (mainPC c) as [i0| |] eqn:Em; [| |done].
  - (* sending never blocks *)
    apply (firstStep_enabled _ LMain); [done|].
    unfold app.step, stepMain. rewrite inv_panicked0, Em.
    destruct inv_main0 as [Hi0 ->]. simpl in *.
    destruct (tracks !! i0) eqn:Et; [|eauto].
    apply lookup_lt_Some in Et.
    case_decide as Hcap; [eauto|]. unfold capacity in Hcap. lia.
  - destruct (resultCh c) as [|ir rest] eqn:Er.
    2:{ apply (firstStep_enabled _ LMain); [done|].
        unfold app.step, stepMain. rewrite inv_panicked0, Em, Er.
        destruct ir. case_decide; eauto. }
    destruct (resultClosed c) eqn:Ec.
    { apply (firstStep_enabled _ LMain); [done|].
      unfold app.step, stepMain. rewrite inv_panicked0, Em, Er, Ec. eauto. }
    destruct (forallb exited (pool c)) eqn:Ef.
    { apply (firstStep_enabled _ LCloser); [done|].
      unfold app.step, stepCloser. rewrite inv_panicked0, Em, Ef, Ec. eauto. }
    (* some worker has not left its loop *)
    destruct (forallb_exited_false _ Ef) as (k & w & Hk & Hw).
    apply (firstStep_enabled _ (LWorker k)).
    { apply HW. apply lookup_lt_Some in Hk. lia. }
    unfold app.step, stepWorker. rewrite inv_panicked0, Hk.
    destruct w as [|[i track]|[i track]|ir|]; [| | | |done].
    + destruct (trackCh c); [rewrite inv_main0|]; eauto.
    + destruct (ctxDone c); eauto.
    + destruct (callSearchTrack _ _ _ _ _). eauto.
    + rewrite Ec. case_decide as Hcap; [eauto|].
      pose proof (bind_lookup_length sending _ _ _ Hk) as Hl.
      destruct ir. simpl in Hl. unfold capacity in Hcap. rewrite Er in *.
      simpl in *. lia.
Qed.

Lemma step_returned l c c' :
  step l c = Some c' → mainPC c = MReturn → mainPC c' = MReturn.
Proof.
  unfold app.step. destruct (panicked c); [done|]. intros Hs Hm.
  destruct l as [|k| |]; simpl in Hs.
  - unfold stepMain in Hs. by rewrite Hm in Hs.
  - unfold stepWorker in Hs.
    repeat (case_match; simplify_eq/=); done.
  - unfold stepCloser in Hs. repeat (case_match; simplify_eq/=); done.
  - unfold stepCancel in Hs. repeat (case_match; simplify_eq/=); done.
Qed.

(** Run for as many steps as the bound allows, the goroutines come to
    rest with the caller at its [return]. *)
Lemma drain_returns fuel c :
  Inv c → stepsLeft tracks c ≤ fuel →
  Inv (drain dest token tracks nworkers fuel c)
  ∧ mainPC (drain dest token tracks nworkers fuel c) = MReturn.
Proof.
  revert c. induction fuel as [|fuel IH]; intros c HI Hfuel.
  - simpl. split; [done|].
    unfold stepsLeft in Hfuel. destruct (mainPC c); simpl in *; [lia|lia|done].
  - cbn [drain].
    destruct (firstStep dest token tracks (goroutines nworkers) c) as [c'|] eqn:E.
    + destruct (firstStep_Some _ _ _ E) as [l Hl].
      apply IH; [by eapply step_Inv|].
      pose proof (step_stepsLeft _ _ _ Hl). lia.
    + split; [done|].
      destruct (mainPC c) eqn:Em; [| |done];
        (destruct (Inv_progress c HI) as [c' Hc']; [by rewrite Em|congruence]).
Qed.

Lemma finalConfig_returns sched ctx s :
  let c := finalConfig dest token tracks nworkers sched ctx s in
  Inv c ∧ mainPC c = MReturn.
Proof.
  apply drain_returns; [|done]. apply exec_Inv, init_Inv.
Qed.

(** At the return every index has been collected. *)
Lemma Inv_returned c i track :
  1 ≤ nworkers → Inv c → mainPC c = MReturn →
  tracks !! i = Some track →
  ∃ r, results c !! i = Some r ∧ resultFor (searches c) i r.
Proof.
  intros Hn [] Hm Hi.
  destruct (inv_return0 Hm) as [Hclosed Hempty].
  destruct (inv_resultClosed0 Hclosed) as [Hall _].
  assert (Hk : pool c !! 0 = Some WExit).
  { destruct (pool c) as [|w ws] eqn:Ep; simpl in *; [lia|].
    by apply Forall_cons in Hall as [-> _]. }
  destruct (inv_exited0 0 Hk) as [_ Hch].
  specialize (inv_census0 i).
  rewrite Hm, Hch, Hempty, !bind_exited in inv_census0 by done.
  simpl in inv_census0. apply lookup_lt_Some in Hi.
  case_decide; [|lia].
  apply inv_collected0, occ_elem_of. autorewrite with occ in *. lia.
Qed.

End Invariant.

Section Service.
Context {W : Type}.
Implicit Types (dest source : ports.MusicProvider W) (tracks : list Track).

(** With at least one worker the call returns, whatever the schedule, and
    returns what the goroutines left in [results]. *)
Lemma searchTracksParallel_returns dest token tracks nworkers sched ctx (s : State W) :
  let c := finalConfig dest token tracks nworkers sched ctx s in
  searchTracksParallel dest token tracks nworkers sched ctx s
  = Some (results c, st c, ctxDone c)
  ∧ length (results c) = length tracks
  ∧ (1 ≤ nworkers → ∀ i track, tracks !! i = Some track →
       ∃ r, results c !! i = Some r ∧ resultFor tracks (searches c) i r)
  ∧ (∀ i r1 r2, (i, r1) ∈ searches c → (i, r2) ∈ searches c → r1 = r2).
Proof.
  intros c.
  destruct (finalConfig_returns dest token tracks nworkers sched ctx s) as [HI Hm].
  fold c in HI, Hm. unfold searchTracksParallel. fold c. rewrite Hm.
  rewrite (inv_panicked _ _ _ HI).
  split; [done|]. split; [apply (inv_results _ _ _ HI)|].
  split; [|apply (inv_searches _ _ _ HI)].
  intros Hn i track Hi. by eapply Inv_returned.
Qed.

Lemma tally_counts results matchedIDs matched failed :
  let '(_, matched', failed') := tally results matchedIDs matched failed in
  matched' + failed' = matched + failed + length results.
Proof.
  revert matchedIDs matched failed.
  induction results as [|r rs IH]; intros ids m f; simpl; [lia|].
  destruct (Status r); destruct (MatchedTrack r) as [t|];
    try (specialize (IH ids m (S f));
         destruct (tally rs ids m (S f)) as [[? ?] ?]; lia).
  specialize (IH (ids ++ [ExternalID t]) (S m) f).
  destruct (tally rs _ _ _) as [[? ?] ?]. lia.
Qed.

(** What a successful call went through. *)
Lemma MigratePlaylist_success (svc : Service W) sched ctx req
    (st0 st' : State W) ores :
  MigratePlaylist svc sched ctx req st0 = Some ((ores, None), st') →
  ∃ source dest tracks st1 res,
    ores = Some res
    ∧ adapters.Get (registry svc) (SourceProvider req) = (Some source, None)
    ∧ adapters.Get (registry svc) (DestProvider req) = (Some dest, None)
    ∧ callGetPlaylistTracks source ctx (SourceToken req) (PlaylistID req) st0
      = ((tracks, None), st1)
    ∧ tracks ≠ []
    ∧ TrackResults res
      = results (finalConfig dest (DestToken req) tracks
                   (Z.to_nat (workers svc)) sched ctx st1)
    ∧ TotalTracks res = length tracks
    ∧ MatchedTracks res + FailedTracks res = length (TrackResults res).
Proof.
  unfold MigratePlaylist.
  destruct (adapters.Get (registry svc) (SourceProvider req)) as [osrc [e|]] eqn:Es;
    cbn beta iota zeta; [done|].
  destruct (adapters.Get (registry svc) (DestProvider req)) as [odst [e|]] eqn:Ed;
    cbn beta iota zeta; [done|].
  destruct osrc as [source|], odst as [dest|]; try done.
  destruct (callGetPlaylistTracks source _ _ _ _) as [[tracks [e|]] st1] eqn:Ef;
    cbn beta iota zeta; [done|].
  case_decide as Hlen; [done|].
  pose proof (searchTracksParallel_returns dest (DestToken req) tracks
                (Z.to_nat (workers svc)) sched ctx st1) as (Hr & _).
  rewrite Hr. cbn beta iota zeta.
  pose proof (tally_counts
                (results (finalConfig dest (DestToken req) tracks
                   (Z.to_nat (workers svc)) sched ctx st1))
                [] 0 0) as Ht.
  destruct (tally _ _ _ _) as [[ids m] f]. cbn beta iota zeta in Ht |- *.
  destruct (callCreatePlaylist _ _ _ _ _ _) as [[pid [e|]] st3];
    cbn beta iota zeta; [done|].
  destruct (if decide (0 < length ids) then _ else _) as [[e|] st4];
    cbn beta iota zeta; [done|].
  intros [= <- <-].
  exists source, dest, tracks, st1. eexists. split; [done|].
  split; [done|]. split; [done|]. split; [done|].
  split; [by destruct tracks|]. split; [done|]. split; [done|].
  cbn in Ht |- *. lia.
Qed.

Lemma NewService_workers reg (nw : Z) :
  (1 ≤ workers (NewService (W:=W) reg nw))%Z.
Proof. unfold NewService. simpl. destruct (Z.ltb_spec nw 1); lia. Qed.

(** Past the fetch of a non-empty playlist the call returns, and only the
    creation of the playlist or the bulk add can make it return an error. *)
Lemma MigratePlaylist_after_fetch (svc : Service W) sched ctx req
    (st0 st1 : State W) source dest tracks :
  adapters.Get (registry svc) (SourceProvider req) = (Some source, None) →
  adapters.Get (registry svc) (DestProvider req) = (Some dest, None) →
  callGetPlaylistTracks source ctx (SourceToken req) (PlaylistID req) st0
  = ((tracks, None), st1) →
  tracks ≠ [] →
  let c := finalConfig dest (DestToken req) tracks (Z.to_nat (workers svc))
             sched ctx st1 in
  ∃ out st',
    MigratePlaylist svc sched ctx req st0 = Some (out, st')
    ∧ ((∃ res, out = (Some res, None) ∧ TrackResults res = results c)
       ∨ (∃ name description w cause,
            (ports.CreatePlaylist dest (ctxDone c) (DestToken req)
               name description w).1.2 = Some cause
            ∧ out = (None, Some ("failed to create destination playlist: "
                                 +:+ cause)))
       ∨ (∃ playlistID ids w cause,
            (ports.AddTracksToPlaylist dest (ctxDone c) (DestToken req)
               playlistID ids w).1 = Some cause
            ∧ out = (None, Some ("failed to add tracks to destination playlist: "
                                 +:+ cause)))).
Proof.
  intros Hs Hd Hf Hne c. unfold MigratePlaylist.
  rewrite Hs, Hd. cbn beta iota zeta. rewrite Hf. cbn beta iota zeta.
  case_decide as Hlen; [by destruct tracks|].
  pose proof (searchTracksParallel_returns dest (DestToken req) tracks
                (Z.to_nat (workers svc)) sched ctx st1) as (Hr & _).
  rewrite Hr. fold c. cbn beta iota zeta.
  destruct (tally _ _ _ _) as [[ids m] f]. cbn beta iota zeta.
  unfold callCreatePlaylist.
  destruct (ports.CreatePlaylist dest _ _ _ _ _) as [[pid [e|]] w3] eqn:Ec;
    cbn beta iota zeta.
  { eexists _, _. split; [done|]. right. left.
    eexists _, _, _, e. by rewrite Ec. }
  case_decide.
  - unfold callAddTracksToPlaylist.
    destruct (ports.AddTracksToPlaylist dest _ _ _ _ _) as [[e|] w4] eqn:Ea;
      cbn beta iota zeta.
    + eexists _, _. split; [done|]. right. right.
      eexists _, _, _, e. by rewrite Ea.
    + eexists _, _. split; [done|]. left. eauto.
  - eexists _, _. split; [done|]. left. eauto.
Qed.

End Service.

(** ** C1 *)

(** C1: for a track list of length N >= 1 and a worker count W with
    1 <= W <= N, whatever the order in which the goroutines run,
    searchTracksParallel returns a slice of length N whose i-th entry has the
    i-th input track as its SourceTrack; a successful MigratePlaylist returns
    that slice as TrackResults. *)
Theorem searchTracksParallel_order_preserved {W : Type}
    (dest : ports.MusicProvider W) (token : string) (tracks : list Track)
    (nworkers : nat) (sched : list Label) (ctx : ports.Context) (s : State W) :
  1 ≤ length tracks → 1 ≤ nworkers ≤ length tracks →
  (∃ results s' ctx',
     searchTracksParallel dest token tracks nworkers sched ctx s
     = Some (results, s', ctx')
     ∧ length results = length tracks
     ∧ ∀ i track, tracks !! i = Some track →
         SourceTrack <$> results !! i = Some track)
  ∧ ∀ (reg : adapters.ProviderRegistry W) req (st0 st' : State W) res,
      MigratePlaylist {| registry := reg; workers := Z.of_nat nworkers |}
        sched ctx req st0 = Some ((Some res, None), st') →
      ∀ (source : ports.MusicProvider W) fetched s1,
        adapters.Get reg (SourceProvider req) = (Some source, None) →
        callGetPlaylistTracks source ctx (SourceToken req) (PlaylistID req) st0
        = ((fetched, None), s1) →
        length (TrackResults res) = length fetched
        ∧ ∀ i track, fetched !! i = Some track →
            SourceTrack <$> TrackResults res !! i = Some track.
Proof.
  intros HN HW. split.
  - destruct (searchTracksParallel_returns dest token tracks nworkers sched ctx s)
      as (Hr & Hlen & Hall & _).
    eexists _, _, _. split; [exact Hr|]. split; [done|].
    intros i track Hi. destruct (Hall (proj1 HW) i track Hi) as (r & -> & Hres).
    simpl. f_equal. by eapply resultFor_SourceTrack.
  - intros reg req st0 st' res Hrun source fetched s1 Hsrc Hfetch.
    apply MigratePlaylist_success in Hrun
      as (source' & dest' & tracks' & st1 & res' & [= <-] & Hs & Hd & Hf & Hne & Htr & _).
    cbn [registry workers] in *. rewrite Nat2Z.id in Htr.
    rewrite Hs in Hsrc. injection Hsrc as <-.
    rewrite Hf in Hfetch. injection Hfetch as <- <-.
    destruct (searchTracksParallel_returns dest' (DestToken req) tracks'
                nworkers sched ctx st1) as (_ & Hlen & Hall & _).
    rewrite Htr. split; [done|].
    intros i track Hi.
    destruct (Hall (proj1 HW) i track Hi) as (r & -> & Hres).
    simpl. f_equal. by eapply resultFor_SourceTrack.
Qed.

(** ** Fixtures: the providers of the service tests *)

Lemma searchTracksParallel_order_preserved_witness :
  ∃ results s' ctx',
    searchTracksParallel (mockProvider "dest" [] None None) "t2" demoTracks 2
      demoSchedule false demoState = Some (results, s', ctx')
    ∧ length results = 3
    ∧ ∀ i track, demoTracks !! i = Some track →
        SourceTrack <$> results !! i = Some track.
Proof.
  apply (searchTracksParallel_order_preserved (mockProvider "dest" [] None None)
           "t2" demoTracks 2 demoSchedule false demoState);
    simpl; lia.
Defined.

(** ** C2 *)

(** C2: a MigratePlaylist call that succeeds returns a result with
    MatchedTracks + FailedTracks = TotalTracks = len(TrackResults), where
    TotalTracks is the number of tracks fetched from the source playlist. *)
Theorem migration_counts_add_up {W : Type} (svc : Service W)
    (sched : list Label) (ctx : ports.Context) (req : MigrationRequest)
    (st0 st' : State W) (ores : option MigrationResult) :
  MigratePlaylist svc sched ctx req st0 = Some ((ores, None), st') →
  ∃ res, ores = Some res
    ∧ MatchedTracks res + FailedTracks res = TotalTracks res
    ∧ TotalTracks res = length (TrackResults res)
    ∧ ∃ source fetched st1,
        adapters.Get (registry svc) (SourceProvider req) = (Some source, None)
        ∧ callGetPlaylistTracks source ctx (SourceToken req) (PlaylistID req) st0
          = ((fetched, None), st1)
        ∧ TotalTracks res = length fetched.
Proof.
  intros Hrun.
  apply MigratePlaylist_success in Hrun
    as (source & dest & tracks & st1 & res & -> & Hs & Hd & Hf & Hne & Htr & Htot & Hsum).
  exists res. split; [done|].
  assert (Hlen : length (TrackResults res) = length tracks).
  { rewrite Htr.
    by destruct (searchTracksParallel_returns dest (DestToken req) tracks
                   (Z.to_nat (workers svc)) sched ctx st1) as (_ & ? & _). }
  split; [lia|]. split; [lia|]. by exists source, tracks, st1.
Qed.

Lemma migration_counts_add_up_witness :
  ∃ res st',
    MigratePlaylist (NewService (demoRegistry demoTracks) 2) demoSchedule false
      demoRequest demoState = Some ((Some res, None), st')
    ∧ MatchedTracks res + FailedTracks res = TotalTracks res
    ∧ TotalTracks res = length (TrackResults res)
    ∧ TotalTracks res = 3.
Proof.
  destruct (MigratePlaylist (NewService (demoRegistry demoTracks) 2) demoSchedule
              false demoRequest demoState) as [[[ores err] st']|] eqn:E;
    [|by vm_compute in E].
  assert (err = None) as -> by (vm_compute in E; congruence).
  destruct (migration_counts_add_up _ _ _ _ _ _ _ E)
    as (res & -> & H1 & H2 & (source & fetched & st1 & Hs & Hf & H3)).
  exists res, st'. split; [done|]. split; [done|]. split; [done|].
  vm_compute in Hs. injection Hs as <-. vm_compute in Hf.
  injection Hf as <- <-. done.
Defined.

(** ** C5 *)

(** C5: a search that returns an error leaves a TrackResult with status
    "error" and the error's message; a search that returns no candidate and
    no error leaves status "not_found" and no message; and the call goes on:
    it returns, and returns a MigrationResult holding these entries unless
    the creation of the destination playlist or the bulk add itself fails -
    no function-level error comes from a search. *)
Theorem search_failure_is_per_track {W : Type} (svc : Service W)
    (sched : list Label) (ctx : ports.Context) (req : MigrationRequest)
    (st0 st1 : State W) (source dest : ports.MusicProvider W)
    (tracks : list Track) :
  (1 ≤ workers svc)%Z →
  adapters.Get (registry svc) (SourceProvider req) = (Some source, None) →
  adapters.Get (registry svc) (DestProvider req) = (Some dest, None) →
  callGetPlaylistTracks source ctx (SourceToken req) (PlaylistID req) st0
  = ((tracks, None), st1) →
  tracks ≠ [] →
  let c := finalConfig dest (DestToken req) tracks (Z.to_nat (workers svc))
             sched ctx st1 in
  (∀ i track matched score e,
     tracks !! i = Some track → (i, (matched, score, Some e)) ∈ searches c →
     results c !! i
     = Some {| SourceTrack := track; MatchedTrack := None;
               Status := TrackStatusError; ConfidenceScore := f64.zero;
               Error := e |})
  ∧ (∀ i track score,
       tracks !! i = Some track → (i, (None, score, None)) ∈ searches c →
       results c !! i
       = Some {| SourceTrack := track; MatchedTrack := None;
                 Status := TrackStatusNotFound; ConfidenceScore := f64.zero;
                 Error := "" |})
  ∧ ∃ out st',
      MigratePlaylist svc sched ctx req st0 = Some (out, st')
      ∧ ((∃ res, out = (Some res, None) ∧ TrackResults res = results c)
         ∨ (∃ name description w cause,
              (ports.CreatePlaylist dest (ctxDone c) (DestToken req)
                 name description w).1.2 = Some cause
              ∧ out = (None, Some ("failed to create destination playlist: "
                                   +:+ cause)))
         ∨ (∃ playlistID ids w cause,
              (ports.AddTracksToPlaylist dest (ctxDone c) (DestToken req)
                 playlistID ids w).1 = Some cause
              ∧ out = (None, Some ("failed to add tracks to destination playlist: "
                                   +:+ cause)))).
Proof.
  intros Hw Hs Hd Hf Hne c.
  destruct (searchTracksParallel_returns dest (DestToken req) tracks
              (Z.to_nat (workers svc)) sched ctx st1) as (_ & _ & Hall & Hfun).
  fold c in Hall, Hfun.
  assert (Hres : ∀ i track ret, tracks !! i = Some track →
            (i, ret) ∈ searches c →
            results c !! i = Some (searchResult track ret)).
  { intros i track ret Hi Hin.
    destruct (Hall ltac:(lia) i track Hi) as (r & Hr & t & Ht & Hcase).
    rewrite Hr. f_equal. simplify_eq.
    destruct Hcase as [[_ Hno]|(ret' & Hin' & ->)]; [by destruct (Hno ret)|].
    by rewrite (Hfun i ret ret'). }
  split; [|split].
  - intros i track matched score e Hi Hin. by rewrite (Hres i track _ Hi Hin).
  - intros i track score Hi Hin. by rewrite (Hres i track _ Hi Hin).
  - exact (MigratePlaylist_after_fetch svc sched ctx req st0 st1 source dest
             tracks Hs Hd Hf Hne).
Qed.

Lemma search_failure_is_per_track_witness :
  let c := finalConfig (mockProvider "dest" [] None None) "t2" demoTracks 2
             demoSchedule false demoFetched in
  results c !! 2
  = Some {| SourceTrack := demoTrack "Track C" "Artist C" "";
            MatchedTrack := None; Status := TrackStatusError;
            ConfidenceScore := f64.zero; Error := "search quota exceeded" |}
  ∧ results c !! 1
    = Some {| SourceTrack := demoTrack "Track B" "Artist B" "";
              MatchedTrack := None; Status := TrackStatusNotFound;
              ConfidenceScore := f64.zero; Error := "" |}.
Proof.
  intros c.
  destruct (search_failure_is_per_track
              (NewService (demoRegistry demoTracks) 2) demoSchedule false
              demoRequest demoState demoFetched
              (mockProvider "source" demoTracks None None)
              (mockProvider "dest" [] None None) demoTracks)
    as (Herr & Hnone & _);
    [by vm_compute | by vm_compute | by vm_compute | by vm_compute | done |].
  split.
  - apply (Herr 2 _ None f64.zero "search quota exceeded"); [done|].
    vm_compute. repeat constructor.
  - apply (Hnone 1 _ f64.zero); [done|]. vm_compute. repeat constructor.
Defined.

(** ** C6 *)

(** C6: when the source playlist resolves to no track, MigratePlaylist fails
    with the error "source playlist is empty" after the one call that fetched
    the tracks: no SearchTrack, CreatePlaylist or AddTracksToPlaylist is
    invoked. *)
Theorem empty_source_fails_before_destination {W : Type} (svc : Service W)
    (sched : list Label) (ctx : ports.Context) (req : MigrationRequest)
    (st0 st1 : State W) (source dest : ports.MusicProvider W) :
  adapters.Get (registry svc) (SourceProvider req) = (Some source, None) →
  adapters.Get (registry svc) (DestProvider req) = (Some dest, None) →
  callGetPlaylistTracks source ctx (SourceToken req) (PlaylistID req) st0
  = (([], None), st1) →
  MigratePlaylist svc sched ctx req st0
  = Some ((None, Some "source playlist is empty"), st1)
  ∧ calls st1
    = calls st0 ++ [CallGetPlaylistTracks (ports.Name source) (SourceToken req)
                      (PlaylistID req)]
  ∧ Forall (λ c, isDestinationCall c = false)
      (drop (length (calls st0)) (calls st1)).
Proof.
  intros Hs Hd Hf.
  assert (Hcalls : calls st1
    = calls st0 ++ [CallGetPlaylistTracks (ports.Name source) (SourceToken req)
                      (PlaylistID req)]).
  { unfold callGetPlaylistTracks in Hf.
    destruct (ports.GetPlaylistTracks source _ _ _ _) as [ret w].
    by injection Hf as _ <-. }
  split; [|split; [done|]].
  - unfold MigratePlaylist. rewrite Hs, Hd. cbn beta iota zeta.
    by rewrite Hf.
  - rewrite Hcalls, drop_app_length. by repeat constructor.
Qed.

Lemma empty_source_fails_before_destination_witness :
  ∃ st1,
    MigratePlaylist (NewService (demoRegistry []) 2) demoSchedule false
      demoRequest demoState
    = Some ((None, Some "source playlist is empty"), st1)
    ∧ calls st1 = [CallGetPlaylistTracks "source" "t1" "pl-1"].
Proof.
  eexists.
  destruct (empty_source_fails_before_destination
              (NewService (demoRegistry []) 2) demoSchedule false demoRequest
              demoState demoFetched
              (mockProvider "source" [] None None)
              (mockProvider "dest" [] None None))
    as (Hrun & Hcalls & _);
    [by vm_compute | by vm_compute | by vm_compute |].
  split; [exact Hrun | exact Hcalls].
Defined.

(* ================================================================== *)
(** * Further properties *)

(** ** The searches of a call *)

Section Accounting.
Context {W : Type}.
Variable dest : ports.MusicProvider W.
Variable token : string.
Variable tracks : list Track.
Variable nworkers : nat.

Local Abbreviation Config := (Config W).
Local Abbreviation step := (step dest token tracks).
Local Abbreviation Inv := (Inv tracks nworkers).
Local Abbreviation searchSeq := (searchSeq dest token tracks).
Local Abbreviation Acc := (Acc dest token tracks nworkers).
Implicit Types (c : Config) (s : State W).

Lemma searchSeqOn_false order s :
  searchSeqOn dest false token tracks order s = searchSeq order s.
Proof.
  revert s. induction order as [|i order IH]; intros s; simpl; [done|].
  destruct (tracks !! i) as [track|]; [|apply IH].
  destruct (callSearchTrack dest false token track s) as [ret s'].
  by rewrite IH.
Qed.

Lemma searchSeqOn_app ctx order1 order2 s :
  searchSeqOn dest ctx token tracks (order1 ++ order2) s
  = let '(log1, s1) := searchSeqOn dest ctx token tracks order1 s in
    let '(log2, s2) := searchSeqOn dest ctx token tracks order2 s1 in
    (log1 ++ log2, s2).
Proof.
  revert s. induction order1 as [|i order1 IH]; intros s; simpl.
  - by destruct (searchSeqOn dest ctx token tracks order2 s).
  - destruct (tracks !! i) as [track|]; [|apply IH].
    destruct (callSearchTrack dest ctx token track s) as [ret s'].
    rewrite IH. destruct (searchSeqOn dest ctx token tracks order1 s')
      as [log1 s1].
    by destruct (searchSeqOn dest ctx token tracks order2 s1).
Qed.

Lemma searchSeq_app order1 order2 s :
  searchSeq (order1 ++ order2) s
  = let '(log1, s1) := searchSeq order1 s in
    let '(log2, s2) := searchSeq order2 s1 in
    (log1 ++ log2, s2).
Proof.
  rewrite <- !searchSeqOn_false, searchSeqOn_app.
  destruct (searchSeqOn dest false token tracks order1 s) as [log1 s1].
  by rewrite <- searchSeqOn_false.
Qed.

Lemma searchCalls_app provider order1 order2 :
  searchCalls provider token tracks (order1 ++ order2)
  = searchCalls provider token tracks order1
    ++ searchCalls provider token tracks order2.
Proof. unfold searchCalls. by rewrite omap_app. Qed.

Lemma searchSeqOn_calls ctx order s :
  calls (searchSeqOn dest ctx token tracks order s).2
  = calls s ++ searchCalls (ports.Name dest) token tracks order.
Proof.
  revert s. induction order as [|i order IH]; intros s; simpl.
  - by rewrite app_nil_r.
  - unfold searchCalls. simpl. destruct (tracks !! i) as [track|]; simpl; [|apply IH].
    unfold callSearchTrack.
    destruct (ports.SearchTrack dest ctx token track (world s)) as [ret w].
    specialize (IH {| world := w;
                      calls := calls s ++ [CallSearchTrack (ports.Name dest) token track] |}).
    destruct (searchSeqOn dest ctx token tracks order _) as [log s''].
    simpl in *. rewrite IH. by rewrite <- app_assoc.
Qed.

Lemma searchSeq_calls order s :
  calls (searchSeq order s).2
  = calls s ++ searchCalls (ports.Name dest) token tracks order.
Proof. rewrite <- searchSeqOn_false. apply searchSeqOn_calls. Qed.

(** *** What a step does to the searches *)

Lemma past_insert pool k w w' i :
  pool !! k = Some w → sending w = [] → sending w' = [] →
  occ i (<[k := w']> pool ≫= sending) = occ i (pool ≫= sending).
Proof.
  intros Hk Hw Hw'. pose proof (bind_insert_occ sending _ _ _ w' i Hk) as H.
  rewrite Hw, Hw' in H. autorewrite with occ in H. lia.
Qed.

Lemma searching_insert pool k w w' :
  pool !! k = Some w → searching w = [] → searching w' = [] →
  length (<[k := w']> pool ≫= searching) = length (pool ≫= searching).
Proof.
  intros Hk Hw Hw'. pose proof (bind_insert_length searching _ _ _ w' Hk) as H.
  rewrite Hw, Hw' in H. simpl in H. lia.
Qed.

Lemma length_searching_le (pool : list Worker) :
  length (pool ≫= searching) ≤ length pool.
Proof.
  induction pool as [|w pool IH]; [done|]. cbn. rewrite length_app.
  destruct w as [| |[i t]| |]; simpl; lia.
Qed.

Lemma step_searches l c c' :
  Inv c → step l c = Some c' →
  (searches c' = searches c ∧ st c' = st c
   ∧ (ctxDone c' = false → ctxDone c = false ∧ ∀ i, past c' i = past c i)
   ∧ (ctxDone c = true →
      ctxDone c' = true
      ∧ length (pool c' ≫= searching) = length (pool c ≫= searching)))
  ∨ (∃ i track ret s,
       ctxDone c' = ctxDone c
       ∧ tracks !! i = Some track ∧ (i ∉ (searches c).*1)
       ∧ callSearchTrack dest (ctxDone c) token track (st c) = (ret, s)
       ∧ searches c' = searches c ++ [(i, ret)] ∧ st c' = s
       ∧ S (length (pool c' ≫= searching)) = length (pool c ≫= searching)
       ∧ ∀ j, past c' j = past c j + (if decide (i = j) then 1 else 0)).
Proof.
  intros HI. unfold app.step. destruct (panicked c); [done|].
  destruct l as [|k| |]; simpl.
  - (* the caller *)
    unfold stepMain. intros Hs. left.
    destruct (mainPC c) as [i0| |]; [| |done].
    + destruct (tracks !! i0); repeat (case_match; simplify_eq/=); done.
    + destruct (resultCh c) as [|[index result] rest] eqn:Er.
      * destruct (resultClosed c); simplify_eq/=. done.
      * case_decide; simplify_eq/=; [|done].
        split; [done|]. split; [done|]. split; [|done]. intros Hd.
        split; [done|].
        intros i. unfold past. simpl. rewrite Er, fmap_cons. cbn [fst].
        autorewrite with occ. lia.
  - (* a worker *)
    unfold stepWorker. intros Hs.
    destruct (pool c !! k) as [w|] eqn:Ek; [|done].
    destruct w as [|[i0 track]|[i0 track]|[i0 r]|]; [| | | |done].
    + left. destruct (trackCh c) as [|it rest].
      * destruct (trackClosed c); simplify_eq/=.
        split; [done|]. split; [done|]. split.
        -- intros Hd. split; [done|]. intros i. unfold past. simpl.
           by rewrite (past_insert _ _ _ _ i Ek).
        -- intros Hd. split; [done|]. by rewrite (searching_insert _ _ _ _ Ek).
      * simplify_eq/=.
        split; [done|]. split; [done|]. split.
        -- intros Hd. split; [done|]. intros i. unfold past. simpl.
           by rewrite (past_insert _ _ _ _ i Ek).
        -- intros Hd. split; [done|]. by rewrite (searching_insert _ _ _ _ Ek).
    + left. destruct (ctxDone c) eqn:Ectx; simplify_eq/=.
      * rewrite Ectx. split; [done|]. split; [done|]. split; [done|].
        intros _. split; [done|]. by rewrite (searching_insert _ _ _ _ Ek).
      * split; [done|]. split; [done|]. split; [|done].
        intros _. split; [done|]. intros i. unfold past. simpl.
        by rewrite (past_insert _ _ _ _ i Ek).
    + right.
      destruct (callSearchTrack dest (ctxDone c) token track (st c))
        as [ret s] eqn:Ec.
      simplify_eq/=. exists i0, track, ret, s.
      pose proof (Forall_lookup_1 _ _ _ _ (inv_workers _ _ _ HI) Ek) as Hw.
      simpl in Hw.
      split; [done|]. split; [done|]. split.
      { intros Hin. apply list_elem_of_fmap in Hin as ([j ret'] & -> & Hin).
        simpl in *.
        pose proof (inv_searched _ _ _ HI _ _ Hin) as H1.
        pose proof (inv_census _ _ _ HI j) as H2.
        pose proof (bind_lookup_occ selecting _ _ _ j Ek) as H3.
        simpl in H3. autorewrite with occ in H3.
        case_decide; [|done]. case_decide; lia. }
      split; [done|]. split; [done|]. split; [done|]. split.
      { pose proof (bind_insert_length searching _ _ _
                      (WSend (i0, searchResult track ret)) Ek) as H.
        simpl in H. lia. }
      intros j. unfold past. simpl.
      pose proof (bind_insert_occ sending _ _ _
                    (WSend (i0, searchResult track ret)) j Ek) as H.
      simpl in H. autorewrite with occ in H. lia.
    + left. destruct (resultClosed c); simplify_eq/=; [done|].
      case_decide; simplify_eq/=.
      split; [done|]. split; [done|]. split.
      * intros Hd. split; [done|].
        intros i. unfold past. simpl.
        pose proof (bind_insert_occ sending _ _ _ WRecv i Ek) as Hocc.
        simpl in Hocc. rewrite fmap_app. simpl. autorewrite with occ in *. lia.
      * intros Hd. split; [done|]. by rewrite (searching_insert _ _ _ _ Ek).
  - (* the closing goroutine *)
    unfold stepCloser. intros Hs. left.
    repeat (case_match; simplify_eq/=); done.
  - (* cancellation *)
    unfold stepCancel. intros Hs. left.
    destruct (ctxDone c); simplify_eq/=. done.
Qed.

Lemma init_Acc ctx s : Acc s (init tracks nworkers ctx s).
Proof.
  split; simpl; [|constructor|].
  - exists [], []. simpl. rewrite bind_replicate_recv by done. simpl.
    repeat split; lia.
  - intros _ i. unfold past. simpl.
    rewrite bind_replicate_recv by done. autorewrite with occ. lia.
Qed.

Lemma step_Acc s0 l c c' :
  Inv c → Acc s0 c → step l c = Some c' → Acc s0 c'.
Proof.
  intros HI [Hseq Hnd Hlive] Hs.
  pose proof (step_Inv _ _ _ _ _ _ _ HI Hs) as HI'.
  destruct Hseq as (before & after & Hord & Hrun & Hnone & Hbound).
  destruct (step_searches _ _ _ HI Hs)
    as [(Hlog & Hst & Hctx & Hkeep)
       |(i & track & ret & s & Hc' & Hi & Hnew & Hcall & Hlog & Hst
         & Hsearching & Hpast)].
  - split; rewrite ?Hlog, ?Hst; [|done|].
    + exists before, after. split; [done|]. split; [done|]. split.
      * intros Hd. apply Hnone. by apply Hctx.
      * destruct (ctxDone c) eqn:Ed.
        -- destruct (Hkeep eq_refl) as [_ ->]. done.
        -- rewrite (Hnone eq_refl). simpl.
           rewrite <- (inv_pool _ _ _ HI'). apply length_searching_le.
    + intros Hd. destruct (Hctx Hd) as [Hd0 Hp]. intros i. rewrite Hp.
      by apply Hlive.
  - split; rewrite Hlog, ?Hst, ?fmap_app; simpl.
    + destruct (ctxDone c) eqn:Ed.
      * (* a search past the select of a context cancelled since *)
        exists before, (after ++ [i]).
        split; [by rewrite Hord, <- app_assoc|]. split; [|split].
        -- destruct (searchSeq before s0) as [log1 s1].
           rewrite (searchSeqOn_app true).
           destruct (searchSeqOn dest true token tracks after s1)
             as [log2 s2].
           destruct Hrun as [Hl Hs2]. simpl. rewrite Hi.
           rewrite <- Hs2, Hcall. rewrite Hl, <- app_assoc. done.
        -- congruence.
        -- rewrite length_app. simpl. lia.
      * (* a search on the live context *)
        rewrite (Hnone eq_refl) in *. rewrite app_nil_r in Hord.
        exists (before ++ [i]), [].
        split; [by rewrite Hord, app_nil_r|]. split; [|split].
        -- rewrite searchSeq_app.
           destruct (searchSeq before s0) as [log1 s1].
           simpl in Hrun. destruct Hrun as [Hl Hs2].
           rewrite app_nil_r in Hl. simpl. rewrite Hi.
           rewrite <- Hs2, Hcall. simpl. rewrite app_nil_r, Hl. done.
        -- done.
        -- simpl. rewrite <- (inv_pool _ _ _ HI'). apply length_searching_le.
    + apply NoDup_app. split; [done|]. split; [|apply NoDup_singleton].
      intros j Hj ->%list_elem_of_singleton. done.
    + intros Hd j. rewrite Hpast. rewrite Hc' in Hd. case_decide as Hij.
      * subst. intros _. apply elem_of_app. right. by apply list_elem_of_singleton.
      * intros Hj. apply elem_of_app. left. apply Hlive; [done|lia].
Qed.

Lemma exec_Acc s0 sched c :
  Inv c → Acc s0 c → Acc s0 (exec dest token tracks sched c).
Proof.
  revert c. induction sched as [|l sched IH]; intros c HI HA; [done|].
  simpl. destruct (step l c) as [c'|] eqn:E; simpl; [|by apply IH].
  apply IH; [by eapply step_Inv | by eapply step_Acc].
Qed.

Lemma drain_Acc s0 fuel c :
  Inv c → Acc s0 c → Acc s0 (drain dest token tracks nworkers fuel c).
Proof.
  revert c. induction fuel as [|fuel IH]; intros c HI HA; [done|].
  cbn [drain].
  destruct (firstStep dest token tracks (goroutines nworkers) c) as [c'|] eqn:E;
    [|done].
  destruct (firstStep_Some _ _ _ _ _ _ E) as [l Hl].
  apply IH; [by eapply step_Inv | by eapply step_Acc].
Qed.

Lemma finalConfig_Acc sched ctx s :
  Acc s (finalConfig dest token tracks nworkers sched ctx s).
Proof.
  unfold finalConfig. apply drain_Acc.
  - apply exec_Inv, init_Inv.
  - apply exec_Acc; [apply init_Inv | apply init_Acc].
Qed.

(** *** The context *)

Lemma step_ctxDone l c c' :
  step l c = Some c' → l ≠ LCancel → ctxDone c' = ctxDone c.
Proof.
  unfold app.step. destruct (panicked c); [done|].
  destruct l as [|k| |]; simpl; intros Hs Hl; [| | |done].
  - unfold stepMain in Hs.
    destruct (mainPC c) as [i0| |]; [| |done];
      repeat (case_match; simplify_eq/=); done.
  - unfold stepWorker in Hs.
    repeat (case_match; simplify_eq/=); done.
  - unfold stepCloser in Hs. repeat (case_match; simplify_eq/=); done.
Qed.

Lemma step_ctxDone_true l c c' :
  step l c = Some c' → ctxDone c = true → ctxDone c' = true.
Proof.
  intros Hs Hc. destruct l as [|k| |];
    try (by rewrite (step_ctxDone _ _ _ Hs)).
  unfold app.step, stepCancel in Hs. destruct (panicked c); [done|].
  by rewrite Hc in Hs.
Qed.

Lemma exec_ctxDone sched c :
  LCancel ∉ sched → ctxDone (exec dest token tracks sched c) = ctxDone c.
Proof.
  revert c. induction sched as [|l sched IH]; intros c Hn; [done|].
  apply not_elem_of_cons in Hn as [Hl Hn]. simpl.
  destruct (step l c) as [c'|] eqn:E; simpl; [|by apply IH].
  rewrite IH by done. by eapply step_ctxDone.
Qed.

Lemma firstStep_goroutines c c' :
  firstStep dest token tracks (goroutines nworkers) c = Some c' →
  ∃ l, l ≠ LCancel ∧ step l c = Some c'.
Proof.
  assert (H : ∀ ls, LCancel ∉ ls →
            firstStep dest token tracks ls c = Some c' →
            ∃ l, l ≠ LCancel ∧ step l c = Some c').
  { induction ls as [|l ls IH]; simpl; [done|].
    intros [Hl Hn]%not_elem_of_cons. destruct (step l c) eqn:E; [|by apply IH].
    intros [= <-]. eauto. }
  apply H. unfold goroutines. rewrite !not_elem_of_cons.
  split; [done|]. split; [done|].
  intros (k & Hk & _)%list_elem_of_fmap. done.
Qed.

Lemma drain_ctxDone fuel c :
  ctxDone (drain dest token tracks nworkers fuel c) = ctxDone c.
Proof.
  revert c. induction fuel as [|fuel IH]; intros c; [done|].
  cbn [drain].
  destruct (firstStep dest token tracks (goroutines nworkers) c) as [c'|] eqn:E;
    [|done].
  destruct (firstStep_goroutines _ _ E) as (l & Hl & Hs).
  rewrite IH. by eapply step_ctxDone.
Qed.

Lemma finalConfig_ctxDone sched s :
  LCancel ∉ sched →
  ctxDone (finalConfig dest token tracks nworkers sched false s) = false.
Proof.
  intros Hn. unfold finalConfig. by rewrite drain_ctxDone, exec_ctxDone.
Qed.

(** A context cancelled before the call stays so; no worker gets past its
    [select], and no search is made. *)
Lemma step_cancelled l c c' :
  step l c = Some c' → ctxDone c = true → pool c ≫= searching = [] →
  ctxDone c' = true ∧ pool c' ≫= searching = []
  ∧ searches c' = searches c ∧ st c' = st c.
Proof.
  intros Hs Hc Hp. split; [by eapply step_ctxDone_true|].
  revert Hs. unfold app.step. destruct (panicked c); [done|].
  destruct l as [|k| |]; simpl; intros Hs.
  - unfold stepMain in Hs.
    destruct (mainPC c) as [i0| |]; [| |done];
      repeat (case_match; simplify_eq/=); done.
  - unfold stepWorker in Hs. rewrite Hc in Hs.
    destruct (pool c !! k) as [w|] eqn:Ek; [|done].
    assert (Hins : ∀ w', searching w = [] → searching w' = [] →
              <[k := w']> (pool c) ≫= searching = []).
    { intros w' Hw Hw'. apply length_zero_iff_nil.
      by rewrite (searching_insert _ _ _ _ Ek Hw Hw'), Hp. }
    destruct w as [|[i0 track]|[i0 track]|[i0 r]|]; [| | | |done].
    + repeat (case_match; simplify_eq);
        cbn [pool searches st set_pool set_trackCh]; by rewrite Hins.
    + simplify_eq. cbn [pool searches st set_pool]. by rewrite Hins.
    + pose proof (bind_lookup_length searching _ _ _ Ek) as Hl.
      rewrite Hp in Hl. simpl in Hl. lia.
    + repeat (case_match; simplify_eq);
        cbn [pool searches st set_pool set_resultCh set_panicked];
        by rewrite ?Hins.
  - unfold stepCloser in Hs. repeat (case_match; simplify_eq/=); done.
  - unfold stepCancel in Hs. by rewrite Hc in Hs.
Qed.

Lemma finalConfig_cancelled sched s :
  let c := finalConfig dest token tracks nworkers sched true s in
  ctxDone c = true ∧ searches c = [] ∧ st c = s.
Proof.
  assert (Hex : ∀ sched c, ctxDone c = true → pool c ≫= searching = [] →
            let c' := exec dest token tracks sched c in
            ctxDone c' = true ∧ pool c' ≫= searching = []
            ∧ searches c' = searches c ∧ st c' = st c).
  { clear sched. induction sched as [|l sched IH]; intros c Hc Hp; [done|].
    simpl. destruct (step l c) as [c'|] eqn:E; simpl; [|by apply IH].
    destruct (step_cancelled _ _ _ E Hc Hp) as (H1 & Hp1 & H2 & H3).
    destruct (IH c' H1 Hp1) as (H4 & Hp4 & H5 & H6). simpl in *.
    split; [done|]. split; [done|]. split; congruence. }
  assert (Hdr : ∀ fuel c, ctxDone c = true → pool c ≫= searching = [] →
            let c' := drain dest token tracks nworkers fuel c in
            ctxDone c' = true ∧ searches c' = searches c ∧ st c' = st c).
  { induction fuel as [|fuel IH]; intros c Hc Hp; [done|].
    cbn [drain].
    destruct (firstStep dest token tracks (goroutines nworkers) c) as [c'|] eqn:E;
      [|done].
    destruct (firstStep_Some _ _ _ _ _ _ E) as [l Hl].
    destruct (step_cancelled _ _ _ Hl Hc Hp) as (H1 & Hp1 & H2 & H3).
    destruct (IH c' H1 Hp1) as (H4 & H5 & H6). simpl in *.
    split; [done|]. split; congruence. }
  intros c. subst c. unfold finalConfig.
  destruct (Hex sched (init tracks nworkers true s) eq_refl
              (bind_replicate_recv searching nworkers eq_refl))
    as (H1 & Hp1 & H2 & H3).
  destruct (Hdr (stepsLeft tracks (exec dest token tracks sched (init tracks nworkers true s)))
              _ H1 Hp1) as (H4 & H5 & H6).
  simpl in *. split; [done|]. split; congruence.
Qed.

(** *** At the return *)

Lemma searched_bound c i :
  Inv c → i ∈ (searches c).*1 → i < length tracks.
Proof.
  intros HI ([j ret] & -> & Hin)%list_elem_of_fmap. simpl.
  pose proof (inv_searched _ _ _ HI _ _ Hin) as H1.
  pose proof (inv_census _ _ _ HI j) as H2.
  pose proof (inv_main _ _ _ HI) as H3.
  case_decide as Hlt; [|lia].
  destruct (mainPC c); simpl in *; lia.
Qed.

Lemma returned_past c i :
  1 ≤ nworkers → Inv c → mainPC c = MReturn → i < length tracks →
  past c i = 1.
Proof.
  intros Hn HI Hm Hi.
  destruct (inv_return _ _ _ HI Hm) as [Hclosed Hempty].
  destruct (inv_resultClosed _ _ _ HI Hclosed) as [Hall _].
  assert (Hk : pool c !! 0 = Some WExit).
  { pose proof (inv_pool _ _ _ HI) as Hp.
    destruct (pool c) as [|w ws] eqn:Ep; simpl in *; [lia|].
    by apply Forall_cons in Hall as [-> _]. }
  destruct (inv_exited _ _ _ HI 0 Hk) as [_ Hch].
  pose proof (inv_census _ _ _ HI i) as Hcen.
  rewrite Hm, Hch, Hempty, !bind_exited in Hcen by done.
  unfold past. rewrite Hempty, bind_exited by done.
  simpl in Hcen |- *. case_decide; [|lia]. autorewrite with occ in *. lia.
Qed.

Lemma resultFor_resultOf log i r track :
  NoDup log.*1 → tracks !! i = Some track →
  resultFor tracks log i r → r = resultOf log i track.
Proof.
  intros Hnd Hi (t & Ht & [[-> Hn]|(ret & Hin & ->)]); simplify_eq; unfold resultOf.
  - destruct (list_to_map log !! i) as [ret|] eqn:E; [|done].
    apply elem_of_list_to_map in E; [|done]. by destruct (Hn ret).
  - apply (elem_of_list_to_map (M:=gmap nat)) in Hin; [|done]. by rewrite Hin.
Qed.

(** The call returns; what it returns is what a sequential run over the
    searched indices gives: first the searches made before the cancellation,
    then the ones made after it, on the cancelled context. *)
Lemma searchTracksParallel_sequential sched ctx s :
  1 ≤ nworkers →
  let c := finalConfig dest token tracks nworkers sched ctx s in
  let order := (searches c).*1 in
  searchTracksParallel dest token tracks nworkers sched ctx s
  = Some (results c, st c, ctxDone c)
  ∧ NoDup order
  ∧ (∀ i, i ∈ order → i < length tracks)
  ∧ (∃ before after,
       order = before ++ after
       ∧ (let '(log1, s1) := searchSeq before s in
          let '(log2, s2) := searchSeqOn dest true token tracks after s1 in
          searches c = log1 ++ log2 ∧ st c = s2)
       ∧ (ctxDone c = false → after = [])
       ∧ length after ≤ nworkers)
  ∧ results c = imap (resultOf (searches c)) tracks
  ∧ (ctxDone c = false → order ≡ₚ seq 0 (length tracks)).
Proof.
  intros Hn c order.
  destruct (finalConfig_returns dest token tracks nworkers sched ctx s) as [HI Hm].
  pose proof (finalConfig_Acc sched ctx s) as [Hseq Hnd Hlive].
  fold c in HI, Hm, Hseq, Hnd, Hlive. fold order in Hseq, Hnd, Hlive.
  split.
  { unfold searchTracksParallel. fold c. by rewrite Hm, (inv_panicked _ _ _ HI). }
  split; [done|].
  split; [intros i; by apply searched_bound|].
  split.
  { destruct Hseq as (before & after & Hord & Hrun & Hnone & Hbound).
    exists before, after. split; [done|]. split; [done|]. split; [done|]. lia. }
  split.
  - apply list_eq. intros i. rewrite list_lookup_imap.
    destruct (tracks !! i) as [track|] eqn:Ei; simpl.
    + destruct (Inv_returned tracks nworkers c i track Hn HI Hm Ei) as (r & -> & Hr).
      f_equal. by apply resultFor_resultOf.
    + apply lookup_ge_None. rewrite (inv_results _ _ _ HI).
      by apply lookup_ge_None.
  - intros Hd. apply NoDup_Permutation; [done|apply NoDup_seq|].
    intros i. rewrite elem_of_seq. split.
    + intros Hi. apply (searched_bound c) in Hi; [lia|done].
    + intros [_ Hi]. apply Hlive; [done|]. rewrite returned_past; done.
Qed.

(** Without cancellation the searches are one sequential run. *)
Lemma searchTracksParallel_uncancelled sched s :
  1 ≤ nworkers → LCancel ∉ sched →
  let c := finalConfig dest token tracks nworkers sched false s in
  let order := (searches c).*1 in
  searchTracksParallel dest token tracks nworkers sched false s
  = Some (results c, st c, false)
  ∧ order ≡ₚ seq 0 (length tracks)
  ∧ searchSeq order s = (searches c, st c)
  ∧ results c = imap (resultOf (searches c)) tracks.
Proof.
  intros Hn Hsched c order.
  destruct (searchTracksParallel_sequential sched false s Hn)
    as (Hr & _ & _ & (before & after & Hord & Hrun & Hnone & _) & Hres & Hperm).
  fold c in Hr, Hord, Hrun, Hnone, Hres, Hperm.
  assert (Hd : ctxDone c = false) by by apply finalConfig_ctxDone.
  rewrite Hd in Hr. split; [done|]. split; [by apply Hperm|]. split; [|done].
  fold order in Hord. rewrite (Hnone Hd), app_nil_r in Hord. subst before.
  rewrite (Hnone Hd) in Hrun. destruct (searchSeq order s) as [log1 s1].
  simpl in Hrun. destruct Hrun as [-> ->]. by rewrite app_nil_r.
Qed.

End Accounting.

Section Protocol.
Context {W : Type}.
Implicit Types (dest source : ports.MusicProvider W) (tracks : list Track)
  (s : State W).

Lemma searchSeq_returns dest token tracks order s i ret :
  (i, ret) ∈ (searchSeq dest token tracks order s).1 →
  ∃ track w, tracks !! i = Some track
    ∧ ret = (ports.SearchTrack dest false token track w).1.
Proof.
  revert s. induction order as [|j order IH]; intros s; simpl;
    [by intros ?%elem_of_nil|].
  destruct (tracks !! j) as [track|] eqn:Ej; [|apply IH].
  unfold callSearchTrack at 1.
  destruct (ports.SearchTrack dest false token track (world s)) as [ret' w] eqn:Es.
  destruct (searchSeq dest token tracks order _) as [log s''] eqn:El.
  simpl. intros [[= -> ->]|Hin]%elem_of_cons.
  - exists track, (world s). by rewrite Es.
  - eapply IH. by rewrite El.
Qed.


Lemma length_omap_le {A B} (f : A → option B) (l : list A) :
  length (omap f l) ≤ length l.
Proof.
  induction l as [|x l IH]; [done|]. cbn. destruct (f x); simpl; lia.
Qed.


Lemma resultOf_nil tracks : imap (resultOf []) tracks = cancelledResult <$> tracks.
Proof.
  apply list_eq. intros i. rewrite list_lookup_imap, list_lookup_fmap.
  by destruct (tracks !! i).
Qed.

(** Step 3: the identifiers kept and the counters. *)
Lemma tally_cons r rs matchedIDs matched failed :
  tally (r :: rs) matchedIDs matched failed
  = match matchedID r with
    | Some id => tally rs (matchedIDs ++ [id]) (S matched) failed
    | None => tally rs matchedIDs matched (S failed)
    end.
Proof. unfold matchedID. simpl. by destruct (Status r), (MatchedTrack r). Qed.

Lemma tally_matchedID results matchedIDs matched failed :
  tally results matchedIDs matched failed
  = (matchedIDs ++ omap matchedID results,
     matched + length (omap matchedID results),
     failed + (length results - length (omap matchedID results))).
Proof.
  revert matchedIDs matched failed.
  induction results as [|r rs IH]; intros ids m f.
  - simpl. by rewrite app_nil_r, !Nat.add_0_r.
  - pose proof (length_omap_le matchedID rs) as Hle.
    rewrite tally_cons. cbn [omap list_omap].
    destruct (matchedID r) as [id|]; rewrite IH; cbn [length].
    + rewrite <- app_assoc. simpl. do 2 (f_equal; try lia).
    + do 2 (f_equal; try lia).
Qed.

End Protocol.

(** ** The worker pool against a sequential loop *)





(** X3: when the value SearchTrack returns for a track does not depend on
    the state of the provider, and the context is not cancelled, the slice
    returned does not depend on the schedule or on the number of workers:
    it is the slice a plain loop over [tracks] would build. *)
Theorem stateless_search_is_schedule_independent {W : Type}
    (dest : ports.MusicProvider W) (token : string) (tracks : list Track)
    (nworkers : nat) (sched : list Label) (s : State W) :
  1 ≤ nworkers → LCancel ∉ sched →
  (∀ track w w',
     (ports.SearchTrack dest false token track w).1
     = (ports.SearchTrack dest false token track w').1) →
  ∃ s',
    searchTracksParallel dest token tracks nworkers sched false s
    = Some ((λ track,
               searchResult track
                 (ports.SearchTrack dest false token track (world s)).1)
              <$> tracks, s', false).
Proof.
  intros Hn Hsched Hpure.
  destruct (searchTracksParallel_uncancelled dest token tracks nworkers sched
              s Hn Hsched) as (Hr & Hperm & Hseq & Hres).
  set (c := finalConfig dest token tracks nworkers sched false s) in *.
  assert (Hnd : NoDup (searches c).*1).
  { rewrite Hperm. apply NoDup_seq. }
  exists (st c). rewrite Hr. do 3 f_equal.
  rewrite Hres. apply list_eq. intros i.
  rewrite list_lookup_imap, list_lookup_fmap.
  destruct (tracks !! i) as [track|] eqn:Hi; [|done]. simpl. f_equal.
  assert (Hin : i ∈ (searches c).*1).
  { rewrite Hperm. apply elem_of_seq. apply lookup_lt_Some in Hi. lia. }
  apply list_elem_of_fmap in Hin as ([j ret] & -> & Hin). simpl in *.
  unfold resultOf.
  pose proof Hin as Hmap.
  apply (elem_of_list_to_map (M:=gmap nat)) in Hmap; [|done]. rewrite Hmap.
  pose proof (searchSeq_returns dest token tracks (searches c).*1 s j ret) as Hret.
  rewrite Hseq in Hret. destruct (Hret Hin) as (track' & w & Ht & ->).
  simplify_eq. by rewrite (Hpure track w (world s)).
Qed.

Lemma stateless_search_is_schedule_independent_witness :
  ∃ s',
    searchTracksParallel (mockProvider "dest" [] None None) "t2" demoTracks 2
      demoSchedule false demoFetched
    = Some ((λ track,
               searchResult track
                 (ports.SearchTrack (mockProvider "dest" [] None None) false
                    "t2" track (world demoFetched)).1)
              <$> demoTracks, s', false).
Proof.
  apply (stateless_search_is_schedule_independent
           (mockProvider "dest" [] None None) "t2" demoTracks 2 demoSchedule
           demoFetched); [lia| |done].
  unfold demoSchedule. rewrite !not_elem_of_cons.
  repeat split; try discriminate. apply not_elem_of_nil.
Defined.

(** X4: when the context is already cancelled at the call, no search is
    made: the provider is not called, the state is left as it was, and
    every track gets the result with status "error" and the message
    "context cancelled". *)
Theorem cancelled_context_searches_nothing {W : Type}
    (dest : ports.MusicProvider W) (token : string) (tracks : list Track)
    (nworkers : nat) (sched : list Label) (s : State W) :
  1 ≤ nworkers →
  searchTracksParallel dest token tracks nworkers sched true s
  = Some (cancelledResult <$> tracks, s, true).
Proof.
  intros Hn.
  destruct (searchTracksParallel_sequential dest token tracks nworkers sched
              true s Hn) as (Hr & _ & _ & _ & Hres & _).
  destruct (finalConfig_cancelled dest token tracks nworkers sched s)
    as (Hd & Hlog & Hst).
  rewrite Hr, Hres, Hlog, Hd, Hst. by rewrite resultOf_nil.
Qed.

Lemma cancelled_context_searches_nothing_witness :
  searchTracksParallel (mockProvider "dest" [] None None) "t2" demoTracks 2
    demoSchedule true demoFetched
  = Some (cancelledResult <$> demoTracks, demoFetched, true).
Proof.
  apply (cancelled_context_searches_nothing (mockProvider "dest" [] None None)
           "t2" demoTracks 2 demoSchedule demoFetched).
  lia.
Defined.

(** ** The calls of a migration *)

Section Migration.
Context {W : Type}.
Implicit Types (svc : Service W) (dest source : ports.MusicProvider W)
  (tracks : list Track) (s st : State W).

Lemma Get_cases (reg : adapters.ProviderRegistry W) name :
  (adapters.providers reg !! name = None
   ∧ adapters.Get reg name = (None, Some ("unknown provider: " +:+ name)))
  ∨ (∃ p, adapters.providers reg !! name = Some p
          ∧ adapters.Get reg name = (Some p, None)).
Proof.
  unfold adapters.Get. destruct (adapters.providers reg !! name); eauto.
Qed.

(** Past the provider lookups and the fetch: the run, step by step. *)
Lemma MigratePlaylist_run svc sched ctx req st0 st1 source dest tracks :
  adapters.Get (registry svc) (SourceProvider req) = (Some source, None) →
  adapters.Get (registry svc) (DestProvider req) = (Some dest, None) →
  callGetPlaylistTracks source ctx (SourceToken req) (PlaylistID req) st0
  = ((tracks, None), st1) →
  tracks ≠ [] →
  let c := finalConfig dest (DestToken req) tracks (Z.to_nat (workers svc))
             sched ctx st1 in
  let ids := omap matchedID (results c) in
  let created :=
    callCreatePlaylist dest (ctxDone c) (DestToken req)
      ("Migrated from " +:+ SourceProvider req)
      ("Migrated " +:+ pretty (length ids) +:+ "/" +:+ pretty (length tracks)
         +:+ " tracks") (st c) in
  let added :=
    callAddTracksToPlaylist dest (ctxDone c) (DestToken req) created.1.1 ids
      created.2 in
  MigratePlaylist svc sched ctx req st0
  = Some
      match created.1.2 with
      | Some e =>
          ((None, Some ("failed to create destination playlist: " +:+ e)),
           created.2)
      | None =>
          if decide (0 < length ids)
          then match added.1 with
               | Some e =>
                   ((None,
                     Some ("failed to add tracks to destination playlist: "
                           +:+ e)), added.2)
               | None =>
                   ((Some {| SourcePlaylist := PlaylistID req;
                             DestPlaylistID := created.1.1;
                             TotalTracks := length tracks;
                             MatchedTracks := length ids;
                             FailedTracks := length tracks - length ids;
                             TrackResults := results c |}, None), added.2)
               end
          else ((Some {| SourcePlaylist := PlaylistID req;
                         DestPlaylistID := created.1.1;
                         TotalTracks := length tracks;
                         MatchedTracks := length ids;
                         FailedTracks := length tracks - length ids;
                         TrackResults := results c |}, None), created.2)
      end.
Proof.
  intros Hs Hd Hf Hne c ids created added. unfold MigratePlaylist.
  rewrite Hs, Hd. cbn beta iota zeta. rewrite Hf. cbn beta iota zeta.
  case_decide as Hlen; [by destruct tracks|].
  pose proof (searchTracksParallel_returns dest (DestToken req) tracks
                (Z.to_nat (workers svc)) sched ctx st1) as (Hr & Hl & _).
  rewrite Hr. fold c in Hl |- *. cbn beta iota zeta.
  rewrite tally_matchedID. cbn beta iota zeta. fold ids.
  rewrite !Nat.add_0_l, app_nil_l, Hl. fold created.
  destruct created as [[pid [e|]] st3]; cbn beta iota zeta; [done|].
  cbn [fst snd] in *. case_decide; [|done].
  fold added. by destruct added as [[e|] st4].
Qed.

Lemma callCreatePlaylist_calls dest ctx token name description s :
  calls (callCreatePlaylist dest ctx token name description s).2
  = calls s ++ [CallCreatePlaylist (ports.Name dest) token name description].
Proof.
  unfold callCreatePlaylist. by destruct (ports.CreatePlaylist _ _ _ _ _ _).
Qed.

Lemma callAddTracksToPlaylist_calls dest ctx token playlistID ids s :
  calls (callAddTracksToPlaylist dest ctx token playlistID ids s).2
  = calls s ++ [CallAddTracksToPlaylist (ports.Name dest) token playlistID ids].
Proof.
  unfold callAddTracksToPlaylist.
  by destruct (ports.AddTracksToPlaylist _ _ _ _ _ _).
Qed.

Lemma callGetPlaylistTracks_calls source ctx token playlistID s :
  calls (callGetPlaylistTracks source ctx token playlistID s).2
  = calls s ++ [CallGetPlaylistTracks (ports.Name source) token playlistID].
Proof.
  unfold callGetPlaylistTracks.
  by destruct (ports.GetPlaylistTracks _ _ _ _ _).
Qed.

Lemma finalConfig_calls dest token tracks nworkers sched ctx s :
  let c := finalConfig dest token tracks nworkers sched ctx s in
  NoDup (searches c).*1
  ∧ calls (st c)
    = calls s ++ searchCalls (ports.Name dest) token tracks (searches c).*1.
Proof.
  intros c.
  pose proof (finalConfig_Acc dest token tracks nworkers sched ctx s)
    as [(before & after & Hord & Hrun & _) Hnd _].
  fold c in Hord, Hrun, Hnd. split; [done|].
  pose proof (searchSeq_calls dest token tracks before s) as Hc1.
  destruct (searchSeq dest token tracks before s) as [log1 s1].
  pose proof (searchSeqOn_calls dest token tracks true after s1) as Hc2.
  destruct (searchSeqOn dest true token tracks after s1) as [log2 s2].
  destruct Hrun as [_ ->]. simpl in Hc1, Hc2.
  by rewrite Hc2, Hc1, Hord, searchCalls_app, app_assoc.
Qed.

Lemma omap_matchedID_cancelled tracks :
  omap matchedID (cancelledResult <$> tracks) = [].
Proof. by induction tracks. Qed.

Lemma finalConfig_results_cancelled dest token tracks nworkers sched s :
  1 ≤ nworkers →
  let c := finalConfig dest token tracks nworkers sched true s in
  results c = cancelledResult <$> tracks ∧ st c = s ∧ ctxDone c = true.
Proof.
  intros Hn c.
  destruct (searchTracksParallel_sequential dest token tracks nworkers sched
              true s Hn) as (_ & _ & _ & _ & Hres & _).
  destruct (finalConfig_cancelled dest token tracks nworkers sched s)
    as (Hd & Hlog & Hst).
  fold c in Hres, Hd, Hlog, Hst. rewrite Hres, Hlog. by rewrite resultOf_nil.
Qed.

Lemma results_aligned dest token tracks nworkers sched ctx s :
  1 ≤ nworkers →
  SourceTrack <$> results (finalConfig dest token tracks nworkers sched ctx s)
  = tracks.
Proof.
  intros Hn.
  destruct (searchTracksParallel_returns dest token tracks nworkers sched ctx s)
    as (_ & Hlen & Hall & _).
  apply list_eq. intros i. rewrite list_lookup_fmap.
  destruct (tracks !! i) as [track|] eqn:Hi.
  - destruct (Hall Hn i track Hi) as (r & -> & Hr). simpl. f_equal.
    by eapply resultFor_SourceTrack.
  - apply lookup_ge_None in Hi. rewrite lookup_ge_None_2; [done|lia].
Qed.

(** The calls of a run past the fetch. *)
Lemma MigratePlaylist_calls svc sched ctx req st0 st1 source dest tracks :
  adapters.Get (registry svc) (SourceProvider req) = (Some source, None) →
  adapters.Get (registry svc) (DestProvider req) = (Some dest, None) →
  callGetPlaylistTracks source ctx (SourceToken req) (PlaylistID req) st0
  = ((tracks, None), st1) →
  tracks ≠ [] →
  let c := finalConfig dest (DestToken req) tracks (Z.to_nat (workers svc))
             sched ctx st1 in
  let ids := omap matchedID (results c) in
  let created :=
    callCreatePlaylist dest (ctxDone c) (DestToken req)
      ("Migrated from " +:+ SourceProvider req)
      ("Migrated " +:+ pretty (length ids) +:+ "/" +:+ pretty (length tracks)
         +:+ " tracks") (st c) in
  ∃ out st',
    MigratePlaylist svc sched ctx req st0 = Some (out, st')
    ∧ calls st'
      = calls st0
        ++ [CallGetPlaylistTracks (ports.Name source) (SourceToken req)
              (PlaylistID req)]
        ++ searchCalls (ports.Name dest) (DestToken req) tracks (searches c).*1
        ++ [CallCreatePlaylist (ports.Name dest) (DestToken req)
              ("Migrated from " +:+ SourceProvider req)
              ("Migrated " +:+ pretty (length ids) +:+ "/"
                 +:+ pretty (length tracks) +:+ " tracks")]
        ++ (if bool_decide (created.1.2 = None ∧ ids ≠ [])
            then [CallAddTracksToPlaylist (ports.Name dest) (DestToken req)
                    created.1.1 ids]
            else [])
    ∧ ∀ res, out = (Some res, None) →
        TrackResults res = results c ∧ DestPlaylistID res = created.1.1
        ∧ MatchedTracks res = length ids.
Proof.
  intros Hs Hd Hf Hne c ids created.
  pose proof (MigratePlaylist_run svc sched ctx req st0 st1 source dest tracks
                Hs Hd Hf Hne) as Hrun.
  cbv zeta in Hrun. fold c ids created in Hrun.
  destruct (finalConfig_calls dest (DestToken req) tracks
              (Z.to_nat (workers svc)) sched ctx st1) as [Hnd Hcalls].
  fold c in Hnd, Hcalls.
  pose proof (callGetPlaylistTracks_calls source ctx (SourceToken req)
                (PlaylistID req) st0) as Hget.
  rewrite Hf in Hget. simpl in Hget.
  pose proof (callCreatePlaylist_calls dest (ctxDone c) (DestToken req)
    ("Migrated from " +:+ SourceProvider req)
    ("Migrated " +:+ pretty (length ids) +:+ "/" +:+ pretty (length tracks)
       +:+ " tracks") (st c)) as Hcreate.
  fold created in Hcreate. rewrite Hcalls, Hget in Hcreate.
  set (added := callAddTracksToPlaylist dest (ctxDone c) (DestToken req)
                  created.1.1 ids created.2) in *.
  pose proof (callAddTracksToPlaylist_calls dest (ctxDone c) (DestToken req)
                created.1.1 ids created.2) as Hadd.
  fold added in Hadd. rewrite Hcreate in Hadd.
  assert (Hids : 0 < length ids ↔ ids ≠ []).
  { destruct ids; simpl; split; (lia || done). }
  destruct (created.1.2) as [e|] eqn:Ec.
  - eexists _, _. split; [exact Hrun|].
    rewrite bool_decide_eq_false_2 by (by intros [? _]).
    rewrite Hcreate, app_nil_r, <- !app_assoc. split; [done|]. by intros res.
  - case_decide as Hpos.
    + rewrite bool_decide_eq_true_2 by (split; [done|by apply Hids]).
      destruct (added.1) as [e|] eqn:Ea.
      * eexists _, _. split; [exact Hrun|].
        rewrite Hadd, <- !app_assoc. split; [done|]. by intros res.
      * eexists _, _. split; [exact Hrun|].
        rewrite Hadd, <- !app_assoc. split; [done|]. by intros res [= <-].
    + rewrite bool_decide_eq_false_2 by (intros [_ ?]; by apply Hpos, Hids).
      eexists _, _. split; [exact Hrun|].
      rewrite Hcreate, app_nil_r, <- !app_assoc. split; [done|].
      by intros res [= <-].
Qed.

End Migration.

(** X5: a migration that gets past the fetch of a non-empty playlist makes
    its provider calls in this order: GetPlaylistTracks on the source; one
    SearchTrack on the destination for each track searched, no track twice;
    CreatePlaylist on the destination, with the name "Migrated from
    <source>" and the description "Migrated <matched>/<total> tracks"; then
    - only if the playlist was created and at least one track matched - one
    AddTracksToPlaylist, with the new playlist's ID and the ExternalIDs of
    the matched tracks in source order.  Nothing else is called. *)
Theorem migration_call_sequence {W : Type} (svc : Service W)
    (sched : list Label) (ctx : ports.Context) (req : MigrationRequest)
    (st0 st1 : State W) (source dest : ports.MusicProvider W)
    (tracks : list Track) :
  adapters.Get (registry svc) (SourceProvider req) = (Some source, None) →
  adapters.Get (registry svc) (DestProvider req) = (Some dest, None) →
  callGetPlaylistTracks source ctx (SourceToken req) (PlaylistID req) st0
  = ((tracks, None), st1) →
  tracks ≠ [] →
  let c := finalConfig dest (DestToken req) tracks (Z.to_nat (workers svc))
             sched ctx st1 in
  let ids := omap matchedID (results c) in
  let created :=
    callCreatePlaylist dest (ctxDone c) (DestToken req)
      ("Migrated from " +:+ SourceProvider req)
      ("Migrated " +:+ pretty (length ids) +:+ "/" +:+ pretty (length tracks)
         +:+ " tracks") (st c) in
  ∃ out st',
    MigratePlaylist svc sched ctx req st0 = Some (out, st')
    ∧ NoDup (searches c).*1
    ∧ calls st'
      = calls st0
        ++ [CallGetPlaylistTracks (ports.Name source) (SourceToken req)
              (PlaylistID req)]
        ++ searchCalls (ports.Name dest) (DestToken req) tracks (searches c).*1
        ++ [CallCreatePlaylist (ports.Name dest) (DestToken req)
              ("Migrated from " +:+ SourceProvider req)
              ("Migrated " +:+ pretty (length ids) +:+ "/"
                 +:+ pretty (length tracks) +:+ " tracks")]
        ++ (if bool_decide (created.1.2 = None ∧ ids ≠ [])
            then [CallAddTracksToPlaylist (ports.Name dest) (DestToken req)
                    created.1.1 ids]
            else [])
    ∧ ∀ res, out = (Some res, None) →
        TrackResults res = results c ∧ DestPlaylistID res = created.1.1
        ∧ MatchedTracks res = length ids.
Proof.
  intros Hs Hd Hf Hne c ids created.
  destruct (MigratePlaylist_calls svc sched ctx req st0 st1 source dest tracks
              Hs Hd Hf Hne) as (out & st' & Hrun & Hcalls & Hres).
  exists out, st'. split; [done|]. split; [|split; done].
  apply finalConfig_calls.
Qed.

Lemma migration_call_sequence_witness :
  ∃ st',
    MigratePlaylist (NewService (demoRegistry demoTracks) 2) demoSchedule false
      demoRequest demoState
    = Some ((Some {| SourcePlaylist := "pl-1";
                     DestPlaylistID := "new-playlist-456";
                     TotalTracks := 3; MatchedTracks := 1; FailedTracks := 2;
                     TrackResults :=
                       results (finalConfig (mockProvider "dest" [] None None)
                                  "t2" demoTracks 2 demoSchedule false
                                  demoFetched) |}, None), st')
    ∧ calls st'
      = [CallGetPlaylistTracks "source" "t1" "pl-1";
         CallSearchTrack "dest" "t2" (demoTrack "Track B" "Artist B" "");
         CallSearchTrack "dest" "t2" (demoTrack "Track C" "Artist C" "");
         CallSearchTrack "dest" "t2" (demoTrack "Track A" "Artist A" "");
         CallCreatePlaylist "dest" "t2" "Migrated from source"
           "Migrated 1/3 tracks";
         CallAddTracksToPlaylist "dest" "t2" "new-playlist-456" ["vid-a"]].
Proof.
  destruct (migration_call_sequence
              (NewService (demoRegistry demoTracks) 2) demoSchedule false
              demoRequest demoState demoFetched
              (mockProvider "source" demoTracks None None)
              (mockProvider "dest" [] None None) demoTracks)
    as (out & st' & Hrun & _ & Hcalls & _);
    [by vm_compute | by vm_compute | by vm_compute | done |].
  exists st'. split.
  - rewrite Hrun. vm_compute in Hrun. injection Hrun as <- _. by vm_compute.
  - rewrite Hcalls. by vm_compute.
Defined.

(** X6: a migration naming a provider that is not registered fails before
    any provider is called: with the error "source provider error: unknown
    provider: <name>" when the source is unknown (whatever the destination),
    with "destination provider error: unknown provider: <name>" when only
    the destination is; and these are the only migrations that return
    without having called a provider. *)
Theorem unknown_provider_fails_before_any_call {W : Type} (svc : Service W)
    (sched : list Label) (ctx : ports.Context) (req : MigrationRequest)
    (st0 : State W) :
  let known name := is_Some (adapters.providers (registry svc) !! name) in
  (¬ known (SourceProvider req) →
   MigratePlaylist svc sched ctx req st0
   = Some ((None, Some ("source provider error: unknown provider: "
                        +:+ SourceProvider req)), st0))
  ∧ (known (SourceProvider req) → ¬ known (DestProvider req) →
     MigratePlaylist svc sched ctx req st0
     = Some ((None, Some ("destination provider error: unknown provider: "
                          +:+ DestProvider req)), st0))
  ∧ (∀ out st', MigratePlaylist svc sched ctx req st0 = Some (out, st') →
       calls st' = calls st0 →
       ¬ known (SourceProvider req) ∨ ¬ known (DestProvider req)).
Proof.
  intros known. subst known. cbv beta.
  split; [|split].
  - intros Hn. unfold MigratePlaylist.
    destruct (Get_cases (registry svc) (SourceProvider req))
      as [[_ ->]|(p & Hp & _)]; [done|].
    destruct Hn. by rewrite Hp.
  - intros [p Hp] Hn. unfold MigratePlaylist.
    destruct (Get_cases (registry svc) (SourceProvider req))
      as [[Hp' _]|(p' & _ & ->)]; [congruence|]. cbn beta iota zeta.
    destruct (Get_cases (registry svc) (DestProvider req))
      as [[_ ->]|(q & Hq & _)]; [done|].
    destruct Hn. by rewrite Hq.
  - intros out st' Hrun Hcalls.
    destruct (Get_cases (registry svc) (SourceProvider req))
      as [[Hp _]|(source & _ & Hs)];
      [left; rewrite Hp; by intros [? ?]|].
    destruct (Get_cases (registry svc) (DestProvider req))
      as [[Hq _]|(dest & _ & Hd)];
      [right; rewrite Hq; by intros [? ?]|].
    exfalso.
    pose proof (callGetPlaylistTracks_calls source ctx (SourceToken req)
                  (PlaylistID req) st0) as Hget.
    destruct (callGetPlaylistTracks source ctx (SourceToken req)
                (PlaylistID req) st0) as [[tracks err] st1] eqn:Hf.
    simpl in Hget.
    assert (Hno : ∀ rest, calls st' = calls st0 ++ rest → rest = []).
    { intros rest Hr. rewrite Hcalls in Hr. apply (f_equal length) in Hr.
      rewrite length_app in Hr. destruct rest; [done|simpl in Hr; lia]. }
    destruct err as [e|].
    { unfold MigratePlaylist in Hrun. rewrite Hs, Hd in Hrun.
      cbn beta iota zeta in Hrun. rewrite Hf in Hrun.
      cbn beta iota zeta in Hrun. injection Hrun as _ <-.
      by specialize (Hno _ Hget). }
    destruct (decide (tracks = [])) as [->|Hne].
    { unfold MigratePlaylist in Hrun. rewrite Hs, Hd in Hrun.
      cbn beta iota zeta in Hrun. rewrite Hf in Hrun.
      cbn beta iota zeta in Hrun. injection Hrun as _ <-.
      by specialize (Hno _ Hget). }
    destruct (MigratePlaylist_calls svc sched ctx req st0 st1 source dest tracks
                Hs Hd Hf Hne) as (out' & st'' & Hrun' & Hc & _).
    rewrite Hrun in Hrun'. injection Hrun' as _ <-.
    by specialize (Hno _ Hc).
Qed.

(** X7: MigratePlaylist returns on every input: whatever the registry, the
    worker count, the request, the schedule of the goroutines and the
    cancellation of the context, the call ends (no deadlock, no panic on a
    closed channel or an index out of range), and it ends with either a
    result and no error or an error and no result. *)
Theorem MigratePlaylist_always_returns {W : Type} (svc : Service W)
    (sched : list Label) (ctx : ports.Context) (req : MigrationRequest)
    (st0 : State W) :
  ∃ out st',
    MigratePlaylist svc sched ctx req st0 = Some (out, st')
    ∧ ((∃ res, out = (Some res, None)) ∨ (∃ e, out = (None, Some e))).
Proof.
  destruct (Get_cases (registry svc) (SourceProvider req))
    as [[_ Hs]|(source & _ & Hs)].
  { unfold MigratePlaylist. rewrite Hs. eexists _, _. split; [done|]. eauto. }
  destruct (Get_cases (registry svc) (DestProvider req))
    as [[_ Hd]|(dest & _ & Hd)].
  { unfold MigratePlaylist. rewrite Hs. cbn beta iota zeta. rewrite Hd.
    eexists _, _. split; [done|]. eauto. }
  destruct (callGetPlaylistTracks source ctx (SourceToken req)
              (PlaylistID req) st0) as [[tracks [e|]] st1] eqn:Hf.
  { unfold MigratePlaylist. rewrite Hs, Hd. cbn beta iota zeta. rewrite Hf.
    eexists _, _. split; [done|]. eauto. }
  destruct (decide (tracks = [])) as [->|Hne].
  { unfold MigratePlaylist. rewrite Hs, Hd. cbn beta iota zeta. rewrite Hf.
    eexists _, _. split; [done|]. eauto. }
  rewrite (MigratePlaylist_run svc sched ctx req st0 st1 source dest tracks
             Hs Hd Hf Hne).
  destruct (callCreatePlaylist _ _ _ _ _ _) as [[pid [e|]] st3];
    cbn [fst snd]; [eexists _, _; split; [done|]; eauto|].
  case_decide; [|eexists _, _; split; [done|]; eauto].
  destruct (callAddTracksToPlaylist _ _ _ _ _ _) as [[e|] st4];
    cbn [fst snd]; eexists _, _; (split; [done|]); eauto.
Qed.

(** X8: NewService turns a worker count below 1 into 1, so for every worker
    count it is given - zero, negative, or larger than the playlist - a
    migration that succeeds returns TrackResults aligned with the source:
    their SourceTracks are the tracks fetched, in order. *)
Theorem any_worker_count_keeps_results_aligned {W : Type}
    (reg : adapters.ProviderRegistry W) (nw : Z) (sched : list Label)
    (ctx : ports.Context) (req : MigrationRequest) (st0 st' : State W)
    (res : MigrationResult) :
  MigratePlaylist (NewService reg nw) sched ctx req st0
  = Some ((Some res, None), st') →
  (1 ≤ workers (NewService reg nw))%Z
  ∧ ∃ source fetched st1,
      adapters.Get reg (SourceProvider req) = (Some source, None)
      ∧ callGetPlaylistTracks source ctx (SourceToken req) (PlaylistID req) st0
        = ((fetched, None), st1)
      ∧ SourceTrack <$> TrackResults res = fetched.
Proof.
  intros Hrun. pose proof (NewService_workers reg nw) as Hw.
  split; [done|].
  apply MigratePlaylist_success in Hrun
    as (source & dest & tracks & st1 & res' & [= <-] & Hs & Hd & Hf & _ & Htr & _).
  exists source, tracks, st1. split; [done|]. split; [done|].
  rewrite Htr. apply results_aligned. lia.
Qed.

Lemma any_worker_count_keeps_results_aligned_witness :
  ∃ res st',
    MigratePlaylist (NewService (demoRegistry demoTracks) (-3)) demoSchedule
      false demoRequest demoState = Some ((Some res, None), st')
    ∧ SourceTrack <$> TrackResults res = demoTracks.
Proof.
  destruct (MigratePlaylist (NewService (demoRegistry demoTracks) (-3))
              demoSchedule false demoRequest demoState)
    as [[[ores err] st']|] eqn:E; [|by vm_compute in E].
  assert (err = None) as -> by (vm_compute in E; congruence).
  assert (∃ res, ores = Some res) as [res ->]
    by (vm_compute in E; injection E as <- _; eauto).
  destruct (any_worker_count_keeps_results_aligned _ _ _ _ _ _ _ _ E)
    as (_ & source & fetched & st1 & Hs & Hf & Hres).
  exists res, st'. split; [done|].
  vm_compute in Hs. injection Hs as <-. vm_compute in Hf.
  injection Hf as <- _. exact Hres.
Defined.

(** X9: a migration whose context is already cancelled when the tracks have
    been fetched searches nothing and still goes on: it calls CreatePlaylist
    with the description "Migrated 0/<total> tracks" and, unless that call
    fails, returns a MigrationResult - not an error - with no matched track,
    every track failed with "context cancelled", and no AddTracksToPlaylist
    call. *)
Theorem cancelled_migration_still_creates_the_playlist {W : Type}
    (svc : Service W) (sched : list Label) (req : MigrationRequest)
    (st0 st1 : State W) (source dest : ports.MusicProvider W)
    (tracks : list Track) :
  (1 ≤ workers svc)%Z →
  adapters.Get (registry svc) (SourceProvider req) = (Some source, None) →
  adapters.Get (registry svc) (DestProvider req) = (Some dest, None) →
  callGetPlaylistTracks source true (SourceToken req) (PlaylistID req) st0
  = ((tracks, None), st1) →
  tracks ≠ [] →
  let created :=
    callCreatePlaylist dest true (DestToken req)
      ("Migrated from " +:+ SourceProvider req)
      ("Migrated 0/" +:+ pretty (length tracks) +:+ " tracks") st1 in
  MigratePlaylist svc sched true req st0
  = Some (match created.1.2 with
          | Some e =>
              (None, Some ("failed to create destination playlist: " +:+ e))
          | None =>
              (Some {| SourcePlaylist := PlaylistID req;
                       DestPlaylistID := created.1.1;
                       TotalTracks := length tracks;
                       MatchedTracks := 0;
                       FailedTracks := length tracks;
                       TrackResults := cancelledResult <$> tracks |}, None)
          end, created.2).
Proof.
  intros Hw Hs Hd Hf Hne created.
  rewrite (MigratePlaylist_run svc sched true req st0 st1 source dest tracks
             Hs Hd Hf Hne).
  destruct (finalConfig_results_cancelled dest (DestToken req) tracks
              (Z.to_nat (workers svc)) sched st1 ltac:(lia)) as (Hres & Hst & Hctx).
  rewrite Hres, Hst, Hctx, omap_matchedID_cancelled. cbn [length].
  change ("Migrated " +:+ pretty 0 +:+ "/" +:+ pretty (length tracks) +:+ " tracks")
    with ("Migrated 0/" +:+ pretty (length tracks) +:+ " tracks").
  fold created. rewrite Nat.sub_0_r.
  destruct (created.1.2); [done|]. by case_decide; [lia|].
Qed.

Lemma cancelled_migration_still_creates_the_playlist_witness :
  MigratePlaylist (NewService (demoRegistry demoTracks) 2) demoSchedule true
    demoRequest demoState
  = Some ((Some {| SourcePlaylist := "pl-1";
                   DestPlaylistID := "new-playlist-456";
                   TotalTracks := 3; MatchedTracks := 0; FailedTracks := 3;
                   TrackResults := cancelledResult <$> demoTracks |}, None),
          {| world := 0;
             calls := [CallGetPlaylistTracks "source" "t1" "pl-1";
                       CallCreatePlaylist "dest" "t2" "Migrated from source"
                         "Migrated 0/3 tracks"] |}).
Proof.
  rewrite (cancelled_migration_still_creates_the_playlist
             (NewService (demoRegistry demoTracks) 2) demoSchedule demoRequest
             demoState demoFetched
             (mockProvider "source" demoTracks None None)
             (mockProvider "dest" [] None None) demoTracks);
    [by vm_compute | by vm_compute | by vm_compute | by vm_compute
    | by vm_compute | done].
Defined.

(** ** The provider registry *)

Section RegistryLaws.
Context {W : Type}.
Implicit Types (r : adapters.ProviderRegistry W) (p : ports.MusicProvider W)
  (ps : list (ports.MusicProvider W)) (name : string).

Lemma registryOf_snoc ps p :
  registryOf (ps ++ [p]) = adapters.Register (registryOf ps) p.
Proof. unfold registryOf. by rewrite foldl_app. Qed.

Lemma registryOf_lookup_last ps name :
  adapters.providers (registryOf ps) !! name
  = last (filter (λ p, ports.Name p = name) ps).
Proof.
  induction ps as [|p ps IH] using rev_ind; [done|].
  rewrite registryOf_snoc, filter_app. simpl.
  rewrite filter_cons, filter_nil.
  destruct (decide (ports.Name p = name)) as [<-|Hne].
  - by rewrite lookup_insert_eq, last_snoc.
  - by rewrite lookup_insert_ne, app_nil_r.
Qed.

Lemma registryOf_dom ps :
  adapters.Available (registryOf ps) = list_to_set (ports.Name <$> ps).
Proof.
  unfold adapters.Available.
  induction ps as [|p ps IH] using rev_ind; [apply dom_empty_L|].
  rewrite registryOf_snoc, fmap_app, list_to_set_app_L.
  cbn [adapters.Register adapters.providers fmap list_fmap].
  rewrite dom_insert_L, IH, list_to_set_cons, list_to_set_nil.
  rewrite (right_id_L ∅ (∪)). apply (comm_L (∪)).
Qed.

Lemma size_list_to_set_le (l : list string) :
  size (list_to_set l : gset string) ≤ length l.
Proof.
  induction l as [|x l IH].
  - by rewrite list_to_set_nil, size_empty.
  - rewrite list_to_set_cons, size_union_alt, size_singleton. cbn [length].
    pose proof (subseteq_size (list_to_set l ∖ {[x]}) (list_to_set l : gset string)
                  (subseteq_difference_l _ _ _ (reflexivity _))) as Hle.
    lia.
Qed.

End RegistryLaws.

(** X10: Register keys a provider by its Name() and overwrites: after any
    sequence of registrations, Get(name) returns the provider registered
    last under that name - a later registration replaces an earlier one of
    the same name and leaves the other names as they were - and the error
    "unknown provider: <name>" when there is none. *)
Theorem registry_get_returns_last_registered {W : Type}
    (ps : list (ports.MusicProvider W)) (name : string) :
  adapters.Get (registryOf ps) name
  = match last (filter (λ p, ports.Name p = name) ps) with
    | Some p => (Some p, None)
    | None => (None, Some ("unknown provider: " +:+ name))
    end.
Proof. unfold adapters.Get. by rewrite registryOf_lookup_last. Qed.

(** X11: Available returns the names under which a provider is registered:
    the names of the providers registered, each once however often it was
    registered; a name is among them exactly when Get finds a provider for
    it; and registering under a name already present adds nothing. *)
Theorem registry_available_is_the_registered_names {W : Type}
    (ps : list (ports.MusicProvider W)) :
  adapters.Available (registryOf ps) = list_to_set (ports.Name <$> ps)
  ∧ size (adapters.Available (registryOf ps)) ≤ length ps
  ∧ (∀ name, name ∈ adapters.Available (registryOf ps)
             ↔ ∃ p, adapters.Get (registryOf ps) name = (Some p, None))
  ∧ (∀ p, ports.Name p ∈ adapters.Available (registryOf ps) →
          adapters.Available (adapters.Register (registryOf ps) p)
          = adapters.Available (registryOf ps)).
Proof.
  split; [apply registryOf_dom|]. split; [|split].
  - rewrite registryOf_dom.
    etrans; [apply size_list_to_set_le|]. by rewrite length_fmap.
  - intros name. unfold adapters.Available, adapters.Get.
    rewrite elem_of_dom.
    destruct (adapters.providers (registryOf ps) !! name) as [p|]; split.
    + eauto.
    + by intros _.
    + by intros [? ?].
    + by intros [? ?].
  - intros p Hp. unfold adapters.Available in *. simpl.
    rewrite dom_insert_L. apply subseteq_union_1_L.
    by apply singleton_subseteq_l.
Qed.

(** ** Letter case *)

Section LetterCase.

Lemma N_of_ascii_lt a : (N_of_ascii a < 256)%N.
Proof. apply N_ascii_bounded. Qed.

Lemma ascii_eqb_N a b : Ascii.eqb a b = (N_of_ascii a =? N_of_ascii b)%N.
Proof.
  destruct (Ascii.eqb_spec a b) as [->|Hne].
  - by rewrite N.eqb_refl.
  - symmetry. apply N.eqb_neq. intros H. apply Hne.
    by rewrite <- (ascii_N_embedding a), <- (ascii_N_embedding b), H.
Qed.

Lemma N_of_lowerByte a :
  N_of_ascii (strings.lowerByte a)
  = (if strings.isUpper a then N_of_ascii a + 32 else N_of_ascii a)%N.
Proof.
  unfold strings.lowerByte. destruct (strings.isUpper a) eqn:E; [|done].
  apply N_ascii_embedding. unfold strings.isUpper in E.
  apply andb_prop in E as [_ E%N.leb_le]. lia.
Qed.

Lemma foldEq_lowerByte a b :
  strings.foldEq a b
  = Ascii.eqb (strings.lowerByte a) (strings.lowerByte b).
Proof.
  unfold strings.foldEq. rewrite !ascii_eqb_N, !N_of_lowerByte.
  unfold strings.isUpper.
  destruct (N.leb_spec 65 (N_of_ascii a)), (N.leb_spec (N_of_ascii a) 90),
    (N.leb_spec 65 (N_of_ascii b)), (N.leb_spec (N_of_ascii b) 90);
    cbn [andb orb];
    repeat match goal with
           | |- context [(?x =? ?y)%N] => destruct (N.eqb_spec x y)
           end; cbn [andb orb]; try reflexivity; lia.
Qed.

Lemma isUpper_lowerByte a : strings.isUpper (strings.lowerByte a) = false.
Proof.
  unfold strings.isUpper at 1. rewrite N_of_lowerByte.
  destruct (strings.isUpper a) eqn:E; unfold strings.isUpper in E.
  - apply andb_prop in E as [E1%N.leb_le E2%N.leb_le].
    apply andb_false_iff. right. apply N.leb_gt. lia.
  - done.
Qed.

Lemma lowerByte_idem a :
  strings.lowerByte (strings.lowerByte a) = strings.lowerByte a.
Proof. unfold strings.lowerByte at 1. by rewrite isUpper_lowerByte. Qed.

Lemma ToLower_idem s : strings.ToLower (strings.ToLower s) = strings.ToLower s.
Proof. induction s as [|a s IH]; simpl; [done|]. by rewrite lowerByte_idem, IH. Qed.

Lemma EqualFold_ToLower s t :
  strings.EqualFold s t = String.eqb (strings.ToLower s) (strings.ToLower t).
Proof.
  revert t. induction s as [|a s IH]; intros [|b t]; simpl; try done.
  by rewrite foldEq_lowerByte, IH.
Qed.

Lemma nonEmpty_ToLower s :
  spotify.nonEmpty (strings.ToLower s) = spotify.nonEmpty s.
Proof. by destruct s. Qed.

Lemma HasPrefix_refl s : strings.HasPrefix s s = true.
Proof. induction s as [|a s IH]; simpl; [done|]. by rewrite Ascii.eqb_refl. Qed.

Lemma Contains_refl s : strings.Contains s s = true.
Proof. destruct s; simpl; [done|]. by rewrite Ascii.eqb_refl, HasPrefix_refl. Qed.

Lemma EqualFold_refl s : strings.EqualFold s s = true.
Proof. rewrite EqualFold_ToLower. apply String.eqb_refl. Qed.

(** Both scorers read their arguments through [ToLower] (or [EqualFold])
    and tests for emptiness only. *)
Lemma spotify_foldTrack source matched :
  spotify.calculateConfidence (foldTrack source) (foldTrack matched)
  = spotify.calculateConfidence source matched.
Proof.
  unfold spotify.calculateConfidence, foldTrack. cbn [Name Artist Album ISRC].
  by rewrite !EqualFold_ToLower, !ToLower_idem, !nonEmpty_ToLower.
Qed.

Lemma youtube_foldTrack source matched :
  youtube.calculateConfidence (foldTrack source) (foldTrack matched)
  = youtube.calculateConfidence source matched.
Proof.
  unfold youtube.calculateConfidence, foldTrack. cbn [Name Artist Album ISRC].
  by rewrite !ToLower_idem.
Qed.

(** The sums the scorers can reach at most. *)
Lemma sum_50_35_15 :
  f64.add (f64.add (f64.add f64.zero (f64.dec 5 10)) (f64.dec 35 100))
    (f64.dec 15 100) = f64.dec 1 1.
Proof. vm_compute. reflexivity. Qed.

Lemma sum_50_35 :
  f64.add (f64.add f64.zero (f64.dec 5 10)) (f64.dec 35 100) = f64.dec 85 100.
Proof. vm_compute. reflexivity. Qed.

Lemma sum_50_40_10 :
  f64.add (f64.add (f64.add f64.zero (f64.dec 5 10)) (f64.dec 4 10))
    (f64.dec 1 10) = f64.dec 1 1.
Proof. vm_compute. reflexivity. Qed.

Lemma gtb_1_1 : f64.gtb (f64.dec 1 1) (f64.dec 1 1) = false.
Proof. vm_compute. reflexivity. Qed.

Lemma gtb_85_1 : f64.gtb (f64.dec 85 100) (f64.dec 1 1) = false.
Proof. vm_compute. reflexivity. Qed.

(** The structured-metadata scorer, by the tests it makes. *)
Lemma spotify_score_table (isrc name nameIn artist artistIn album : bool) :
  (if isrc then f64.dec 1 1
   else
     let score := f64.zero in
     let score := if name then f64.add score (f64.dec 5 10)
                  else if nameIn then f64.add score (f64.dec 3 10) else score in
     let score := if artist then f64.add score (f64.dec 35 100)
                  else if artistIn then f64.add score (f64.dec 2 10)
                       else score in
     let score := if album then f64.add score (f64.dec 15 100) else score in
     if f64.gtb score (f64.dec 1 1) then f64.dec 1 1 else score)
  = f64.dec 1 1
  ↔ isrc || (name && artist && album) = true.
Proof.
  destruct isrc, name, nameIn, artist, artistIn, album; vm_compute;
    split; intros H; first [reflexivity | discriminate H].
Qed.

End LetterCase.

(** X12: the structured-metadata scorer returns 1.0 in two cases only: both
    tracks carry an ISRC and the two are equal up to case, or the names are
    equal up to case, the artists are, and the source has an album that
    equals the candidate's up to case (0.5 + 0.35 + 0.15 is exactly 1.0).
    Any partial match stays below. *)
Theorem spotify_full_confidence_iff (source matched : Track) :
  spotify.calculateConfidence source matched = f64.dec 1 1
  ↔ (ISRC source ≠ "" ∧ ISRC matched ≠ ""
     ∧ strings.EqualFold (ISRC source) (ISRC matched) = true)
    ∨ (strings.EqualFold (Name source) (Name matched) = true
       ∧ strings.EqualFold (Artist source) (Artist matched) = true
       ∧ Album source ≠ ""
       ∧ strings.EqualFold (Album source) (Album matched) = true).
Proof.
  unfold spotify.calculateConfidence. rewrite spotify_score_table.
  unfold spotify.nonEmpty.
  rewrite orb_true_iff, !andb_true_iff, !negb_true_iff, !String.eqb_neq.
  tauto.
Qed.

(** X13: a track scored against itself gets full confidence from the
    title-only scorer, and from the structured-metadata scorer when it has
    an ISRC or an album; with neither, the structured-metadata scorer
    stops at 0.85 (name and artist). *)
Theorem track_scored_against_itself (t : Track) :
  youtube.calculateConfidence t t = f64.dec 1 1
  ∧ spotify.calculateConfidence t t
    = if spotify.nonEmpty (ISRC t) || spotify.nonEmpty (Album t)
      then f64.dec 1 1 else f64.dec 85 100.
Proof.
  split.
  - unfold youtube.calculateConfidence.
    rewrite !Contains_refl, String.eqb_refl. cbn [orb].
    by rewrite sum_50_40_10, gtb_1_1.
  - unfold spotify.calculateConfidence. rewrite !EqualFold_refl, !andb_true_r.
    rewrite andb_diag.
    destruct (spotify.nonEmpty (ISRC t)); [done|]. cbn [orb].
    destruct (spotify.nonEmpty (Album t)).
    + by rewrite sum_50_35_15, gtb_1_1.
    + by rewrite sum_50_35, gtb_85_1.
Qed.

(** X14: on tracks whose texts are ASCII, both scorers ignore letter case
    and the identifiers of the tracks: two sources that agree up to case in
    name, artist, album and ISRC, scored against two candidates that agree
    up to case, get the same score. *)
Theorem scorers_ignore_letter_case (source source' matched matched' : Track) :
  asciiTrack source = true → asciiTrack source' = true →
  asciiTrack matched = true → asciiTrack matched' = true →
  foldTrack source = foldTrack source' →
  foldTrack matched = foldTrack matched' →
  spotify.calculateConfidence source matched
  = spotify.calculateConfidence source' matched'
  ∧ youtube.calculateConfidence source matched
    = youtube.calculateConfidence source' matched'.
Proof.
  intros _ _ _ _ Hs Hm.
  rewrite <- (spotify_foldTrack source), <- (spotify_foldTrack source').
  rewrite <- (youtube_foldTrack source), <- (youtube_foldTrack source').
  by rewrite Hs, Hm.
Qed.

Lemma scorers_ignore_letter_case_witness :
  let source := {| Name := "Bohemian Rhapsody"; Artist := "Queen";
                   Album := "A Night at the Opera"; ISRC := "GBUM71029604";
                   ExternalID := "sp-1" |} in
  let source' := {| Name := "BOHEMIAN rhapsody"; Artist := "QUEEN";
                    Album := "a night at the opera"; ISRC := "gbum71029604";
                    ExternalID := "" |} in
  let matched := {| Name := "Queen - Bohemian Rhapsody (Official Video)";
                    Artist := "Queen Official"; Album := ""; ISRC := "";
                    ExternalID := "vid-1" |} in
  let matched' := {| Name := "QUEEN - BOHEMIAN RHAPSODY (official video)";
                     Artist := "queen official"; Album := ""; ISRC := "";
                     ExternalID := "vid-2" |} in
  spotify.calculateConfidence source matched
  = spotify.calculateConfidence source' matched'
  ∧ youtube.calculateConfidence source matched
    = youtube.calculateConfidence source' matched'.
Proof.
  intros source source' matched matched'.
  apply (scorers_ignore_letter_case source source' matched matched');
    reflexivity.
Defined.

(** ** Strings: trimming and cutting *)

Section Trimming.
Implicit Types (s t sep : string) (c : ascii).

Lemma append_nil_l s : "" +:+ s = s.
Proof. reflexivity. Qed.

Lemma append_cons c s t : String c s +:+ t = String c (s +:+ t).
Proof. reflexivity. Qed.

Lemma append_nil_r s : s +:+ "" = s.
Proof.
  induction s as [|c s IH]; [done|]. by rewrite append_cons, IH.
Qed.

Lemma append_assoc s t u : (s +:+ t) +:+ u = s +:+ (t +:+ u).
Proof.
  induction s as [|c s IH]; [done|]. by rewrite !append_cons, IH.
Qed.

Lemma eqb_nil_r s : String.eqb s "" = true ↔ s = "".
Proof. by destruct s. Qed.

Lemma trimLeft_id s : startsWithSpace s = false → strings.trimLeft s = s.
Proof. destruct s as [|c s]; simpl; [done|]. by intros ->. Qed.

Lemma trimLeft_starts s : startsWithSpace (strings.trimLeft s) = false.
Proof.
  induction s as [|c s IH]; simpl; [done|].
  destruct (strings.isSpace c) eqn:E; [done|]. simpl. by rewrite E.
Qed.

Lemma endsWithSpace_cons c s :
  s ≠ "" → endsWithSpace (String c s) = endsWithSpace s.
Proof. by destruct s. Qed.

Lemma trimRight_nil_iff s :
  strings.trimRight s = "" → s = "" ∨ endsWithSpace s = true.
Proof.
  induction s as [|c s IH]; simpl; [by left|].
  destruct (strings.isSpace c) eqn:Ec; simpl; [|done].
  destruct (String.eqb (strings.trimRight s) "") eqn:E; [|done].
  intros _. right. apply eqb_nil_r in E.
  destruct (IH E) as [->|H]; [done|]. destruct s; [done|]. done.
Qed.

Lemma trimRight_cons c s :
  strings.trimRight (String c s)
  = if strings.isSpace c && String.eqb (strings.trimRight s) ""
    then "" else String c (strings.trimRight s).
Proof. reflexivity. Qed.

Lemma trimRight_id s : endsWithSpace s = false → strings.trimRight s = s.
Proof.
  induction s as [|c s IH]; [done|].
  destruct s as [|c' s'].
  - simpl. intros ->. done.
  - intros H. rewrite endsWithSpace_cons in H by done.
    rewrite trimRight_cons, (IH H). simpl. by rewrite andb_false_r.
Qed.

Lemma trimRight_ends s : endsWithSpace (strings.trimRight s) = false.
Proof.
  induction s as [|c s IH]; [done|]. rewrite trimRight_cons.
  destruct (strings.isSpace c && String.eqb (strings.trimRight s) "") eqn:E;
    [done|].
  destruct (strings.trimRight s) as [|c' t] eqn:Et.
  - simpl in *. by rewrite andb_true_r in E.
  - by rewrite endsWithSpace_cons.
Qed.

Lemma trimRight_starts s :
  startsWithSpace s = false → startsWithSpace (strings.trimRight s) = false.
Proof.
  destruct s as [|c s]; [done|]. intros H. simpl in H.
  rewrite trimRight_cons, H. simpl. done.
Qed.

Lemma trimLeft_ends s :
  endsWithSpace s = false → endsWithSpace (strings.trimLeft s) = false.
Proof.
  induction s as [|c s IH]; [done|]. cbn [strings.trimLeft].
  destruct (strings.isSpace c) eqn:Ec; [|done].
  destruct s as [|c' s']; [done|]. intros H. apply IH.
  by rewrite endsWithSpace_cons in H.
Qed.

Lemma trimLeft_nil s :
  strings.trimLeft s = "" → s = "" ∨ endsWithSpace s = true.
Proof.
  induction s as [|c s IH]; [by left|]. simpl.
  destruct (strings.isSpace c) eqn:Ec; [|done].
  intros H. right. destruct (IH H) as [->|Hs]; [done|].
  destruct s; [done|]. done.
Qed.

(** A string is left as it is by [TrimSpace] exactly when it has no white
    space at either end. *)
Lemma TrimSpace_id_iff s :
  strings.TrimSpace s = s
  ↔ startsWithSpace s = false ∧ endsWithSpace s = false.
Proof.
  unfold strings.TrimSpace. split.
  - intros H. split.
    + rewrite <- H. apply trimRight_starts, trimLeft_starts.
    + rewrite <- H. apply trimRight_ends.
  - intros [H1 H2]. by rewrite trimLeft_id, trimRight_id.
Qed.

Lemma TrimSpace_trimmed s :
  startsWithSpace (strings.TrimSpace s) = false
  ∧ endsWithSpace (strings.TrimSpace s) = false.
Proof.
  unfold strings.TrimSpace. split.
  - apply trimRight_starts, trimLeft_starts.
  - apply trimRight_ends.
Qed.

Lemma TrimSpace_idem s :
  strings.TrimSpace (strings.TrimSpace s) = strings.TrimSpace s.
Proof. apply TrimSpace_id_iff, TrimSpace_trimmed. Qed.

Lemma TrimSpace_ne_starts s :
  s ≠ "" → startsWithSpace s = false → strings.TrimSpace s ≠ "".
Proof.
  unfold strings.TrimSpace. intros Hs H. rewrite trimLeft_id by done.
  destruct s as [|c s]; [done|]. simpl in *. by rewrite H.
Qed.

Lemma TrimSpace_ne_ends s :
  s ≠ "" → endsWithSpace s = false → strings.TrimSpace s ≠ "".
Proof.
  unfold strings.TrimSpace. intros Hs H Ht.
  rewrite trimRight_id in Ht by by apply trimLeft_ends.
  destruct (trimLeft_nil _ Ht) as [?|?]; congruence.
Qed.

(** *** [HasPrefix], [Contains] and [Cut] *)

Lemma HasPrefix_app s sep : strings.HasPrefix (sep +:+ s) sep = true.
Proof.
  induction sep as [|c sep IH]; [by destruct s|].
  rewrite append_cons. simpl. by rewrite Ascii.eqb_refl.
Qed.

Lemma HasPrefix_split s sep :
  strings.HasPrefix s sep = true →
  s = sep +:+ strings.sliceFrom (String.length sep) s.
Proof.
  revert s. induction sep as [|c sep IH]; intros s; simpl; [done|].
  destruct s as [|c' s]; [done|].
  intros [Hc Hs]%andb_prop. apply Ascii.eqb_eq in Hc as ->.
  rewrite append_cons. f_equal. by apply IH.
Qed.

Lemma sliceFrom_app sep s : strings.sliceFrom (String.length sep) (sep +:+ s) = s.
Proof.
  induction sep as [|c sep IH]; [by destruct s|]. by rewrite append_cons.
Qed.

Lemma Cut_nil sep :
  strings.Cut "" sep
  = if strings.HasPrefix "" sep
    then Some ("", strings.sliceFrom (String.length sep) "") else None.
Proof. reflexivity. Qed.

Lemma Cut_cons c s sep :
  strings.Cut (String c s) sep
  = if strings.HasPrefix (String c s) sep
    then Some ("", strings.sliceFrom (String.length sep) (String c s))
    else match strings.Cut s sep with
         | Some (before, after) => Some (String c before, after)
         | None => None
         end.
Proof. reflexivity. Qed.

Lemma HasPrefix_cons a b s p :
  strings.HasPrefix (String b s) (String a p)
  = Ascii.eqb a b && strings.HasPrefix s p.
Proof. reflexivity. Qed.

Lemma Contains_cons c s sep :
  strings.Contains (String c s) sep
  = strings.HasPrefix (String c s) sep || strings.Contains s sep.
Proof. reflexivity. Qed.

Lemma Cut_Some s sep before after :
  strings.Cut s sep = Some (before, after) → s = before +:+ sep +:+ after.
Proof.
  revert before after. induction s as [|c s IH]; intros before after;
    rewrite ?Cut_nil, ?Cut_cons.
  - destruct (strings.HasPrefix "" sep) eqn:E; [|done].
    intros [= <- <-]. by apply HasPrefix_split in E.
  - destruct (strings.HasPrefix (String c s) sep) eqn:E.
    + intros [= <- <-]. by apply HasPrefix_split in E.
    + destruct (strings.Cut s sep) as [[b a]|] eqn:Ec; [|done].
      intros [= <- <-]. rewrite append_cons. f_equal. by apply IH.
Qed.

Lemma Cut_None s sep :
  strings.Cut s sep = None ↔ strings.Contains s sep = false.
Proof.
  induction s as [|c s IH]; rewrite ?Cut_nil, ?Cut_cons, ?Contains_cons.
  - unfold strings.Contains.
    destruct (strings.HasPrefix "" sep); simpl; by split.
  - destruct (strings.HasPrefix (String c s) sep); simpl; [by split|].
    rewrite <- IH. by destruct (strings.Cut s sep) as [[? ?]|].
Qed.

Lemma Cut_is_Some s sep :
  is_Some (strings.Cut s sep) ↔ strings.Contains s sep = true.
Proof.
  rewrite <- not_eq_None_Some, Cut_None. by destruct (strings.Contains s sep).
Qed.

(** With one occurrence at most to replace, and with two pieces at most. *)
Lemma Replace_1 s old new :
  old ≠ "" →
  strings.Replace s old new 1
  = match strings.Cut s old with
    | Some (before, after) => before +:+ new +:+ after
    | None => s
    end.
Proof.
  intros Hold. unfold strings.Replace.
  destruct (String.length s) as [|n] eqn:El.
  - destruct s; [|done]. by destruct old.
  - simpl. destruct (strings.Cut s old) as [[b a]|]; [|done].
    by destruct n.
Qed.

Lemma SplitN_2 s sep :
  sep ≠ "" →
  strings.SplitN s sep 2
  = match strings.Cut s sep with
    | Some (before, after) => [before; after]
    | None => [s]
    end.
Proof.
  intros Hsep. unfold strings.SplitN. simpl.
  destruct (String.length s) as [|n] eqn:El.
  - destruct s; [|done]. by destruct sep.
  - simpl. destruct (strings.Cut s sep) as [[b a]|]; [|done].
    by destruct n.
Qed.

Lemma Replace_absent s old new :
  old ≠ "" → strings.Contains s old = false → strings.Replace s old new 1 = s.
Proof. intros Hold H%Cut_None. by rewrite Replace_1, H. Qed.

Lemma startsWithSpace_app s t :
  s ≠ "" → startsWithSpace (s +:+ t) = startsWithSpace s.
Proof. by destruct s. Qed.

Lemma endsWithSpace_app s t :
  t ≠ "" → endsWithSpace (s +:+ t) = endsWithSpace t.
Proof.
  intros Ht. induction s as [|c s IH]; [done|].
  rewrite append_cons, endsWithSpace_cons; [done|].
  destruct s; [by destruct t|done].
Qed.

(** In [a - b], with no [" -"] in [a], the first [" - "] is the one
    written. *)
Lemma Cut_dash a b :
  strings.Contains a " -" = false →
  strings.Cut (a +:+ " - " +:+ b) " - " = Some (a, b).
Proof.
  induction a as [|c a IH]; intros Ha.
  - rewrite append_nil_l. destruct b; reflexivity.
  - rewrite Contains_cons in Ha. apply orb_false_elim in Ha as [Hp Hc].
    rewrite append_cons, Cut_cons, (IH Hc).
    assert (strings.HasPrefix (String c (a +:+ " - " +:+ b)) " - " = false)
      as ->; [|done].
    destruct a as [|c' a].
    + rewrite append_nil_l.
      change (" - " +:+ b) with (String " " (String "-" (String " " b))).
      rewrite !HasPrefix_cons. change (Ascii.eqb "-" " ") with false.
      by rewrite andb_false_r.
    + rewrite append_cons, !HasPrefix_cons.
      rewrite !HasPrefix_cons, HasPrefix_empty in Hp.
      destruct (Ascii.eqb " " c); [|done].
      destruct (Ascii.eqb "-" c'); [done|]. done.
Qed.

End Trimming.

(** ** parseVideoTitle *)

Section VideoTitle.

Lemma suffixes_nonempty suffix : suffix ∈ youtube.suffixes → suffix ≠ "".
Proof.
  unfold youtube.suffixes. rewrite !elem_of_cons, elem_of_nil.
  intros H ->. repeat (destruct H as [H|H]; [discriminate H|]). done.
Qed.

Lemma cleanTitle_trimmed title :
  strings.TrimSpace (youtube.cleanTitle title) = youtube.cleanTitle title.
Proof.
  unfold youtube.cleanTitle.
  change youtube.suffixes with (removelast youtube.suffixes ++ ["(HQ)"]).
  rewrite foldl_app. cbn [foldl]. apply TrimSpace_idem.
Qed.

Lemma cleanTitle_id title :
  strings.TrimSpace title = title →
  (∀ suffix, suffix ∈ youtube.suffixes →
             strings.Contains title suffix = false) →
  youtube.cleanTitle title = title.
Proof.
  intros Ht Hs. unfold youtube.cleanTitle.
  pose proof suffixes_nonempty as Hne.
  induction youtube.suffixes as [|suffix l IH]; [done|]. cbn [foldl].
  rewrite Replace_absent, Ht.
  - apply IH; intros; [apply Hs|apply Hne]; by right.
  - apply Hne. by left.
  - apply Hs. by left.
Qed.

Lemma parseVideoTitle_Cut title :
  youtube.parseVideoTitle title
  = match strings.Cut (youtube.cleanTitle title) " - " with
    | Some (part0, part1) => (strings.TrimSpace part1, strings.TrimSpace part0)
    | None => (youtube.cleanTitle title, "")
    end.
Proof.
  unfold youtube.parseVideoTitle. rewrite SplitN_2 by done.
  by destruct (strings.Cut _ _) as [[? ?]|].
Qed.

Lemma youtube_appendTracks_acc tracks items :
  youtube.appendTracks tracks items = tracks ++ youtube.appendTracks [] items.
Proof.
  revert tracks. induction items as [|item items IH]; intros tracks;
    cbn [youtube.appendTracks].
  - by rewrite app_nil_r.
  - destruct (String.eqb _ ""); [apply IH|].
    destruct (youtube.parseVideoTitle _) as [name artist].
    rewrite IH, (IH ([] ++ _)), app_nil_l. by rewrite <- app_assoc.
Qed.

Lemma youtube_appendTracks_app tracks items1 items2 :
  youtube.appendTracks tracks (items1 ++ items2)
  = youtube.appendTracks (youtube.appendTracks tracks items1) items2.
Proof.
  revert tracks. induction items1 as [|item items1 IH]; intros tracks;
    [done|].
  rewrite <- app_comm_cons. cbn [youtube.appendTracks].
  destruct (String.eqb _ ""); [apply IH|].
  destruct (youtube.parseVideoTitle _) as [name artist]. apply IH.
Qed.

End VideoTitle.

(** X15: of an ASCII title parseVideoTitle returns a name and an artist
    without white space at their ends.  It returns an artist exactly when
    the title, once the known suffixes are removed, contains " - "; then
    the name is not empty either.  Otherwise the name is the whole cleaned
    title. *)
Theorem parseVideoTitle_shape (title : string) :
  isASCII title = true →
  let cleaned := youtube.cleanTitle title in
  let name := (youtube.parseVideoTitle title).1 in
  let artist := (youtube.parseVideoTitle title).2 in
  strings.TrimSpace name = name ∧ strings.TrimSpace artist = artist
  ∧ (artist ≠ "" ↔ strings.Contains cleaned " - " = true)
  ∧ (artist ≠ "" → name ≠ "")
  ∧ (artist = "" → name = cleaned).
Proof.
  intros _ cleaned name artist. subst name artist.
  rewrite parseVideoTitle_Cut. fold cleaned.
  pose proof (cleanTitle_trimmed title) as Htrim. fold cleaned in Htrim.
  apply TrimSpace_id_iff in Htrim as [Hstart Hend].
  destruct (strings.Cut cleaned " - ") as [[part0 part1]|] eqn:Ec; cbn [fst snd].
  - pose proof (Cut_Some _ _ _ _ Ec) as Heq.
    assert (H0 : strings.TrimSpace part0 ≠ "").
    { assert (part0 ≠ "").
      { intros ->. by rewrite Heq in Hstart. }
      apply TrimSpace_ne_starts; [done|].
      by rewrite Heq, startsWithSpace_app in Hstart. }
    assert (H1 : strings.TrimSpace part1 ≠ "").
    { assert (part1 ≠ "").
      { intros ->. rewrite Heq, endsWithSpace_app in Hend by done. done. }
      apply TrimSpace_ne_ends; [done|].
      rewrite Heq, endsWithSpace_app in Hend; [|by destruct part1].
      by rewrite endsWithSpace_app in Hend. }
    split; [apply TrimSpace_idem|]. split; [apply TrimSpace_idem|].
    split; [|done].
    split; [|done]. intros _. apply Cut_is_Some. by rewrite Ec.
  - split; [by apply TrimSpace_id_iff|]. split; [done|].
    apply Cut_None in Ec. rewrite Ec. split; [by split|]. done.
Qed.

Lemma parseVideoTitle_shape_witness :
  let title := "Daft Punk - Get Lucky (Official Video)" in
  let cleaned := youtube.cleanTitle title in
  let name := (youtube.parseVideoTitle title).1 in
  let artist := (youtube.parseVideoTitle title).2 in
  strings.TrimSpace name = name ∧ strings.TrimSpace artist = artist
  ∧ (artist ≠ "" ↔ strings.Contains cleaned " - " = true)
  ∧ (artist ≠ "" → name ≠ "")
  ∧ (artist = "" → name = cleaned).
Proof.
  apply (parseVideoTitle_shape "Daft Punk - Get Lucky (Official Video)").
  reflexivity.
Defined.

(** X16: an ASCII title written "<artist> - <name>" is split back into that
    name and that artist, provided neither is empty or has white space at
    its ends, the artist contains no " -", and the title contains none of
    the suffixes that are removed. *)
Theorem parseVideoTitle_artist_dash_name (artist name : string) :
  isASCII artist = true → isASCII name = true →
  artist ≠ "" → name ≠ "" →
  strings.TrimSpace artist = artist → strings.TrimSpace name = name →
  strings.Contains artist " -" = false →
  (∀ suffix, suffix ∈ youtube.suffixes →
     strings.Contains (artist +:+ " - " +:+ name) suffix = false) →
  youtube.parseVideoTitle (artist +:+ " - " +:+ name) = (name, artist).
Proof.
  intros _ _ Ha Hn Hta Htn Hdash Hsuf.
  rewrite parseVideoTitle_Cut, cleanTitle_id; [|clear Hsuf|done].
  - by rewrite Cut_dash, Hta, Htn.
  - apply TrimSpace_id_iff in Hta as [Ha1 Ha2], Htn as [Hn1 Hn2].
    apply TrimSpace_id_iff. split.
    + by rewrite startsWithSpace_app.
    + rewrite endsWithSpace_app by by destruct name.
      by rewrite endsWithSpace_app.
Qed.

Lemma parseVideoTitle_artist_dash_name_witness :
  youtube.parseVideoTitle "Daft Punk - Get Lucky" = ("Get Lucky", "Daft Punk").
Proof.
  apply (parseVideoTitle_artist_dash_name "Daft Punk" "Get Lucky");
    try discriminate; try reflexivity.
  intros suffix. unfold youtube.suffixes. rewrite !elem_of_cons, elem_of_nil.
  intros H. repeat (destruct H as [->|H]; [reflexivity|]). done.
Defined.

(** X17: the tracks GetPlaylistTracks builds from the items of a page: an
    item without a video ID is dropped; every other item gives one track,
    in the order of the items, appended to the tracks of the pages before.
    The track's ExternalID is the video ID; it has no album and no ISRC;
    its name is empty only if the video title is; its artist is the one
    parsed from the title or else the channel title. *)
Theorem youtube_tracks_of_playlist_items (tracks : list Track)
    (items : list youtube.playlistItemResource) :
  let new := youtube.appendTracks [] items in
  youtube.appendTracks tracks items = tracks ++ new
  ∧ Forall2
      (λ item t,
         let snippet := youtube.item_Snippet item in
         let parsed := youtube.parseVideoTitle (youtube.item_Title snippet) in
         ExternalID t = videoID item ∧ ExternalID t ≠ ""
         ∧ Album t = "" ∧ ISRC t = ""
         ∧ Name t = (if String.eqb parsed.1 ""
                     then youtube.item_Title snippet else parsed.1)
         ∧ (youtube.item_Title snippet ≠ "" → Name t ≠ "")
         ∧ Artist t = (if String.eqb parsed.2 ""
                       then youtube.item_VideoOwnerChannelTitle snippet
                       else parsed.2))
      (filter (λ item, videoID item ≠ "") items) new.
Proof.
  intros new. subst new.
  pose proof (λ items tracks, youtube_appendTracks_acc tracks items) as Hacc.
  split; [apply Hacc|].
  induction items as [|item items IH]; [constructor|].
  rewrite filter_cons. cbn [youtube.appendTracks]. fold (videoID item).
  destruct (String.eqb_spec (videoID item) "") as [He|Hne].
  - by rewrite decide_False by (by intros ?).
  - rewrite decide_True by done.
    destruct (youtube.parseVideoTitle _) as [name artist] eqn:Ep.
    rewrite Hacc, app_nil_l. cbn [app]. constructor; [|done].
    cbv zeta. rewrite !Ep. cbn [ExternalID Album ISRC Name Artist fst snd].
    repeat split; try done.
    destruct (String.eqb_spec name ""); [done|]. by intros _.
Qed.

(** ** The YouTube adapter over HTTP *)

Section YouTubeHttp.
Context {W : Type}.
Variable client : nethttp.Client W.
Variable QueryEscape : string → string.
Variable Marshal : json.Value → string.
Variable Unmarshal_searchListResponse :
  string → youtube.searchListResponse * ports.error.
Variable Unmarshal_playlistItemsResponse :
  string → youtube.playlistItemsResponse * ports.error.
Implicit Types (h : nethttp.Http W) (ctx : ports.Context).

Lemma youtube_doGet_requests ctx token endpoint h :
  nethttp.requests (youtube.doGet client ctx token endpoint h).2
  = nethttp.requests h ++ [getRequest token endpoint].
Proof.
  unfold youtube.doGet, nethttp.send.
  destruct (client _ _ _) as [[resp|e] w]; [|done]. by case_match.
Qed.

Lemma youtube_doGet_ok ctx token endpoint h body h' :
  youtube.doGet client ctx token endpoint h = ((body, None), h') →
  ∃ resp,
    client ctx (getRequest token endpoint) (nethttp.world h)
    = (inl resp, nethttp.world h')
    ∧ nethttp.StatusCode resp = 200%Z ∧ body = nethttp.ResponseBody resp.
Proof.
  unfold youtube.doGet, nethttp.send. fold (getRequest token endpoint).
  destruct (client _ _ _) as [[resp|e] w]; [|done].
  destruct (Z.eqb_spec (nethttp.StatusCode resp) 200); [|done].
  intros [= <- <-]. by exists resp.
Qed.

Lemma youtube_doPost_requests ctx token endpoint payload h :
  nethttp.requests (youtube.doPost client ctx token endpoint payload h).2
  = nethttp.requests h ++ [postRequest token endpoint payload].
Proof.
  unfold youtube.doPost, nethttp.send.
  destruct (client _ _ _) as [[resp|e] w]; [|done]. by case_match.
Qed.

Lemma youtube_doPost_answer ctx token endpoint payload h :
  let run := youtube.doPost client ctx token endpoint payload h in
  let answer :=
    client ctx (postRequest token endpoint payload) (nethttp.world h) in
  run.1.2 = postFailure answer.1
  ∧ nethttp.world run.2 = answer.2
  ∧ nethttp.requests run.2
    = nethttp.requests h ++ [postRequest token endpoint payload].
Proof.
  unfold youtube.doPost, nethttp.send, postFailure.
  fold (postRequest token endpoint payload).
  destruct (client _ _ _) as [[resp|e] w]; [|done]. cbn [fst snd].
  destruct (Z.ltb_spec (nethttp.StatusCode resp) 200),
           (Z.leb_spec 300 (nethttp.StatusCode resp)),
           (Z.leb_spec 200 (nethttp.StatusCode resp)),
           (Z.ltb_spec (nethttp.StatusCode resp) 300);
    cbn [orb andb fst snd]; try done; lia.
Qed.

Lemma allButLast_cons {A} (x y : A) (l : list A) :
  allButLast (x :: y :: l) = x :: allButLast (y :: l).
Proof. unfold allButLast. cbn [length]. by rewrite !Nat.sub_succ, !Nat.sub_0_r. Qed.

Lemma pretty_maxResults : pretty youtube.maxResults = "50".
Proof. reflexivity. Qed.

Lemma youtube_page_endpoint playlistID pageToken :
  (if negb (String.eqb pageToken "")
   then (youtube.baseURL +:+ "/playlistItems?part=snippet&playlistId="
           +:+ playlistID +:+ "&maxResults=" +:+ pretty youtube.maxResults)
        +:+ "&pageToken=" +:+ pageToken
   else youtube.baseURL +:+ "/playlistItems?part=snippet&playlistId="
          +:+ playlistID +:+ "&maxResults=" +:+ pretty youtube.maxResults)
  = youtubePageURL playlistID pageToken.
Proof.
  unfold youtubePageURL. rewrite pretty_maxResults.
  destruct (String.eqb pageToken ""); cbn [negb];
    rewrite ?append_assoc; reflexivity.
Qed.

(** The loop of [GetPlaylistTracks], page after page. *)
Lemma youtube_getPlaylistTracksFrom_pages
    fuel ctx token playlistID pageToken tracks0 h tracks err h' :
  youtube.getPlaylistTracksFrom client Unmarshal_playlistItemsResponse fuel ctx
    token playlistID pageToken tracks0 h = Some ((tracks, err), h') →
  ∃ pages : list youtube.playlistItemsResponse,
    let tokens := pageToken :: (youtube.items_NextPageToken <$> pages) in
    let requested :=
      match err with Some _ => tokens | None => allButLast tokens end in
    Forall2 (λ t page,
               servedBy client Unmarshal_playlistItemsResponse ctx token
                 (youtubePageURL playlistID t) page)
      (allButLast tokens) pages
    ∧ Forall (λ page, youtube.items_NextPageToken page ≠ "")
        (match err with Some _ => pages | None => allButLast pages end)
    ∧ nethttp.requests h'
      = nethttp.requests h
        ++ ((λ t, getRequest token (youtubePageURL playlistID t)) <$> requested)
    ∧ match err with
      | None =>
          youtube.items_NextPageToken <$> last pages = Some ""
          ∧ tracks
            = youtube.appendTracks tracks0
                (concat (youtube.items_Items <$> pages))
      | Some e =>
          tracks = []
          ∧ ∃ cause,
              e = "youtube: failed to get playlist items: " +:+ cause
              ∨ e = "youtube: failed to parse playlist items response: "
                    +:+ cause
      end.
Proof.
  revert pageToken tracks0 h.
  induction fuel as [|fuel IH]; intros pageToken tracks0 h; [done|].
  cbn [youtube.getPlaylistTracksFrom]. rewrite youtube_page_endpoint.
  pose proof (youtube_doGet_requests ctx token
                (youtubePageURL playlistID pageToken) h) as Hreq.
  pose proof (youtube_doGet_ok ctx token
                (youtubePageURL playlistID pageToken) h) as Hok.
  destruct (youtube.doGet _ _ _ _ _) as [[body [e|]] h1]; cbn [snd] in Hreq.
  { intros [= <- <- <-]. exists []. cbn.
    split; [constructor|]. split; [done|]. split; [done|]. split; [done|]. eauto. }
  destruct (Hok body h1 eq_refl) as (rsp & Hclient & Hstatus & ->). clear Hok.
  destruct (Unmarshal_playlistItemsResponse (nethttp.ResponseBody rsp))
    as [resp [e|]] eqn:Hdec.
  { intros [= <- <- <-]. exists []. cbn.
    split; [constructor|]. split; [done|]. split; [done|]. split; [done|]. eauto. }
  assert (Hserved : servedBy client Unmarshal_playlistItemsResponse ctx token
                      (youtubePageURL playlistID pageToken) resp).
  { by exists (nethttp.world h), rsp, (nethttp.world h1). }
  destruct (String.eqb_spec (youtube.items_NextPageToken resp) "") as [Hlast|Hmore].
  - intros [= <- <- <-]. exists [resp]. cbn.
    split; [by repeat constructor|]. split; [done|]. split; [done|].
    rewrite Hlast, app_nil_r. done.
  - intros Hrun.
    destruct (IH _ _ _ Hrun) as (pages & Hserve & Hne & Hreqs & Hres).
    exists (resp :: pages). cbn zeta in *.
    rewrite !fmap_cons, !allButLast_cons.
    split; [by constructor|].
    destruct err as [e|].
    + split; [by constructor|]. split; [|done].
      by rewrite Hreqs, Hreq, <- app_assoc.
    + destruct Hres as [Hl Ht].
      destruct pages as [|page pages]; [done|].
      rewrite !fmap_cons, !allButLast_cons in *.
      split; [by constructor|]. split.
      * by rewrite Hreqs, Hreq, <- app_assoc.
      * split; [done|]. rewrite Ht.
        by rewrite (concat_cons (youtube.items_Items resp)),
             youtube_appendTracks_app.
Qed.

Lemma youtube_getPlaylistTracksFrom_fuel
    fuel fuel' ctx token playlistID pageToken tracks0 h r :
  youtube.getPlaylistTracksFrom client Unmarshal_playlistItemsResponse fuel ctx
    token playlistID pageToken tracks0 h = Some r →
  fuel ≤ fuel' →
  youtube.getPlaylistTracksFrom client Unmarshal_playlistItemsResponse fuel' ctx
    token playlistID pageToken tracks0 h = Some r.
Proof.
  revert fuel' pageToken tracks0 h.
  induction fuel as [|fuel IH]; intros fuel' pageToken tracks0 h; [done|].
  destruct fuel' as [|fuel']; [lia|]. intros Hrun Hle.
  cbn [youtube.getPlaylistTracksFrom] in *.
  destruct (youtube.doGet _ _ _ _ _) as [[body [e|]] h1]; [done|].
  destruct (Unmarshal_playlistItemsResponse body) as [resp [e|]]; [done|].
  destruct (String.eqb _ ""); [done|]. apply IH; [done|lia].
Qed.

End YouTubeHttp.

(** ** The Spotify adapter over HTTP *)

Section SpotifyHttp.
Context {W : Type}.
Variable client : nethttp.Client W.
Variable QueryEscape : string → string.
Variable Unmarshal_searchResponse : string → spotify.searchResponse * ports.error.
Variable Unmarshal_tracksResponse : string → spotify.tracksResponse * ports.error.
Implicit Types (h : nethttp.Http W) (ctx : ports.Context).

Lemma spotify_doGet_requests ctx token endpoint h :
  nethttp.requests (spotify.doGet client ctx token endpoint h).2
  = nethttp.requests h ++ [getRequest token endpoint].
Proof.
  unfold spotify.doGet, nethttp.send.
  destruct (client _ _ _) as [[resp|e] w]; [|done]. by case_match.
Qed.

Lemma spotify_doGet_ok ctx token endpoint h body h' :
  spotify.doGet client ctx token endpoint h = ((body, None), h') →
  ∃ resp,
    client ctx (getRequest token endpoint) (nethttp.world h)
    = (inl resp, nethttp.world h')
    ∧ nethttp.StatusCode resp = 200%Z ∧ body = nethttp.ResponseBody resp.
Proof.
  unfold spotify.doGet, nethttp.send. fold (getRequest token endpoint).
  destruct (client _ _ _) as [[resp|e] w]; [|done].
  destruct (Z.eqb_spec (nethttp.StatusCode resp) 200); [|done].
  intros [= <- <-]. by exists resp.
Qed.

Lemma spotify_doGet_answer ctx token endpoint h :
  let answer := client ctx (getRequest token endpoint) (nethttp.world h) in
  spotify.doGet client ctx token endpoint h
  = (match answer.1 with
     | inr e => ("", Some e)
     | inl resp =>
         if (nethttp.StatusCode resp =? 200)%Z
         then (nethttp.ResponseBody resp, None)
         else ("", Some ("spotify API returned status "
                         +:+ pretty (nethttp.StatusCode resp) +:+ ": "
                         +:+ nethttp.ResponseBody resp))
     end,
     {| nethttp.world := answer.2;
        nethttp.requests := nethttp.requests h ++ [getRequest token endpoint] |}).
Proof.
  unfold spotify.doGet, nethttp.send. fold (getRequest token endpoint).
  destruct (client _ _ _) as [[resp|e] w]; [|done]. cbn [fst snd].
  by destruct (nethttp.StatusCode resp =? 200)%Z.
Qed.

Lemma spotify_searchByISRC_answer ctx token track h :
  let rq := spotifyISRCSearch QueryEscape token track in
  let answer := client ctx rq (nethttp.world h) in
  spotify.searchByISRC client QueryEscape Unmarshal_searchResponse ctx token
    track h
  = (match spotifyFetched Unmarshal_searchResponse answer.1 with
     | FetchFailed cause | Undecodable cause => (None, f64.zero, Some cause)
     | Decoded page =>
         match spotify.search_Items (spotify.search_Tracks page) with
         | [] => (None, f64.zero, None)
         | first :: _ => (Some (spotify.toTrack first), f64.dec 1 1, None)
         end
     end,
     {| nethttp.world := answer.2;
        nethttp.requests := nethttp.requests h ++ [rq] |}).
Proof.
  unfold spotify.searchByISRC, spotifyISRCSearch. cbv zeta.
  rewrite spotify_doGet_answer.
  destruct (client _ _ _) as [[resp|e] w]; [|done]. cbn [fst snd spotifyFetched].
  destruct (nethttp.StatusCode resp =? 200)%Z; [|done].
  destruct (Unmarshal_searchResponse _) as [page [e|]]; [done|].
  by destruct (spotify.search_Items _).
Qed.

Lemma spotify_searchByName_answer ctx token track h :
  let rq := spotifyNameSearch QueryEscape token track in
  let answer := client ctx rq (nethttp.world h) in
  spotify.searchByName client QueryEscape Unmarshal_searchResponse ctx token
    track h
  = (nameSearchOutcome track
       (spotifyFetched Unmarshal_searchResponse answer.1),
     {| nethttp.world := answer.2;
        nethttp.requests := nethttp.requests h ++ [rq] |}).
Proof.
  unfold spotify.searchByName, spotifyNameSearch, nameSearchOutcome. cbv zeta.
  rewrite spotify_doGet_answer.
  destruct (client _ _ _) as [[resp|e] w]; [|done]. cbn [fst snd spotifyFetched].
  destruct (nethttp.StatusCode resp =? 200)%Z; [|done].
  destruct (Unmarshal_searchResponse _) as [page [e|]]; [done|].
  by destruct (spotify.search_Items _).
Qed.

Lemma nameSearchOutcome_in_unit track fetched :
  inUnitInterval (nameSearchOutcome track fetched).1.2.
Proof.
  unfold nameSearchOutcome.
  destruct fetched as [cause|cause|page]; cbn [fst snd];
    [by vm_compute|by vm_compute|].
  destruct (spotify.search_Items _); cbn [fst snd];
    [by vm_compute|apply spotify_in_unit].
Qed.

Lemma spotify_appendTracks_filter tracks items :
  spotify.appendTracks tracks items
  = tracks
    ++ (spotify.toTrack
          <$> filter (λ t, spotify.track_ID t ≠ "")
                (spotify.item_Track <$> items)).
Proof.
  revert tracks. induction items as [|item items IH]; intros tracks;
    cbn [spotify.appendTracks fmap list_fmap].
  - by rewrite app_nil_r.
  - rewrite filter_cons.
    destruct (String.eqb_spec (spotify.track_ID (spotify.item_Track item)) "").
    + rewrite decide_False by (by intros ?). apply IH.
    + rewrite decide_True by done. rewrite IH, fmap_cons.
      by rewrite <- app_assoc.
Qed.

Lemma spotify_appendTracks_app tracks items1 items2 :
  spotify.appendTracks tracks (items1 ++ items2)
  = spotify.appendTracks (spotify.appendTracks tracks items1) items2.
Proof.
  rewrite !spotify_appendTracks_filter, fmap_app, filter_app, fmap_app.
  by rewrite app_assoc.
Qed.

(** The loop of [GetPlaylistTracks], page after page. *)
Lemma spotify_getPlaylistTracksFrom_pages
    fuel ctx token endpoint tracks0 h tracks err h' :
  spotify.getPlaylistTracksFrom client Unmarshal_tracksResponse fuel ctx token
    endpoint tracks0 h = Some ((tracks, err), h') →
  ∃ pages : list spotify.tracksResponse,
    let urls := endpoint :: (spotify.tracks_Next <$> pages) in
    let requested :=
      match err with Some _ => urls | None => allButLast urls end in
    Forall2 (servedBy client Unmarshal_tracksResponse ctx token)
      (allButLast urls) pages
    ∧ Forall (λ url, url ≠ "") requested
    ∧ nethttp.requests h' = nethttp.requests h ++ (getRequest token <$> requested)
    ∧ match err with
      | None =>
          last urls = Some ""
          ∧ tracks
            = spotify.appendTracks tracks0
                (concat (spotify.tracks_Items <$> pages))
      | Some e =>
          tracks = []
          ∧ ∃ cause,
              e = "spotify: failed to get playlist tracks: " +:+ cause
              ∨ e = "spotify: failed to parse tracks response: " +:+ cause
      end.
Proof.
  revert endpoint tracks0 h.
  induction fuel as [|fuel IH]; intros endpoint tracks0 h;
    cbn [spotify.getPlaylistTracksFrom];
    destruct (String.eqb_spec endpoint "") as [->|Hne]; try done.
  - intros [= <- <- <-]. exists []. cbn. rewrite app_nil_r.
    split; [constructor|]. by repeat split.
  - intros [= <- <- <-]. exists []. cbn. rewrite app_nil_r.
    split; [constructor|]. by repeat split.
  - pose proof (spotify_doGet_requests ctx token endpoint h) as Hreq.
    pose proof (spotify_doGet_ok ctx token endpoint h) as Hok.
    destruct (spotify.doGet _ _ _ _ _) as [[body [e|]] h1]; cbn [snd] in Hreq.
    { intros [= <- <- <-]. exists []. cbn. split; [constructor|].
      split; [by repeat constructor|]. split; [done|]. split; [done|]. eauto. }
    destruct (Hok body h1 eq_refl) as (rsp & Hclient & Hstatus & ->). clear Hok.
    destruct (Unmarshal_tracksResponse (nethttp.ResponseBody rsp))
      as [resp [e|]] eqn:Hdec.
    { intros [= <- <- <-]. exists []. cbn. split; [constructor|].
      split; [by repeat constructor|]. split; [done|]. split; [done|]. eauto. }
    assert (Hserved : servedBy client Unmarshal_tracksResponse ctx token
                        endpoint resp).
    { by exists (nethttp.world h), rsp, (nethttp.world h1). }
    intros Hrun.
    destruct (IH _ _ _ Hrun) as (pages & Hserve & Hurls & Hreqs & Hres).
    exists (resp :: pages). cbn zeta in *.
    rewrite !fmap_cons, !allButLast_cons.
    split; [by constructor|].
    destruct err as [e|].
    + split; [by constructor|]. split; [|done].
      by rewrite Hreqs, Hreq, <- app_assoc.
    + split; [by constructor|]. split.
      * by rewrite Hreqs, Hreq, <- app_assoc.
      * destruct Hres as [Hl Ht]. split; [done|]. rewrite Ht.
        by rewrite (concat_cons (spotify.tracks_Items resp)),
             spotify_appendTracks_app.
Qed.

Lemma spotify_getPlaylistTracksFrom_fuel
    fuel fuel' ctx token endpoint tracks0 h r :
  spotify.getPlaylistTracksFrom client Unmarshal_tracksResponse fuel ctx token
    endpoint tracks0 h = Some r →
  fuel ≤ fuel' →
  spotify.getPlaylistTracksFrom client Unmarshal_tracksResponse fuel' ctx token
    endpoint tracks0 h = Some r.
Proof.
  revert fuel' endpoint tracks0 h.
  induction fuel as [|fuel IH]; intros fuel' endpoint tracks0 h Hrun Hle.
  - cbn [spotify.getPlaylistTracksFrom] in Hrun.
    destruct (String.eqb endpoint "") eqn:E; [|done].
    destruct fuel'; cbn [spotify.getPlaylistTracksFrom]; by rewrite E.
  - destruct fuel' as [|fuel']; [lia|].
    cbn [spotify.getPlaylistTracksFrom] in *.
    destruct (String.eqb endpoint ""); [done|].
    destruct (spotify.doGet _ _ _ _ _) as [[body [e|]] h1]; [done|].
    destruct (Unmarshal_tracksResponse body) as [resp [e|]]; [done|].
    apply IH; [done|lia].
Qed.

Lemma spotify_first_page playlistID :
  spotify.baseURL +:+ "/playlists/" +:+ playlistID +:+ "/tracks?limit="
    +:+ pretty spotify.maxPerPage
  = spotifyPageURL playlistID.
Proof. reflexivity. Qed.

End SpotifyHttp.

(** X18: YouTube's AddTracksToPlaylist adds the videos one request at a
    time, in the order of [trackIDs]: each request is a POST of the JSON
    body naming the playlist and one video to /playlistItems?part=snippet,
    with the bearer token.  It goes on as long as the requests are answered
    with a status from 200 to 299.  When every request is, it has made one
    request per video and returns no error.  Otherwise it stops at the first
    request that is not - the request failed, or its status is another:
    that request is the last one made, the videos after it are never
    requested, and the error returned names the video and carries the
    cause. *)
Theorem youtube_adds_videos_one_by_one {W : Type} (client : nethttp.Client W)
    (Marshal : json.Value → string) (ctx : ports.Context)
    (token playlistID : string) (trackIDs : list string) (h : nethttp.Http W) :
  let run :=
    youtube.AddTracksToPlaylist client Marshal ctx token playlistID trackIDs h in
  let add := addVideoRequest Marshal token playlistID in
  ∃ sent : list string,
    sent `prefix_of` trackIDs
    ∧ nethttp.requests run.2 = nethttp.requests h ++ (add <$> sent)
    ∧ let '(rs, w) := answers client ctx (add <$> sent) (nethttp.world h) in
      nethttp.world run.2 = w
      ∧ match run.1 with
        | None => sent = trackIDs ∧ Forall (λ r, postFailure r = None) rs
        | Some e =>
            ∃ added videoID cause,
              sent = added ++ [videoID]
              ∧ Forall (λ r, postFailure r = None) (take (length added) rs)
              ∧ postFailure <$> rs !! length added = Some (Some cause)
              ∧ e = "youtube: failed to add video " +:+ videoID
                    +:+ " to playlist: " +:+ cause
        end.
Proof.
  intros run add. subst run add. revert h.
  induction trackIDs as [|videoID rest IH]; intros h.
  - exists []. cbn. by rewrite app_nil_r.
  - cbn [youtube.AddTracksToPlaylist].
    pose proof (youtube_doPost_answer client ctx token
                  (youtube.baseURL +:+ "/playlistItems?part=snippet")
                  (Marshal (addVideoPayload playlistID videoID)) h)
      as (Herr & Hw & Hreq).
    fold (addVideoRequest Marshal token playlistID videoID) in Herr, Hw, Hreq.
    unfold addVideoPayload in Herr, Hw, Hreq.
    destruct (youtube.doPost _ _ _ _ _ _) as [[body err] h'].
    cbn [fst snd] in Herr, Hw, Hreq.
    destruct err as [e|].
    + (* the request for [videoID] is not accepted *)
      exists [videoID]. split; [by apply prefix_cons, prefix_nil|].
      split; [done|]. cbn [fmap list_fmap answers fst snd].
      fold (addVideoPayload playlistID videoID).
      destruct (client ctx (addVideoRequest Marshal token playlistID videoID)
                  (nethttp.world h)) as [r w]. cbn [fst snd] in *.
      split; [done|]. exists [], videoID, e.
      split; [done|]. split; [constructor|].
      split; [cbn; by rewrite <- Herr|done].
    + (* accepted: on with the rest *)
      destruct (IH h') as (sent & Hpre & Hreqs & Hrun).
      exists (videoID :: sent). split; [by apply prefix_cons|].
      split; [by rewrite Hreqs, Hreq, <- app_assoc|].
      cbn [fmap list_fmap answers].
      fold (addVideoPayload playlistID videoID).
      destruct (client ctx (addVideoRequest Marshal token playlistID videoID)
                  (nethttp.world h)) as [r w]. cbn [fst snd] in *.
      rewrite <- Hw.
      destruct (answers client ctx
                  (addVideoRequest Marshal token playlistID <$> sent)
                  (nethttp.world h')) as [rs w'].
      destruct Hrun as [Hworld Hres]. split; [done|].
      destruct (youtube.AddTracksToPlaylist _ _ _ _ _ _ _).1 as [e|].
      * destruct Hres as (added & v & cause & -> & Hok & Hlast & ->).
        exists (videoID :: added), v, cause. split; [done|].
        cbn [length take lookup list_lookup]. split; [by constructor|]. done.
      * destruct Hres as [-> Hok]. split; [done|]. by constructor.
Qed.

(** X19: YouTube's SearchTrack makes exactly one request whatever happens:
    a GET of /search for music videos, at most 5 results, with the query
    "<name> <artist>" escaped, and the bearer token.  It returns one of: an
    error starting with "youtube: search failed: " or "youtube: failed to
    parse search response: ", with no track and the score 0; no track, the
    score 0 and no error (no result found); or a track without album and
    ISRC together with the score calculateConfidence gives the source track
    and it, and no error. *)
Theorem youtube_search_outcomes {W : Type} (client : nethttp.Client W)
    (QueryEscape : string → string)
    (Unmarshal_searchListResponse :
       string → youtube.searchListResponse * ports.error)
    (ctx : ports.Context) (token : string) (track : Track)
    (h : nethttp.Http W) :
  let run :=
    youtube.SearchTrack client QueryEscape Unmarshal_searchListResponse ctx
      token track h in
  nethttp.requests run.2
  = nethttp.requests h ++ [youtubeSearch QueryEscape token track]
  ∧ ((∃ cause, run.1 = (None, f64.zero,
                        Some ("youtube: search failed: " +:+ cause)))
     ∨ (∃ cause, run.1 = (None, f64.zero,
                          Some ("youtube: failed to parse search response: "
                                +:+ cause)))
     ∨ run.1 = (None, f64.zero, None)
     ∨ (∃ m, run.1 = (Some m, youtube.calculateConfidence track m, None)
             ∧ Album m = "" ∧ ISRC m = "")).
Proof.
  intros run. subst run. unfold youtube.SearchTrack, youtubeSearch.
  pose proof (youtube_doGet_requests client ctx token
    (youtube.baseURL
       +:+ "/search?part=snippet&type=video&videoCategoryId=10&maxResults=5&q="
       +:+ QueryEscape (Name track +:+ " " +:+ Artist track)) h) as Hreq.
  destruct (youtube.doGet _ _ _ _ _) as [[body [e|]] h1]; cbn [fst snd] in *.
  { split; [done|]. left. eauto. }
  destruct (Unmarshal_searchListResponse body) as [resp [e|]]; cbn [fst snd].
  { split; [done|]. right. left. eauto. }
  destruct (youtube.search_Items resp) as [|best rest]; cbn [fst snd].
  { split; [done|]. right. right. by left. }
  split; [done|]. right. right. right. eexists. by split.
Qed.

(** X20: Spotify's SearchTrack looks the track up by ISRC first, when the
    source track has one: a GET of /search with the query "isrc:<ISRC>".
    When that request is answered with the status 200 and a body that
    decodes to at least one track, the first of these is returned with the
    score 1.0 and no error, and nothing else is requested.  In every other
    case - no ISRC, or a lookup that failed, was answered with another
    status, did not decode or found nothing - the lookup's outcome is
    dropped and the search by name and artist is made: the result is that
    search's, which is an error starting with "spotify: search failed: "
    (request failed or status not 200) or "spotify: failed to parse search
    response: ", with no track and the score 0; or no track, the score 0
    and no error when nothing was found; or the first track found, with the
    score calculateConfidence gives the source track and it.  The score
    returned is always between 0 and 1. *)
Theorem spotify_search_isrc_then_name {W : Type} (client : nethttp.Client W)
    (QueryEscape : string → string)
    (Unmarshal_searchResponse : string → spotify.searchResponse * ports.error)
    (ctx : ports.Context) (token : string) (track : Track)
    (h : nethttp.Http W) :
  let run :=
    spotify.SearchTrack client QueryEscape Unmarshal_searchResponse ctx token
      track h in
  let byISRC := spotifyISRCSearch QueryEscape token track in
  let byName := spotifyNameSearch QueryEscape token track in
  let lookup := client ctx byISRC (nethttp.world h) in
  let hit :=
    if String.eqb (ISRC track) "" then None
    else isrcHit (spotifyFetched Unmarshal_searchResponse lookup.1) in
  match hit with
  | Some first =>
      run.1 = (Some (spotify.toTrack first), f64.dec 1 1, None)
      ∧ nethttp.world run.2 = lookup.2
      ∧ nethttp.requests run.2 = nethttp.requests h ++ [byISRC]
  | None =>
      let looked := negb (String.eqb (ISRC track) "") in
      let search :=
        client ctx byName (if looked then lookup.2 else nethttp.world h) in
      run.1
      = nameSearchOutcome track
          (spotifyFetched Unmarshal_searchResponse search.1)
      ∧ nethttp.world run.2 = search.2
      ∧ nethttp.requests run.2
        = nethttp.requests h ++ (if looked then [byISRC] else []) ++ [byName]
  end
  ∧ inUnitInterval run.1.1.2.
Proof.
  intros run byISRC byName lookup hit. subst run byISRC byName lookup hit.
  unfold spotify.SearchTrack, spotify.nonEmpty.
  destruct (String.eqb (ISRC track) ""); cbn [negb].
  - rewrite spotify_searchByName_answer. cbn [fst snd].
    split; [by rewrite app_nil_l|]. apply nameSearchOutcome_in_unit.
  - rewrite spotify_searchByISRC_answer. cbv zeta.
    destruct (client ctx (spotifyISRCSearch QueryEscape token track)
                (nethttp.world h)) as [r1 w1]. cbn [fst snd].
    destruct (spotifyFetched Unmarshal_searchResponse r1)
      as [cause|cause|page]; cbn [isrcHit].
    + rewrite spotify_searchByName_answer. cbn [fst snd nethttp.world
        nethttp.requests].
      split; [by rewrite <- app_assoc|]. apply nameSearchOutcome_in_unit.
    + rewrite spotify_searchByName_answer. cbn [fst snd nethttp.world
        nethttp.requests].
      split; [by rewrite <- app_assoc|]. apply nameSearchOutcome_in_unit.
    + destruct (spotify.search_Items (spotify.search_Tracks page))
        as [|first others]; cbn [head].
      * rewrite spotify_searchByName_answer. cbn [fst snd nethttp.world
          nethttp.requests].
        split; [by rewrite <- app_assoc|]. apply nameSearchOutcome_in_unit.
      * cbn [fst snd nethttp.world nethttp.requests].
        split; [done|]. apply one_inUnitInterval.
Qed.

(** X21: when YouTube's GetPlaylistTracks returns, it has fetched the pages
    of the playlist one GET after the other: the first page without page
    token, each further page with the NextPageToken of the page before,
    every page with 50 results and the bearer token.  Without error, it has
    stopped at the first page whose NextPageToken is empty, and the tracks
    are those of the items of all the pages fetched, in order.  With an
    error (a request failed, answered with a status other than 200, or a
    body could not be decoded) the request that failed is the last one, no
    track is returned - those of the pages before are dropped - and the
    error starts with "youtube: failed to get playlist items: " or
    "youtube: failed to parse playlist items response: ".  A result does not
    depend on the fuel given to the loop. *)
Theorem youtube_playlist_pages {W : Type} (client : nethttp.Client W)
    (Unmarshal_playlistItemsResponse :
       string → youtube.playlistItemsResponse * ports.error)
    (fuel : nat) (ctx : ports.Context) (token playlistID : string)
    (h : nethttp.Http W) (tracks : list Track) (err : ports.error)
    (h' : nethttp.Http W) :
  youtube.GetPlaylistTracks client Unmarshal_playlistItemsResponse fuel ctx
    token playlistID h = Some ((tracks, err), h') →
  ∃ pages : list youtube.playlistItemsResponse,
    let tokens := "" :: (youtube.items_NextPageToken <$> pages) in
    let requested :=
      match err with Some _ => tokens | None => allButLast tokens end in
    Forall2 (λ t page,
               servedBy client Unmarshal_playlistItemsResponse ctx token
                 (youtubePageURL playlistID t) page)
      (allButLast tokens) pages
    ∧ Forall (λ page, youtube.items_NextPageToken page ≠ "")
        (match err with Some _ => pages | None => allButLast pages end)
    ∧ nethttp.requests h'
      = nethttp.requests h
        ++ ((λ t, getRequest token (youtubePageURL playlistID t)) <$> requested)
    ∧ match err with
      | None =>
          youtube.items_NextPageToken <$> last pages = Some ""
          ∧ tracks
            = youtube.appendTracks [] (concat (youtube.items_Items <$> pages))
      | Some e =>
          tracks = []
          ∧ ∃ cause,
              e = "youtube: failed to get playlist items: " +:+ cause
              ∨ e = "youtube: failed to parse playlist items response: "
                    +:+ cause
      end
    ∧ ∀ fuel', fuel ≤ fuel' →
        youtube.GetPlaylistTracks client Unmarshal_playlistItemsResponse fuel'
          ctx token playlistID h = Some ((tracks, err), h').
Proof.
  unfold youtube.GetPlaylistTracks. intros Hrun.
  destruct (youtube_getPlaylistTracksFrom_pages client
              Unmarshal_playlistItemsResponse _ _ _ _ _ _ _ _ _ _ Hrun)
    as (pages & Hserve & Hne & Hreqs & Hres).
  exists pages. cbn zeta in *.
  split; [done|]. split; [done|]. split; [done|]. split; [done|].
  intros fuel' Hle.
  by apply (youtube_getPlaylistTracksFrom_fuel client
              Unmarshal_playlistItemsResponse fuel fuel').
Qed.

Lemma youtube_playlist_pages_witness :
  ∃ tracks h',
    youtube.GetPlaylistTracks echoClient demoYouTubePages 5 false "tok" "pl"
      demoHttp = Some ((tracks, None), h')
    ∧ ∃ pages : list youtube.playlistItemsResponse,
        let tokens := "" :: (youtube.items_NextPageToken <$> pages) in
        let requested := allButLast tokens in
        Forall2 (λ t page,
                   servedBy echoClient demoYouTubePages false "tok"
                     (youtubePageURL "pl" t) page)
          (allButLast tokens) pages
        ∧ Forall (λ page, youtube.items_NextPageToken page ≠ "")
            (allButLast pages)
        ∧ nethttp.requests h'
          = nethttp.requests demoHttp
            ++ ((λ t, getRequest "tok" (youtubePageURL "pl" t)) <$> requested)
        ∧ (youtube.items_NextPageToken <$> last pages = Some ""
           ∧ tracks
             = youtube.appendTracks []
                 (concat (youtube.items_Items <$> pages)))
        ∧ ∀ fuel', 5 ≤ fuel' →
            youtube.GetPlaylistTracks echoClient demoYouTubePages fuel' false
              "tok" "pl" demoHttp = Some ((tracks, None), h').
Proof.
  do 2 eexists. split; [vm_compute; reflexivity|].
  refine (youtube_playlist_pages echoClient demoYouTubePages 5 false "tok" "pl"
            demoHttp _ None _ _).
  vm_compute. reflexivity.
Defined.

(** X22: when Spotify's GetPlaylistTracks returns, it has fetched the pages
    of the playlist one GET after the other: first
    /playlists/<id>/tracks?limit=50, then the URL each page gives as its
    Next, every request with the bearer token.  Without error, it has
    stopped at the first page whose Next is empty, and the tracks are those
    of the items of all the pages fetched, in order, without the items whose
    track has no ID; so no track returned has an empty ExternalID.  With an
    error (a request failed, answered with a status other than 200, or a
    body could not be decoded) the request that failed is the last one, no
    track is returned - those of the pages before are dropped - and the
    error starts with "spotify: failed to get playlist tracks: " or
    "spotify: failed to parse tracks response: ".  A result does not depend
    on the fuel given to the loop. *)
Theorem spotify_playlist_pages {W : Type} (client : nethttp.Client W)
    (Unmarshal_tracksResponse : string → spotify.tracksResponse * ports.error)
    (fuel : nat) (ctx : ports.Context) (token playlistID : string)
    (h : nethttp.Http W) (tracks : list Track) (err : ports.error)
    (h' : nethttp.Http W) :
  spotify.GetPlaylistTracks client Unmarshal_tracksResponse fuel ctx token
    playlistID h = Some ((tracks, err), h') →
  ∃ pages : list spotify.tracksResponse,
    let urls := spotifyPageURL playlistID :: (spotify.tracks_Next <$> pages) in
    let requested :=
      match err with Some _ => urls | None => allButLast urls end in
    Forall2 (servedBy client Unmarshal_tracksResponse ctx token)
      (allButLast urls) pages
    ∧ Forall (λ url, url ≠ "") requested
    ∧ nethttp.requests h' = nethttp.requests h ++ (getRequest token <$> requested)
    ∧ match err with
      | None =>
          last urls = Some ""
          ∧ tracks
            = spotify.toTrack
                <$> filter (λ t, spotify.track_ID t ≠ "")
                      (spotify.item_Track
                         <$> concat (spotify.tracks_Items <$> pages))
          ∧ Forall (λ t, ExternalID t ≠ "") tracks
      | Some e =>
          tracks = []
          ∧ ∃ cause,
              e = "spotify: failed to get playlist tracks: " +:+ cause
              ∨ e = "spotify: failed to parse tracks response: " +:+ cause
      end
    ∧ ∀ fuel', fuel ≤ fuel' →
        spotify.GetPlaylistTracks client Unmarshal_tracksResponse fuel' ctx
          token playlistID h = Some ((tracks, err), h').
Proof.
  intros Hrun. unfold spotify.GetPlaylistTracks in Hrun |- *.
  cbv zeta in Hrun. rewrite spotify_first_page in Hrun.
  destruct (spotify_getPlaylistTracksFrom_pages client
              Unmarshal_tracksResponse _ _ _ _ _ _ _ _ _ Hrun)
    as (pages & Hserve & Hne & Hreqs & Hres).
  exists pages. cbn zeta in *.
  split; [done|]. split; [done|]. split; [done|]. split.
  - destruct err as [e|]; [done|]. destruct Hres as [Hl ->].
    rewrite spotify_appendTracks_filter, app_nil_l.
    split; [done|]. split; [done|].
    apply Forall_fmap, Forall_forall. intros t Ht.
    by apply list_elem_of_filter in Ht as [Ht _].
  - intros fuel' Hle. rewrite spotify_first_page.
    by apply (spotify_getPlaylistTracksFrom_fuel client
                Unmarshal_tracksResponse fuel fuel').
Qed.

Lemma spotify_playlist_pages_witness :
  ∃ tracks h',
    spotify.GetPlaylistTracks echoClient demoSpotifyPages 5 false "tok" "pl"
      demoHttp = Some ((tracks, None), h')
    ∧ ∃ pages : list spotify.tracksResponse,
        let urls := spotifyPageURL "pl" :: (spotify.tracks_Next <$> pages) in
        let requested := allButLast urls in
        Forall2 (servedBy echoClient demoSpotifyPages false "tok")
          (allButLast urls) pages
        ∧ Forall (λ url, url ≠ "") requested
        ∧ nethttp.requests h'
          = nethttp.requests demoHttp ++ (getRequest "tok" <$> requested)
        ∧ (last urls = Some ""
           ∧ tracks
             = spotify.toTrack
                 <$> filter (λ t, spotify.track_ID t ≠ "")
                       (spotify.item_Track
                          <$> concat (spotify.tracks_Items <$> pages))
           ∧ Forall (λ t, ExternalID t ≠ "") tracks)
        ∧ ∀ fuel', 5 ≤ fuel' →
            spotify.GetPlaylistTracks echoClient demoSpotifyPages fuel' false
              "tok" "pl" demoHttp = Some ((tracks, None), h').
Proof.
  do 2 eexists. split; [vm_compute; reflexivity|].
  refine (spotify_playlist_pages echoClient demoSpotifyPages 5 false "tok" "pl"
            demoHttp _ None _ _).
  vm_compute. reflexivity.
Defined.

(** X23: YouTube's CreatePlaylist makes exactly one request whatever
    happens: a POST to /playlists?part=snippet,status of the JSON body of a
    private playlist with the given title and description, with the bearer
    token.  It returns no error exactly when the request was answered with
    a status from 200 to 299 and the body of the answer could be decoded;
    then it returns the ID decoded from that body.  In every other case it
    returns the empty ID and an error starting with "youtube: failed to
    create playlist: " or "youtube: failed to parse create playlist
    response: ". *)
Theorem youtube_create_playlist_outcomes {W : Type}
    (client : nethttp.Client W) (Marshal : json.Value → string)
    (Unmarshal_ID : string → string * ports.error) (ctx : ports.Context)
    (token name description : string) (h : nethttp.Http W) :
  let run :=
    youtube.CreatePlaylist client Marshal Unmarshal_ID ctx token name
      description h in
  let rq := createPlaylistRequest Marshal token name description in
  nethttp.requests run.2 = nethttp.requests h ++ [rq]
  ∧ (∀ id, run.1 = (id, None) ↔
       ∃ resp w',
         client ctx rq (nethttp.world h) = (inl resp, w')
         ∧ (200 ≤ nethttp.StatusCode resp < 300)%Z
         ∧ Unmarshal_ID (nethttp.ResponseBody resp) = (id, None))
  ∧ (∀ e, run.1.2 = Some e →
       run.1.1 = ""
       ∧ ∃ cause,
           e = "youtube: failed to create playlist: " +:+ cause
           ∨ e = "youtube: failed to parse create playlist response: "
                 +:+ cause).
Proof.
  intros run rq. subst run rq.
  unfold youtube.CreatePlaylist, createPlaylistRequest.
  set (payload := Marshal _).
  set (url := youtube.baseURL +:+ "/playlists?part=snippet,status").
  pose proof (youtube_doPost_requests client ctx token url payload h) as Hreq.
  unfold youtube.doPost, nethttp.send in *.
  fold (postRequest token url payload) in *.
  destruct (client ctx (postRequest token url payload) (nethttp.world h))
    as [[resp|e] w] eqn:Hclient; cbn [fst snd] in *.
  - destruct (Z.ltb_spec (nethttp.StatusCode resp) 200) as [Hlo|Hlo];
      cbn [orb fst snd] in *.
    { split; [done|]. split.
      - intros id. split; [done|].
        intros (resp' & w' & [= <- <-] & Hst & _). lia.
      - intros e [= <-]. split; [done|]. eauto. }
    destruct (Z.leb_spec 300 (nethttp.StatusCode resp)) as [Hhi|Hhi];
      cbn [fst snd] in *.
    { split; [done|]. split.
      - intros id. split; [done|].
        intros (resp' & w' & [= <- <-] & Hst & _). lia.
      - intros e [= <-]. split; [done|]. eauto. }
    destruct (Unmarshal_ID (nethttp.ResponseBody resp)) as [id0 [e0|]] eqn:Hdec;
      cbn [fst snd].
    + split; [done|]. split.
      * intros id. split; [done|].
        intros (resp' & w' & [= <- <-] & _ & Hd). congruence.
      * intros e [= <-]. split; [done|]. eauto.
    + split; [done|]. split; [|done].
      intros id. split.
      * intros [= <-]. exists resp, w. split; [done|]. split; [lia|done].
      * intros (resp' & w' & [= <- <-] & _ & Hd). congruence.
  - split; [done|]. split.
    + intros id. split; [done|]. by intros (resp' & w' & [=] & _).
    + intros e' [= <-]. split; [done|]. eauto.
Qed.

(** ** The HTTP handlers *)

Section Slices.

Lemma sliceTo_sliceFrom n s : strings.sliceTo n s +:+ strings.sliceFrom n s = s.
Proof.
  revert s. induction n as [|n IH]; intros s.
  - destruct s; cbn [strings.sliceTo strings.sliceFrom];
      by rewrite append_nil_l.
  - destruct s as [|c s]; cbn [strings.sliceTo strings.sliceFrom].
    + by rewrite append_nil_l.
    + by rewrite append_cons, IH.
Qed.

Lemma length_sliceFrom n s :
  String.length (strings.sliceFrom n s) = String.length s - n.
Proof.
  revert s. induction n as [|n IH]; intros s.
  - destruct s; cbn [strings.sliceFrom]; lia.
  - destruct s as [|c s]; cbn [strings.sliceFrom String.length]; [done|].
    by rewrite IH.
Qed.

Lemma extractToken_cases auth :
  (∃ token, token ≠ "" ∧ auth = "Bearer " +:+ token
            ∧ handler.extractToken auth = token)
  ∨ ((∀ token, token ≠ "" → auth ≠ "Bearer " +:+ token)
     ∧ handler.extractToken auth = auth).
Proof.
  unfold handler.extractToken.
  destruct (Nat.ltb_spec 7 (String.length auth)) as [Hlen|Hlen];
    cbn [andb].
  - destruct (String.eqb_spec (strings.sliceTo 7 auth) "Bearer ") as [Hp|Hp].
    + left. exists (strings.sliceFrom 7 auth). split; [|split; [|done]].
      * intros He. pose proof (length_sliceFrom 7 auth) as Hl.
        rewrite He in Hl. cbn [String.length] in Hl. lia.
      * by rewrite <- Hp, sliceTo_sliceFrom.
    + right. split; [|done]. intros token _ ->. by destruct Hp.
  - right. split; [|done]. intros token Hne ->.
    destruct token; [done|].
    rewrite !append_cons, append_nil_l in Hlen. cbn [String.length] in Hlen.
    lia.
Qed.

Lemma extractToken_empty auth : handler.extractToken auth = "" ↔ auth = "".
Proof.
  destruct (extractToken_cases auth) as [(token & Hne & -> & ->)|[_ ->]];
    [|done].
  split; [done|]. by intros [=].
Qed.

End Slices.

(** X24: extractToken removes the prefix "Bearer " of the Authorization
    header when a non-empty token follows it, and returns every other
    header as it is: a header without that exact prefix (another scheme,
    "bearer " in lower case, a bare token) and also the header "Bearer "
    with nothing after it.  So the token it returns is empty only when the
    header is empty or missing. *)
Theorem extractToken_strips_bearer_prefix (auth : string) :
  (∀ token, token ≠ "" → handler.extractToken ("Bearer " +:+ token) = token)
  ∧ ((∀ token, token ≠ "" → auth ≠ "Bearer " +:+ token) →
     handler.extractToken auth = auth)
  ∧ handler.extractToken "Bearer " = "Bearer "
  ∧ (handler.extractToken auth = "" ↔ auth = "").
Proof.
  split; [|split; [|split]].
  - intros token Hne.
    destruct (extractToken_cases ("Bearer " +:+ token))
      as [(t & _ & Heq & ->)|[Hno _]].
    + by injection Heq.
    + by destruct (Hno token Hne).
  - intros Hno.
    destruct (extractToken_cases auth) as [(t & Hne & Heq & _)|[_ ->]];
      [|done].
    by destruct (Hno t Hne).
  - reflexivity.
  - apply extractToken_empty.
Qed.

(** X25: the ListPlaylists handler answers 400 "bad_request" when the
    query has no provider, else 401 "unauthorized" exactly when the
    Authorization header is empty or missing; in both cases the service is
    not called.  Otherwise it calls the service once, with the provider and
    the header without its "Bearer " prefix, and answers 500
    "internal_error" with the service's error as the message, or 200 with
    the playlists the service returned. *)
Theorem ListPlaylists_replies {S : Type} (service : ports.MigrationService S)
    (ctx : ports.Context) (provider auth : string) (s : S) :
  let run := handler.ListPlaylists service ctx provider auth s in
  if String.eqb provider ""
  then run = (handler.JSONError 400
                {| handler.Error := "bad_request";
                   handler.Message :=
                     "query parameter 'provider' is required" |}, s)
  else if String.eqb auth ""
  then run = (handler.JSONError 401
                {| handler.Error := "unauthorized";
                   handler.Message :=
                     "Authorization header with Bearer token is required" |},
              s)
  else
    let called :=
      ports.ListPlaylists service ctx provider (handler.extractToken auth) s in
    handler.extractToken auth ≠ ""
    ∧ run = (match called.1.2 with
             | Some e =>
                 handler.JSONError 500
                   {| handler.Error := "internal_error";
                      handler.Message := e |}
             | None => handler.JSONPlaylists 200 called.1.1
             end, called.2).
Proof.
  intros run. subst run. unfold handler.ListPlaylists.
  destruct (String.eqb provider ""); [done|].
  destruct (String.eqb_spec auth "") as [->|Hauth]; [done|].
  assert (Htok : handler.extractToken auth ≠ "")
    by by rewrite extractToken_empty.
  destruct (String.eqb_spec (handler.extractToken auth) ""); [done|].
  cbv zeta. split; [done|].
  destruct (ports.ListPlaylists _ _ _ _ _) as [[playlists [e|]] s']; done.
Qed.
